(** * Uniswap SDK: trades and best-route search (src/entities/trade.ts)

    A shallow embedding of [trade.ts]: the price-impact computation, the
    two ranking comparators, the [Trade] constructor, the slippage bounds
    [minimumAmountOut] / [maximumAmountIn] and the two depth-first searches
    [bestTradeExactIn] / [bestTradeExactOut].

    JavaScript exceptions are modelled by the [result] type, JSBI big
    integers by [Z], arrays by [list]. *)

From Stdlib Require Import ZArith List String Bool Lia QArith Permutation.
From Stdlib Require Import Sorted Lqa.
Import ListNotations.
Local Open Scope string_scope.
Local Open Scope list_scope.
Local Open Scope Z_scope.

Set Implicit Arguments.

(* ------------------------------------------------------------------ *)
(** ** Failures *)

(** The exceptions the code can raise: [invariant(cond, msg)] from
    tiny-invariant, and the two liquidity errors of [errors.ts], which the
    searches recognise by their [isInsufficient...Error] flags. *)
Inductive error : Type :=
| InvariantError (msg : string)
| InsufficientReservesError
| InsufficientInputAmountError.

Inductive result (A : Type) : Type :=
| Ok (a : A)
| Err (e : error).
Arguments Ok {A} a.
Arguments Err {A} e.

Definition bind {A B : Type} (r : result A) (k : A -> result B) : result B :=
  match r with
  | Ok a => k a
  | Err e => Err e
  end.

Notation "'let*' x ':=' r 'in' k" := (bind r (fun x => k))
  (at level 10, x pattern, r at level 100, k at level 200).

(** [invariant(cond, msg)] *)
Definition invariant (cond : bool) (msg : string) : result unit :=
  if cond then Ok tt else Err (InvariantError msg).

Definition isInsufficientInputAmountError (e : error) : bool :=
  match e with InsufficientInputAmountError => true | _ => false end.

Definition isInsufficientReservesError (e : error) : bool :=
  match e with InsufficientReservesError => true | _ => false end.

(** The two failures the specification calls liquidity failures. *)
Definition liquidity_failure (e : error) : Prop :=
  e = InsufficientReservesError \/ e = InsufficientInputAmountError.

(* ------------------------------------------------------------------ *)
(** ** Exact fractions *)

Module Fraction.

(** Modelled from the spec: the class [Fraction] of
    [entities/fractions/fraction.ts] is not among the sources.  Section 3
    and 4.1 of the specification: a pair of arbitrary-precision signed
    integers, every operation done by cross-multiplication of numerators
    and denominators, [quotient] truncating toward zero. *)
Record t : Type := mk { numerator : Z; denominator : Z }.

(** [new Fraction(n)]: the denominator defaults to [ONE]. *)
Definition of_int (n : Z) : t := mk n 1.

Definition quotient (a : t) : Z := Z.quot (numerator a) (denominator a).

Definition invert (a : t) : t := mk (denominator a) (numerator a).

Definition add (a b : t) : t :=
  mk (numerator a * denominator b + numerator b * denominator a)
     (denominator a * denominator b).

Definition subtract (a b : t) : t :=
  mk (numerator a * denominator b - numerator b * denominator a)
     (denominator a * denominator b).

Definition multiply (a b : t) : t :=
  mk (numerator a * numerator b) (denominator a * denominator b).

Definition divide (a b : t) : t :=
  mk (numerator a * denominator b) (denominator a * numerator b).

Definition lessThan (a b : t) : bool :=
  numerator a * denominator b <? numerator b * denominator a.

Definition equalTo (a b : t) : bool :=
  numerator a * denominator b =? numerator b * denominator a.

Definition greaterThan (a b : t) : bool :=
  numerator a * denominator b >? numerator b * denominator a.

(** The rational number a fraction with a non-zero denominator stands
    for. *)
Definition toQ (a : t) : Q := inject_Z (numerator a) / inject_Z (denominator a).

End Fraction.

(** [ZERO] and [ONE] of [constants.ts]. *)
Definition ZERO : Z := 0.
Definition ONE : Z := 1.

(** A [Percent] is a [Fraction] that prints itself multiplied by 100. *)
Definition Percent : Type := Fraction.t.

(* ------------------------------------------------------------------ *)
(** ** Assets and amounts *)

Definition ChainId : Type := Z.

(** Modelled from the spec: [Token] of [entities/token.ts] is not among the
    sources.  Section 3: a token is a contract address with a decimal
    precision and a chain identifier. *)
Record Token : Type := mkToken {
  chainId : ChainId;
  address : string;
  decimals : N
}.

(** Modelled from the spec: [Currency] of [entities/currency.ts], section 3:
    an asset is the native asset [ETHER] or a [Token]. *)
Inductive Currency : Type :=
| ETHER
| Tok (t : Token).

Definition currency_decimals (c : Currency) : N :=
  match c with
  | ETHER => 18%N
  | Tok t => decimals t
  end.

(** Modelled from the spec: [Token.equals], section 3: same chain and same
    address. *)
Definition Token_equals (a b : Token) : bool :=
  (chainId a =? chainId b) && String.eqb (address a) (address b).

(** Modelled from the spec: [currencyEquals] of [entities/token.ts],
    section 3: two assets are equal iff same chain and same address, or
    both are the native asset. *)
Definition currencyEquals (a b : Currency) : bool :=
  match a, b with
  | Tok x, Tok y => Token_equals x y
  | ETHER, ETHER => true
  | _, _ => false
  end.

(** [a === ETHER]. *)
Definition is_ETHER (c : Currency) : bool :=
  match c with ETHER => true | Tok _ => false end.

(** Modelled from the spec: [TokenAmount] of
    [entities/fractions/tokenAmount.ts], section 3: a token and a raw
    integer magnitude. *)
Record TokenAmount : Type := mkTokenAmount {
  token : Token;
  ta_raw : Z
}.

(** Modelled from the spec: [CurrencyAmount] of
    [entities/fractions/currencyAmount.ts] with its subclass [TokenAmount]:
    [instanceof TokenAmount] is the constructor test. *)
Inductive CurrencyAmount : Type :=
| OfToken (a : TokenAmount)
| OfCurrency (c : Currency) (raw : Z).

Definition currency (a : CurrencyAmount) : Currency :=
  match a with
  | OfToken ta => Tok (token ta)
  | OfCurrency c _ => c
  end.

Definition raw (a : CurrencyAmount) : Z :=
  match a with
  | OfToken ta => ta_raw ta
  | OfCurrency _ r => r
  end.

Definition TEN : Z := 10.

(** Modelled from the spec: an amount is itself a fraction (section 2: the
    value types are built on the exact fraction), its raw value over ten to
    the power of the decimals of its currency. *)
Definition amount_fraction (a : CurrencyAmount) : Fraction.t :=
  Fraction.mk (raw a) (TEN ^ Z.of_N (currency_decimals (currency a))).

(* ------------------------------------------------------------------ *)
(** ** Prices *)

(** Modelled from the spec: [Price] of [entities/fractions/price.ts],
    section 3: a fraction between a base and a quote asset; [price_raw] is
    the fraction before scaling by the decimal precisions. *)
Record Price : Type := mkPrice {
  baseCurrency : Currency;
  quoteCurrency : Currency;
  price_raw : Fraction.t
}.

(** [new Price(base, quote, denominator, numerator)] *)
Definition newPrice (base quote : Currency) (den num : Z) : Price :=
  mkPrice base quote (Fraction.mk num den).

(* ------------------------------------------------------------------ *)
(** ** Pairs *)

(** Modelled from the spec: [Pair] of [entities/pair.ts] is not among the
    sources.  Section 3: two tokens with their reserves, [reserve0] an
    amount of [token0] and [reserve1] an amount of [token1]. *)
Record Pair : Type := mkPair {
  reserve0 : TokenAmount;
  reserve1 : TokenAmount
}.

Definition token0 (p : Pair) : Token := token (reserve0 p).
Definition token1 (p : Pair) : Token := token (reserve1 p).

Definition involvesToken (p : Pair) (t : Token) : bool :=
  Token_equals t (token0 p) || Token_equals t (token1 p).

(** [amount.equalTo(ZERO)] for a reserve: the amount as a fraction against
    the integer zero. *)
Definition reserve_is_zero (r : TokenAmount) : bool :=
  Fraction.equalTo (amount_fraction (OfToken r)) (Fraction.of_int ZERO).

(** Modelled from the spec: [Pair.getOutputAmount], section 4.2.  The input
    must be of one of the two tokens (a validation failure otherwise); both
    reserves must be non-zero, else [InsufficientReserves]; the output is
    [truncate (reserveOut * in * 997 / (reserveIn * 1000 + in * 997))] and
    [InsufficientInputAmount] is raised when it is zero; the updated pair
    has the input reserve increased and the output reserve decreased. *)
Definition getOutputAmount (p : Pair) (inputAmount : TokenAmount)
  : result (TokenAmount * Pair) :=
  let* _ := invariant (involvesToken p (token inputAmount)) "TOKEN" in
  if (ta_raw (reserve0 p) =? ZERO) || (ta_raw (reserve1 p) =? ZERO)
  then Err InsufficientReservesError
  else
    let zeroForOne := Token_equals (token inputAmount) (token0 p) in
    let inputReserve := if zeroForOne then reserve0 p else reserve1 p in
    let outputReserve := if zeroForOne then reserve1 p else reserve0 p in
    let inputAmountWithFee := ta_raw inputAmount * 997 in
    let num := inputAmountWithFee * ta_raw outputReserve in
    let den := ta_raw inputReserve * 1000 + inputAmountWithFee in
    let outputAmount := mkTokenAmount (token outputReserve) (Z.quot num den) in
    if ta_raw outputAmount =? ZERO
    then Err InsufficientInputAmountError
    else
      let newIn := mkTokenAmount (token inputReserve)
                     (ta_raw inputReserve + ta_raw inputAmount) in
      let newOut := mkTokenAmount (token outputReserve)
                      (ta_raw outputReserve - ta_raw outputAmount) in
      Ok (outputAmount,
          if zeroForOne then mkPair newIn newOut else mkPair newOut newIn).

(** Modelled from the spec: [Pair.getInputAmount], section 4.2.  The output
    must be of one of the two tokens and strictly less than its reserve,
    else [InsufficientReserves]; the input is the fee-inverse formula
    rounded up: [reserveIn * out * 1000 / ((reserveOut - out) * 997) + 1]. *)
Definition getInputAmount (p : Pair) (outputAmount : TokenAmount)
  : result (TokenAmount * Pair) :=
  let* _ := invariant (involvesToken p (token outputAmount)) "TOKEN" in
  let oneForZero := Token_equals (token outputAmount) (token0 p) in
  let outputReserve := if oneForZero then reserve0 p else reserve1 p in
  let inputReserve := if oneForZero then reserve1 p else reserve0 p in
  if (ta_raw (reserve0 p) =? ZERO) || (ta_raw (reserve1 p) =? ZERO)
     || (ta_raw outputAmount >=? ta_raw outputReserve)
  then Err InsufficientReservesError
  else
    let num := ta_raw inputReserve * ta_raw outputAmount * 1000 in
    let den := (ta_raw outputReserve - ta_raw outputAmount) * 997 in
    let inputAmount := mkTokenAmount (token inputReserve) (Z.quot num den + ONE) in
    let newIn := mkTokenAmount (token inputReserve)
                   (ta_raw inputReserve + ta_raw inputAmount) in
    let newOut := mkTokenAmount (token outputReserve)
                    (ta_raw outputReserve - ta_raw outputAmount) in
    Ok (inputAmount,
        if oneForZero then mkPair newOut newIn else mkPair newIn newOut).

(* ------------------------------------------------------------------ *)
(** ** Routes *)

(** Modelled from the spec: [Route] of [entities/route.ts], section 3: the
    pairs, the tokens visited, the input, the inferred output and the mid
    price. *)
Record Route : Type := mkRoute {
  pairs : list Pair;
  path : list Token;
  input : Token;
  output : Token;
  midPrice : Price
}.

(** The tokens visited along [ps] from [cur]: each pair must hold the
    current token, and leads to its other token. *)
Fixpoint route_path (ps : list Pair) (cur : Token) : result (list Token) :=
  match ps with
  | [] => Ok [cur]
  | p :: rest =>
      let* _ := invariant (Token_equals cur (token0 p) || Token_equals cur (token1 p))
                          "PATH" in
      let out := if Token_equals cur (token0 p) then token1 p else token0 p in
      let* tl := route_path rest out in
      Ok (cur :: tl)
  end.

(** The price of one hop out of [cur]: the reserve of the other token over
    the reserve of [cur]. *)
Definition hop_price (p : Pair) (cur : Token) : Price :=
  if Token_equals cur (token0 p)
  then newPrice (Tok (token0 p)) (Tok (token1 p)) (ta_raw (reserve0 p)) (ta_raw (reserve1 p))
  else newPrice (Tok (token1 p)) (Tok (token0 p)) (ta_raw (reserve1 p)) (ta_raw (reserve0 p)).

Definition price_multiply (a b : Price) : Price :=
  mkPrice (baseCurrency a) (quoteCurrency b)
          (Fraction.multiply (price_raw a) (price_raw b)).

Fixpoint hop_prices (ps : list Pair) (pth : list Token) : list Price :=
  match ps, pth with
  | p :: ps', cur :: pth' => hop_price p cur :: hop_prices ps' pth'
  | _, _ => []
  end.

(** Modelled from the spec: the [Route] constructor of [entities/route.ts],
    section 4.3: a non-empty sequence of pairs, each leading from the
    current token to its other token, starting at the input; the mid price
    is the product of the prices of the hops. *)
Definition newRoute (ps : list Pair) (inp : Token) : result Route :=
  match ps with
  | [] => Err (InvariantError "PAIRS")
  | first :: rest =>
      let* pth := route_path ps inp in
      Ok (mkRoute ps pth inp (last pth inp)
            (fold_left price_multiply (hop_prices rest (tl pth))
                       (hop_price first inp)))
  end.

(* ------------------------------------------------------------------ *)
(** ** Bounded ranked insertion *)

Section SortedInsert.
Variable T : Type.
Variable comparator : T -> T -> result Z.

(** Place [add] after every entry that ranks before it or ties with it. *)
Fixpoint insert_ranked (items : list T) (add : T) : result (list T) :=
  match items with
  | [] => Ok [add]
  | x :: rest =>
      let* c := comparator x add in
      if c <=? 0
      then let* r := insert_ranked rest add in Ok (x :: r)
      else Ok (add :: x :: rest)
  end.

(** Modelled from the spec: [sortedInsert] of [utils.ts] is not among the
    sources.  Section 4.5: insert into a bounded, descending-ranked list
    capped at [maxSize], discarding the worst entry when the cap would be
    exceeded. *)
Definition sortedInsert (items : list T) (add : T) (maxSize : Z)
  : result (list T) :=
  let* l := insert_ranked items add in
  if Z.of_nat (List.length l) >? maxSize then Ok (removelast l) else Ok l.
End SortedInsert.

(* ------------------------------------------------------------------ *)
(** ** Trades *)

Inductive TradeType : Type :=
| EXACT_INPUT
| EXACT_OUTPUT.

Record Trade : Type := mkTrade {
  route : Route;
  tradeType : TradeType;
  inputAmount : CurrencyAmount;
  outputAmount : CurrencyAmount;
  executionPrice : Price;
  nextMidPrice : Price;
  priceImpact : Percent
}.

(** [computePriceImpact(midPrice, inputAmount, outputAmount)] *)
Definition computePriceImpact (midPrice : Price) (inputAmount outputAmount : TokenAmount)
  : Percent :=
  let exactQuote :=
    Fraction.multiply (price_raw midPrice) (Fraction.of_int (ta_raw inputAmount)) in
  let slippage :=
    Fraction.divide
      (Fraction.subtract exactQuote (Fraction.of_int (ta_raw outputAmount)))
      exactQuote in
  Fraction.mk (Fraction.numerator slippage) (Fraction.denominator slippage).

(** Modelled from the spec: the comparisons [equalTo] and [lessThan] of two
    amounts are those of the fractions the amounts stand for. *)
Definition amount_equalTo (a b : CurrencyAmount) : bool :=
  Fraction.equalTo (amount_fraction a) (amount_fraction b).

Definition amount_lessThan (a b : CurrencyAmount) : bool :=
  Fraction.lessThan (amount_fraction a) (amount_fraction b).

(** [inputOutputComparator(a, b)], on the two amounts of each side. *)
Definition inputOutputComparator (aIn aOut bIn bOut : CurrencyAmount) : result Z :=
  let* _ := invariant (currencyEquals (currency aIn) (currency bIn)) "INPUT_CURRENCY" in
  let* _ := invariant (currencyEquals (currency aOut) (currency bOut)) "OUTPUT_CURRENCY" in
  if amount_equalTo aOut bOut then
    if amount_equalTo aIn bIn then Ok 0
    else if amount_lessThan aIn bIn then Ok (-1)
    else Ok 1
  else
    if amount_lessThan aOut bOut then Ok 1
    else Ok (-1).

(** [tradeComparator(a, b)] *)
Definition tradeComparator (a b : Trade) : result Z :=
  let* ioComp :=
    inputOutputComparator (inputAmount a) (outputAmount a)
                          (inputAmount b) (outputAmount b) in
  if negb (ioComp =? 0) then Ok ioComp
  else if Fraction.lessThan (priceImpact a) (priceImpact b) then Ok (-1)
  else if Fraction.greaterThan (priceImpact a) (priceImpact b) then Ok 1
  else Ok (Z.of_nat (List.length (path (route a)))
           - Z.of_nat (List.length (path (route b)))).

Section Trades.

(** [WETH[chainId]]: the table of wrapped native tokens of [token.ts]. *)
Variable WETH : ChainId -> Token.

(** [wrappedAmount(currencyAmount, chainId)] *)
Definition wrappedAmount (currencyAmount : CurrencyAmount) (chain : ChainId)
  : result TokenAmount :=
  match currencyAmount with
  | OfToken ta => Ok ta
  | OfCurrency c r =>
      if is_ETHER c then Ok (mkTokenAmount (WETH chain) r)
      else Err (InvariantError "CURRENCY")
  end.

(** The loop of the [EXACT_INPUT] branch of the constructor: the amounts
    [amounts[i..]] and the pairs after the trade [nextPairs[i..]]. *)
Fixpoint amounts_forward (ps : list Pair) (amount : TokenAmount)
  : result (list TokenAmount * list Pair) :=
  match ps with
  | [] => Ok ([amount], [])
  | p :: rest =>
      let* (outAmount, nextPair) := getOutputAmount p amount in
      let* (amounts, nextPairs) := amounts_forward rest outAmount in
      Ok (amount :: amounts, nextPair :: nextPairs)
  end.

(** The loop of the [EXACT_OUTPUT] branch: it runs from the last pair to
    the first, [amount] being [amounts[amounts.length - 1]]. *)
Fixpoint amounts_backward (ps : list Pair) (amount : TokenAmount)
  : result (list TokenAmount * list Pair) :=
  match ps with
  | [] => Ok ([amount], [])
  | p :: rest =>
      let* (amounts, nextPairs) := amounts_backward rest amount in
      let* (inAmount, nextPair) := getInputAmount p (hd amount amounts) in
      Ok (inAmount :: amounts, nextPair :: nextPairs)
  end.

(** [new Trade(route, amount, tradeType)].  A route is built by
    [newRoute], so its path has one token more than it has pairs and
    both loops of the constructor visit every pair.  [amounts[0]] and
    [amounts[amounts.length - 1]] are the head and the last element of the
    amounts of the walk. *)
Definition newTrade (route : Route) (amount : CurrencyAmount) (tradeType : TradeType)
  : result Trade :=
  let* (wrapped, walk) :=
    match tradeType with
    | EXACT_INPUT =>
        let* _ := invariant
          (currencyEquals (currency amount) (Tok (input route))
           || (is_ETHER (currency amount)
               && Token_equals (input route) (WETH (chainId (input route)))))
          "INPUT" in
        let* a0 := wrappedAmount amount (chainId (input route)) in
        let* w := amounts_forward (pairs route) a0 in
        Ok (a0, w)
    | EXACT_OUTPUT =>
        let* _ := invariant
          (currencyEquals (currency amount) (Tok (output route))
           || (is_ETHER (currency amount)
               && Token_equals (output route) (WETH (chainId (output route)))))
          "OUTPUT" in
        let* an := wrappedAmount amount (chainId (output route)) in
        let* w := amounts_backward (pairs route) an in
        Ok (an, w)
    end in
  let (amounts, nextPairs) := walk in
  let inputAmount := hd wrapped amounts in
  let outputAmount := last amounts wrapped in
  let* nextRoute := newRoute nextPairs (input route) in
  Ok (mkTrade route tradeType (OfToken inputAmount) (OfToken outputAmount)
        (newPrice (Tok (input route)) (Tok (output route))
                  (ta_raw inputAmount) (ta_raw outputAmount))
        (midPrice nextRoute)
        (computePriceImpact (midPrice route) inputAmount outputAmount)).

(** [new TokenAmount(...)] or [new CurrencyAmount(...)] with the same asset
    as [a], as both slippage bounds build their result. *)
Definition with_raw (a : CurrencyAmount) (r : Z) : CurrencyAmount :=
  match a with
  | OfToken ta => OfToken (mkTokenAmount (token ta) r)
  | OfCurrency c _ => OfCurrency c r
  end.

(** [trade.minimumAmountOut(slippageTolerance)] *)
Definition minimumAmountOut (t : Trade) (slippageTolerance : Percent)
  : result CurrencyAmount :=
  let* _ := invariant
    (negb (Fraction.lessThan slippageTolerance (Fraction.of_int ZERO)))
    "SLIPPAGE_TOLERANCE" in
  match tradeType t with
  | EXACT_OUTPUT => Ok (outputAmount t)
  | EXACT_INPUT =>
      let slippageAdjustedAmountOut :=
        Fraction.quotient
          (Fraction.multiply
             (Fraction.invert (Fraction.add (Fraction.of_int ONE) slippageTolerance))
             (Fraction.of_int (raw (outputAmount t)))) in
      Ok (with_raw (outputAmount t) slippageAdjustedAmountOut)
  end.

(** [trade.maximumAmountIn(slippageTolerance)] *)
Definition maximumAmountIn (t : Trade) (slippageTolerance : Percent)
  : result CurrencyAmount :=
  let* _ := invariant
    (negb (Fraction.lessThan slippageTolerance (Fraction.of_int ZERO)))
    "SLIPPAGE_TOLERANCE" in
  match tradeType t with
  | EXACT_INPUT => Ok (inputAmount t)
  | EXACT_OUTPUT =>
      let slippageAdjustedAmountIn :=
        Fraction.quotient
          (Fraction.multiply
             (Fraction.add (Fraction.of_int ONE) slippageTolerance)
             (Fraction.of_int (raw (inputAmount t)))) in
      Ok (with_raw (inputAmount t) slippageAdjustedAmountIn)
  end.

(* ---------------------------------------------------------------- *)
(** ** Best-trade search *)

(** A search either runs out of fuel ([None]) or ends like the code does,
    with the array [bestTrades] or with an exception. *)
Definition outcome : Type := option (result (list Trade)).

(** The recursive call as the loop sees it: candidate pairs, running
    amount, current pairs and [bestTrades]. *)
Definition recursion : Type :=
  list Pair -> TokenAmount -> list Pair -> list Trade -> outcome.

Section ExactIn.
Variable rec : recursion.
Variable amountIn : TokenAmount.
Variable tokenOut : Token.
Variables maxNumResults maxHops : Z.
Variable currentPairs : list Pair.
Variable originalAmountIn : TokenAmount.

(** The [for] loop of [bestTradeExactIn] from index [i]: [before] is
    [pairs.slice(0, i)] and [rest] is [pairs.slice(i)], so that
    [before ++ rest] is [pairs] at every iteration. *)
Fixpoint loopExactIn (before rest : list Pair) (bestTrades : list Trade)
  {struct rest} : outcome :=
  match rest with
  | [] => Some (Ok bestTrades)
  | p :: after =>
      let continue := loopExactIn (before ++ [p]) after in
      if negb (Token_equals (token0 p) (token amountIn))
         && negb (Token_equals (token1 p) (token amountIn))
      then continue bestTrades
      else if reserve_is_zero (reserve0 p) || reserve_is_zero (reserve1 p)
      then continue bestTrades
      else
        match getOutputAmount p amountIn with
        | Err e =>
            if isInsufficientInputAmountError e then continue bestTrades
            else Some (Err e)
        | Ok (amountOut, _) =>
            if Token_equals (token amountOut) tokenOut then
              match
                (let* r := newRoute (currentPairs ++ [p]) (token originalAmountIn) in
                 let* t := newTrade r (OfToken originalAmountIn) EXACT_INPUT in
                 sortedInsert tradeComparator bestTrades t maxNumResults)
              with
              | Err e => Some (Err e)
              | Ok bestTrades' => continue bestTrades'
              end
            else if (maxHops >? 1)
                    && (Z.of_nat (List.length (before ++ rest)) >? 1) then
              let pairsExcludingThisPair := before ++ after in
              match rec pairsExcludingThisPair amountOut
                        (currentPairs ++ [p]) bestTrades with
              | None => None
              | Some (Err e) => Some (Err e)
              | Some (Ok bestTrades') => continue bestTrades'
              end
            else continue bestTrades
        end
  end.
End ExactIn.

(** [Trade.bestTradeExactIn] with all seven arguments.  [sameAmount] is
    the outcome of [originalAmountIn === amountIn], an identity of
    objects: true when the parameter took its default, false in the
    recursive call, whose [amountOut] is a fresh object. *)
Fixpoint bestTradeExactIn_rec (fuel : nat) (pairs : list Pair)
    (amountIn : TokenAmount) (tokenOut : Token) (maxNumResults maxHops : Z)
    (currentPairs : list Pair) (originalAmountIn : TokenAmount)
    (sameAmount : bool) (bestTrades : list Trade) {struct fuel} : outcome :=
  match
    (let* _ := invariant (Z.of_nat (List.length pairs) >? 0) "PAIRS" in
     let* _ := invariant (maxHops >? 0) "MAX_HOPS" in
     invariant (sameAmount || (Z.of_nat (List.length currentPairs) >? 0))
               "INVALID_RECURSION")
  with
  | Err e => Some (Err e)
  | Ok _ =>
      match fuel with
      | O => None
      | S fuel' =>
          loopExactIn
            (fun pairs' amountOut currentPairs' bestTrades' =>
               bestTradeExactIn_rec fuel' pairs' amountOut tokenOut
                 maxNumResults (maxHops - 1) currentPairs' originalAmountIn
                 false bestTrades')
            amountIn tokenOut maxNumResults maxHops currentPairs
            originalAmountIn [] pairs bestTrades
      end
  end.

(** [BestTradeOptions] with its defaults filled in. *)
Record BestTradeOptions : Type := mkOptions {
  maxNumResults : Z;
  maxHops : Z
}.

Definition defaultOptions : BestTradeOptions := mkOptions 3 3.

(** [Trade.bestTradeExactIn(pairs, amountIn, tokenOut, options)]: the
    recursion arguments take their defaults, and each level removes one
    pair, so the length of [pairs] is fuel enough. *)
Definition bestTradeExactIn (pairs : list Pair) (amountIn : TokenAmount)
    (tokenOut : Token) (options : BestTradeOptions) : outcome :=
  bestTradeExactIn_rec (List.length pairs) pairs amountIn tokenOut
    (maxNumResults options) (maxHops options) [] amountIn true [].

Section ExactOut.
Variable rec : recursion.
Variable tokenIn : Token.
Variable amountOut : TokenAmount.
Variables maxNumResults maxHops : Z.
Variable currentPairs : list Pair.
Variable originalAmountOut : TokenAmount.

(** The [for] loop of [bestTradeExactOut], as [loopExactIn]. *)
Fixpoint loopExactOut (before rest : list Pair) (bestTrades : list Trade)
  {struct rest} : outcome :=
  match rest with
  | [] => Some (Ok bestTrades)
  | p :: after =>
      let continue := loopExactOut (before ++ [p]) after in
      if negb (Token_equals (token0 p) (token amountOut))
         && negb (Token_equals (token1 p) (token amountOut))
      then continue bestTrades
      else if reserve_is_zero (reserve0 p) || reserve_is_zero (reserve1 p)
      then continue bestTrades
      else
        match getInputAmount p amountOut with
        | Err e =>
            if isInsufficientReservesError e then continue bestTrades
            else Some (Err e)
        | Ok (amountIn, _) =>
            if Token_equals (token amountIn) tokenIn then
              match
                (let* r := newRoute (p :: currentPairs) tokenIn in
                 let* t := newTrade r (OfToken originalAmountOut) EXACT_OUTPUT in
                 sortedInsert tradeComparator bestTrades t maxNumResults)
              with
              | Err e => Some (Err e)
              | Ok bestTrades' => continue bestTrades'
              end
            else if (maxHops >? 1)
                    && (Z.of_nat (List.length (before ++ rest)) >? 1) then
              let pairsExcludingThisPair := before ++ after in
              match rec pairsExcludingThisPair amountIn
                        (p :: currentPairs) bestTrades with
              | None => None
              | Some (Err e) => Some (Err e)
              | Some (Ok bestTrades') => continue bestTrades'
              end
            else continue bestTrades
        end
  end.
End ExactOut.

(** [Trade.bestTradeExactOut] with all seven arguments. *)
Fixpoint bestTradeExactOut_rec (fuel : nat) (pairs : list Pair)
    (tokenIn : Token) (amountOut : TokenAmount) (maxNumResults maxHops : Z)
    (currentPairs : list Pair) (originalAmountOut : TokenAmount)
    (sameAmount : bool) (bestTrades : list Trade) {struct fuel} : outcome :=
  match
    (let* _ := invariant (Z.of_nat (List.length pairs) >? 0) "PAIRS" in
     let* _ := invariant (maxHops >? 0) "MAX_HOPS" in
     invariant (sameAmount || (Z.of_nat (List.length currentPairs) >? 0))
               "INVALID_RECURSION")
  with
  | Err e => Some (Err e)
  | Ok _ =>
      match fuel with
      | O => None
      | S fuel' =>
          loopExactOut
            (fun pairs' amountIn currentPairs' bestTrades' =>
               bestTradeExactOut_rec fuel' pairs' tokenIn amountIn
                 maxNumResults (maxHops - 1) currentPairs' originalAmountOut
                 false bestTrades')
            tokenIn amountOut maxNumResults maxHops currentPairs
            originalAmountOut [] pairs bestTrades
      end
  end.

(** [Trade.bestTradeExactOut(pairs, tokenIn, amountOut, options)] *)
Definition bestTradeExactOut (pairs : list Pair) (tokenIn : Token)
    (amountOut : TokenAmount) (options : BestTradeOptions) : outcome :=
  bestTradeExactOut_rec (List.length pairs) pairs tokenIn amountOut
    (maxNumResults options) (maxHops options) [] amountOut true [].

End Trades.

(* ------------------------------------------------------------------ *)
(** ** The search, once for both directions *)

(** [bestTradeExactIn] and [bestTradeExactOut] are the same search up to
    the swap they attempt, the failure they catch, the side on which the
    chosen pair joins the current pairs, and the trade they build. *)
Section Search.
(** [getOutputAmount] or [getInputAmount], on the pair and the running
    amount. *)
Variable swap : Pair -> TokenAmount -> result (TokenAmount * Pair).
(** The flag the [catch] block tests. *)
Variable caught : error -> bool.
(** [[...currentPairs, pair]] or [[pair, ...currentPairs]]. *)
Variable extend : list Pair -> Pair -> list Pair.
(** The trade over a sequence of pairs. *)
Variable build : list Pair -> result Trade.
(** [tokenOut] or [tokenIn]. *)
Variable target : Token.
Variable maxNumResults : Z.

Section Loop.
Variable rec : recursion.
Variable amount : TokenAmount.
Variable maxHops : Z.
Variable currentPairs : list Pair.

Fixpoint loopSearch (before rest : list Pair) (bestTrades : list Trade)
  {struct rest} : outcome :=
  match rest with
  | [] => Some (Ok bestTrades)
  | p :: after =>
      let continue := loopSearch (before ++ [p]) after in
      if negb (Token_equals (token0 p) (token amount))
         && negb (Token_equals (token1 p) (token amount))
      then continue bestTrades
      else if reserve_is_zero (reserve0 p) || reserve_is_zero (reserve1 p)
      then continue bestTrades
      else
        match swap p amount with
        | Err e => if caught e then continue bestTrades else Some (Err e)
        | Ok (amount', _) =>
            if Token_equals (token amount') target then
              match
                (let* t := build (extend currentPairs p) in
                 sortedInsert tradeComparator bestTrades t maxNumResults)
              with
              | Err e => Some (Err e)
              | Ok bestTrades' => continue bestTrades'
              end
            else if (maxHops >? 1)
                    && (Z.of_nat (List.length (before ++ rest)) >? 1) then
              match rec (before ++ after) amount' (extend currentPairs p)
                        bestTrades with
              | None => None
              | Some (Err e) => Some (Err e)
              | Some (Ok bestTrades') => continue bestTrades'
              end
            else continue bestTrades
        end
  end.
End Loop.

Fixpoint search_rec (fuel : nat) (pairs : list Pair) (amount : TokenAmount)
    (maxHops : Z) (currentPairs : list Pair) (sameAmount : bool)
    (bestTrades : list Trade) {struct fuel} : outcome :=
  match
    (let* _ := invariant (Z.of_nat (List.length pairs) >? 0) "PAIRS" in
     let* _ := invariant (maxHops >? 0) "MAX_HOPS" in
     invariant (sameAmount || (Z.of_nat (List.length currentPairs) >? 0))
               "INVALID_RECURSION")
  with
  | Err e => Some (Err e)
  | Ok _ =>
      match fuel with
      | O => None
      | S fuel' =>
          loopSearch
            (fun pairs' amount' currentPairs' bestTrades' =>
               search_rec fuel' pairs' amount' (maxHops - 1) currentPairs'
                          false bestTrades')
            amount maxHops currentPairs [] pairs bestTrades
      end
  end.
End Search.

Section Directions.
Variable WETH : ChainId -> Token.

(** The trade [bestTradeExactIn] builds over [ps]. *)
Definition buildExactIn (originalAmountIn : TokenAmount) (ps : list Pair)
  : result Trade :=
  let* r := newRoute ps (token originalAmountIn) in
  newTrade WETH r (OfToken originalAmountIn) EXACT_INPUT.

(** The trade [bestTradeExactOut] builds over [ps]. *)
Definition buildExactOut (tokenIn : Token) (originalAmountOut : TokenAmount)
    (ps : list Pair) : result Trade :=
  let* r := newRoute ps tokenIn in
  newTrade WETH r (OfToken originalAmountOut) EXACT_OUTPUT.

Definition searchExactIn (tokenOut : Token) (maxNumResults : Z)
    (originalAmountIn : TokenAmount) :=
  search_rec getOutputAmount isInsufficientInputAmountError
    (fun currentPairs p => currentPairs ++ [p])
    (buildExactIn originalAmountIn) tokenOut maxNumResults.

Definition searchExactOut (tokenIn : Token) (maxNumResults : Z)
    (originalAmountOut : TokenAmount) :=
  search_rec getInputAmount isInsufficientReservesError
    (fun currentPairs p => p :: currentPairs)
    (buildExactOut tokenIn originalAmountOut) tokenIn maxNumResults.
End Directions.

(* ------------------------------------------------------------------ *)
(** ** The search over a store of arrays *)

(** JavaScript arrays are objects passed by reference.  The store holds the
    arrays of pairs ([pairs], [currentPairs], [pairsExcludingThisPair]) and
    the arrays of trades ([bestTrades]); a reference is an index into
    it. *)
Module Store.

Definition ref : Type := nat.

Record t : Type := mk {
  pairArrays : list (list Pair);
  tradeArrays : list (list Trade)
}.

Definition readPairs (h : t) (r : ref) : option (list Pair) :=
  nth_error (pairArrays h) r.

Definition readTrades (h : t) (r : ref) : option (list Trade) :=
  nth_error (tradeArrays h) r.

(** A new array of pairs: [slice], [concat], a spread or a literal. *)
Definition allocPairs (h : t) (l : list Pair) : ref * t :=
  (List.length (pairArrays h), mk (pairArrays h ++ [l]) (tradeArrays h)).

Definition allocTrades (h : t) (l : list Trade) : ref * t :=
  (List.length (tradeArrays h), mk (pairArrays h) (tradeArrays h ++ [l])).

Fixpoint set_nth (A : Type) (n : nat) (v : A) (l : list A) : list A :=
  match l, n with
  | [], _ => []
  | _ :: tl, O => v :: tl
  | x :: tl, S n' => x :: set_nth n' v tl
  end.

(** The array of trades at [r] mutated in place. *)
Definition writeTrades (h : t) (r : ref) (l : list Trade) : t :=
  mk (pairArrays h) (set_nth r l (tradeArrays h)).

(** What a run leaves: the store and the value returned or the exception
    raised; [None] when the fuel ran out or a reference points to
    nothing. *)
Definition outcome : Type := option (t * result ref).

Definition recursion : Type :=
  ref -> TokenAmount -> ref -> ref -> t -> outcome.

Section Search.
Variable swap : Pair -> TokenAmount -> result (TokenAmount * Pair).
Variable caught : error -> bool.
Variable extend : list Pair -> Pair -> list Pair.
Variable build : list Pair -> result Trade.
Variable target : Token.
Variable maxNumResults : Z.

Section Loop.
Variable rec : recursion.
Variable amount : TokenAmount.
Variable maxHops : Z.
Variables pairs currentPairs bestTrades : ref.

(** The [for] loop from index [i], every [pairs.length] and
    [pairs[i]] read from the store; [k] bounds the iterations. *)
Fixpoint loop (k : nat) (i : nat) (h : t) {struct k} : outcome :=
  match readPairs h pairs with
  | None => None
  | Some ps =>
      if (i <? List.length ps)%nat then
        match k, nth_error ps i with
        | S k', Some p =>
            let continue := loop k' (S i) in
            if negb (Token_equals (token0 p) (token amount))
               && negb (Token_equals (token1 p) (token amount))
            then continue h
            else if reserve_is_zero (reserve0 p) || reserve_is_zero (reserve1 p)
            then continue h
            else
              match swap p amount with
              | Err e => if caught e then continue h else Some (h, Err e)
              | Ok (amount', _) =>
                  if Token_equals (token amount') target then
                    match readPairs h currentPairs with
                    | None => None
                    | Some cur =>
                        let (_, h1) := allocPairs h (extend cur p) in
                        match build (extend cur p), readTrades h1 bestTrades with
                        | Err e, _ => Some (h1, Err e)
                        | Ok _, None => None
                        | Ok t, Some bt =>
                            match sortedInsert tradeComparator bt t maxNumResults with
                            | Err e => Some (h1, Err e)
                            | Ok bt' => continue (writeTrades h1 bestTrades bt')
                            end
                        end
                    end
                  else if (maxHops >? 1) && (Z.of_nat (List.length ps) >? 1) then
                    let (pairsExcludingThisPair, h1) :=
                      allocPairs h (firstn i ps ++ skipn (S i) ps) in
                    match readPairs h1 currentPairs with
                    | None => None
                    | Some cur =>
                        let (currentPairs', h2) := allocPairs h1 (extend cur p) in
                        match rec pairsExcludingThisPair amount' currentPairs'
                                  bestTrades h2 with
                        | None => None
                        | Some (h3, Err e) => Some (h3, Err e)
                        | Some (h3, Ok _) => continue h3
                        end
                    end
                  else continue h
              end
        | _, _ => None
        end
      else Some (h, Ok bestTrades)
  end.
End Loop.

Fixpoint search (fuel : nat) (pairs : ref) (amount : TokenAmount)
    (maxHops : Z) (currentPairs : ref) (sameAmount : bool) (bestTrades : ref)
    (h : t) {struct fuel} : outcome :=
  match readPairs h pairs, readPairs h currentPairs with
  | Some ps, Some cur =>
      match
        (let* _ := invariant (Z.of_nat (List.length ps) >? 0) "PAIRS" in
         let* _ := invariant (maxHops >? 0) "MAX_HOPS" in
         invariant (sameAmount || (Z.of_nat (List.length cur) >? 0))
                   "INVALID_RECURSION")
      with
      | Err e => Some (h, Err e)
      | Ok _ =>
          match fuel with
          | O => None
          | S fuel' =>
              loop
                (fun pairs' amount' currentPairs' bestTrades' =>
                   search fuel' pairs' amount' (maxHops - 1) currentPairs'
                          false bestTrades')
                amount maxHops pairs currentPairs bestTrades
                (List.length ps) 0 h
          end
      end
  | _, _ => None
  end.

(** A call with the recursion parameters at their defaults: two fresh
    empty arrays for [currentPairs] and [bestTrades]. *)
Definition run (pairs : ref) (amount : TokenAmount) (maxHops : Z) (h : t)
  : outcome :=
  let (currentPairs, h1) := allocPairs h [] in
  let (bestTrades, h2) := allocTrades h1 [] in
  match readPairs h pairs with
  | None => None
  | Some ps => search (List.length ps) pairs amount maxHops currentPairs true
                      bestTrades h2
  end.
End Search.

Section Directions.
Variable WETH : ChainId -> Token.

(** [Trade.bestTradeExactIn(pairs, amountIn, tokenOut, options)] on the
    store. *)
Definition bestTradeExactIn (pairs : ref) (amountIn : TokenAmount)
    (tokenOut : Token) (options : BestTradeOptions) : t -> outcome :=
  run getOutputAmount isInsufficientInputAmountError
      (fun currentPairs p => currentPairs ++ [p])
      (buildExactIn WETH amountIn) tokenOut (maxNumResults options)
      pairs amountIn (maxHops options).

(** [Trade.bestTradeExactOut(pairs, tokenIn, amountOut, options)] on
    the store. *)
Definition bestTradeExactOut (pairs : ref) (tokenIn : Token)
    (amountOut : TokenAmount) (options : BestTradeOptions) : t -> outcome :=
  run getInputAmount isInsufficientReservesError
      (fun currentPairs p => p :: currentPairs)
      (buildExactOut WETH tokenIn amountOut) tokenIn (maxNumResults options)
      pairs amountOut (maxHops options).
End Directions.

End Store.

(* ------------------------------------------------------------------ *)
(** ** Sample data *)

(** Three tokens on chain 1, the wrapped native token, and three pairs:
    A/B and B/C with reserves 1000/1000, A/C with reserves 1000/1100. *)
Module Sample.
Definition tA : Token := mkToken 1 "A" 18.
Definition tB : Token := mkToken 1 "B" 18.
Definition tC : Token := mkToken 1 "C" 18.
Definition tW : Token := mkToken 1 "W" 18.
Definition weth (_ : ChainId) : Token := tW.

Definition pAB : Pair := mkPair (mkTokenAmount tA 1000) (mkTokenAmount tB 1000).
Definition pBC : Pair := mkPair (mkTokenAmount tB 1000) (mkTokenAmount tC 1000).
Definition pAC : Pair := mkPair (mkTokenAmount tA 1000) (mkTokenAmount tC 1100).
Definition all : list Pair := [pAB; pBC; pAC].

Definition hundredA : TokenAmount := mkTokenAmount tA 100.
Definition fiftyC : TokenAmount := mkTokenAmount tC 50.

(** What is read off a trade in the examples: number of pairs, raw input
    and raw output. *)
Definition summary (t : Trade) : nat * Z * Z :=
  (List.length (pairs (route t)), raw (inputAmount t), raw (outputAmount t)).

Definition summaries (o : outcome) : option (result (list (nat * Z * Z))) :=
  match o with
  | Some (Ok l) => Some (Ok (map summary l))
  | Some (Err e) => Some (Err e)
  | None => None
  end.

Definition emptyRoute : Route :=
  mkRoute [] [] tA tA (mkPrice (Tok tA) (Tok tA) (Fraction.of_int 1)).

Definition emptyTrade : Trade :=
  mkTrade emptyRoute EXACT_INPUT (OfToken hundredA) (OfToken hundredA)
          (mkPrice (Tok tA) (Tok tA) (Fraction.of_int 1))
          (mkPrice (Tok tA) (Tok tA) (Fraction.of_int 1))
          (Fraction.of_int 0).

(** The route A -> B -> C and the trade of 100 A along it. *)
Definition routeABC : Route :=
  Eval vm_compute in
    match newRoute [pAB; pBC] tA with Ok r => r | Err _ => emptyRoute end.

Definition tradeABC : Trade :=
  Eval vm_compute in
    match newTrade weth routeABC (OfToken hundredA) EXACT_INPUT with
    | Ok t => t
    | Err _ => emptyTrade
    end.

(** The direct route A -> C, the trade of 100 A along it and the trade
    for exactly 50 C. *)
Definition routeAC : Route :=
  Eval vm_compute in
    match newRoute [pAC] tA with Ok r => r | Err _ => emptyRoute end.

Definition tradeAC : Trade :=
  Eval vm_compute in
    match newTrade weth routeAC (OfToken hundredA) EXACT_INPUT with
    | Ok t => t
    | Err _ => emptyTrade
    end.

Definition tradeACout : Trade :=
  Eval vm_compute in
    match newTrade weth routeAC (OfToken fiftyC) EXACT_OUTPUT with
    | Ok t => t
    | Err _ => emptyTrade
    end.

Definition onePercent : Percent := Fraction.mk 1 100.
Definition fivePercent : Percent := Fraction.mk 5 100.

(** A store whose only array holds the three pairs. *)
Definition store : Store.t := Store.mk [all] [].
End Sample.

(* ------------------------------------------------------------------ *)
(** ** Notions of the specification *)

(** The exact value of an amount: its raw magnitude over ten to the power
    of the decimals of its asset. *)
Definition amount_value (a : CurrencyAmount) : Q :=
  raw a # Z.to_pos (TEN ^ Z.of_N (currency_decimals (currency a))).

(** Truncation of a rational toward zero. *)
Definition truncate (q : Q) : Z := Z.quot (Qnum q) (QDen q).

(** Order and equality of fractions by cross-multiplication (section
    4.1). *)
Definition frac_lt (a b : Fraction.t) : Prop :=
  Fraction.numerator a * Fraction.denominator b
  < Fraction.numerator b * Fraction.denominator a.

Definition frac_eq (a b : Fraction.t) : Prop :=
  Fraction.numerator a * Fraction.denominator b
  = Fraction.numerator b * Fraction.denominator a.

(** Number of hops of a trade, as the comparator counts them: the length
    of the path of its route. *)
Definition hops (t : Trade) : Z := Z.of_nat (List.length (path (route t))).

(** A pair the loop of the search does not skip: it holds the token of the
    running amount and neither reserve is zero. *)
Definition candidate (p : Pair) (amount : TokenAmount) : bool :=
  negb (negb (Token_equals (token0 p) (token amount))
        && negb (Token_equals (token1 p) (token amount)))
  && negb (reserve_is_zero (reserve0 p) || reserve_is_zero (reserve1 p)).

(** The asset of an amount matches a route endpoint: it is a token equal to
    the endpoint, or it is the native asset and the endpoint is the wrapped
    token of the endpoint's chain. *)
Definition matches_endpoint (WETH : ChainId -> Token) (c : Currency) (endpoint : Token)
  : Prop :=
  match c with
  | Tok t => Token_equals t endpoint = true
  | ETHER => Token_equals endpoint (WETH (chainId endpoint)) = true
  end.

(** The endpoint a trade type fixes: the input of the route for
    [EXACT_INPUT], its output for [EXACT_OUTPUT]. *)
Definition endpoint (r : Route) (tt : TradeType) : Token :=
  match tt with
  | EXACT_INPUT => input r
  | EXACT_OUTPUT => output r
  end.

(** The message of the invariant that guards the endpoint. *)
Definition endpoint_message (tt : TradeType) : string :=
  match tt with
  | EXACT_INPUT => "INPUT"
  | EXACT_OUTPUT => "OUTPUT"
  end.

(** Failures other than the endpoint invariants. *)
Definition foreign (e : error) : Prop :=
  e <> InvariantError "INPUT" /\ e <> InvariantError "OUTPUT".

(** What the search promises of the route of a trade: its pairs are taken
    from the candidates [ps], each place of [ps] at most once, the rest of
    [ps] being [unused]; and there are at most [budget] of them. *)
Definition simple_route (ps : list Pair) (budget : Z) (t : Trade) : Prop :=
  (exists unused, Permutation (pairs (route t) ++ unused) ps)
  /\ Z.of_nat (List.length (pairs (route t))) <= budget.

(** What is claimed of the outcome of a search: [Inv] of the list it
    returns, [Exc] of the exception it raises, [N] when the fuel ran out. *)
Definition search_post (Inv : list Trade -> Prop) (Exc : error -> Prop)
    (N : Prop) (o : outcome) : Prop :=
  match o with
  | Some (Ok bt) => Inv bt
  | Some (Err e) => Exc e
  | None => N
  end.

(** The state of one call of the search that keeps routes simple: the
    current pairs and the candidate pairs together are the candidates [all]
    of the outermost call, in some order, and the current pairs with the
    remaining hop budget [mh] fit the outermost [budget]. *)
Definition level (all : list Pair) (budget : Z)
    (ps : list Pair) (_ : TokenAmount) (mh : Z) (cur : list Pair) : Prop :=
  Permutation (cur ++ ps) all
  /\ Z.of_nat (List.length cur) + mh <= budget.

(** The state of one call of [bestTradeExactIn] that makes its trades
    constructible: swapping [originalAmountIn] through the current pairs
    succeeds and ends in the running amount. *)
Definition levelExactIn (originalAmountIn : TokenAmount)
    (_ : list Pair) (amountIn : TokenAmount) (_ : Z) (currentPairs : list Pair)
  : Prop :=
  exists amounts nextPairs,
    amounts_forward currentPairs originalAmountIn = Ok (amounts, nextPairs)
    /\ last amounts originalAmountIn = amountIn.

(** The same for [bestTradeExactOut], backward from [originalAmountOut]. *)
Definition levelExactOut (originalAmountOut : TokenAmount)
    (_ : list Pair) (amountOut : TokenAmount) (_ : Z) (currentPairs : list Pair)
  : Prop :=
  exists amounts nextPairs,
    amounts_backward currentPairs originalAmountOut = Ok (amounts, nextPairs)
    /\ hd originalAmountOut amounts = amountOut.

(** A failure of [invariant]. *)
Definition is_invariant (e : error) : Prop := exists msg, e = InvariantError msg.

(** A store grown from another: the arrays of pairs of the first are
    where they were and as they were, and no array of trades was added or
    dropped. *)
Definition extends (h h' : Store.t) : Prop :=
  (exists more, Store.pairArrays h' = Store.pairArrays h ++ more)
  /\ List.length (Store.tradeArrays h') = List.length (Store.tradeArrays h).

(** The value a search on the store returns for a result of the search on
    lists: the reference [bestTrades] for a list, the same exception. *)
Definition result_ref (bestTrades : Store.ref) (r : result (list Trade))
  : result Store.ref :=
  match r with
  | Ok _ => Ok bestTrades
  | Err e => Err e
  end.

(** A run on the store agrees with an outcome on lists: it ends, in a
    store grown from [h], with the matching value, and [bestTrades] holds
    the list returned. *)
Definition agrees (h : Store.t) (bestTrades : Store.ref)
    (pure : outcome) (run : Store.outcome) : Prop :=
  match pure with
  | None => True
  | Some r =>
      exists h', run = Some (h', result_ref bestTrades r)
        /\ extends h h'
        /\ forall bt', r = Ok bt' -> Store.readTrades h' bestTrades = Some bt'
  end.

(** Both reserves of a pair are non-zero, respectively non-negative, and
    both parts of a fraction are non-zero. *)
Definition reserves_nonzero (p : Pair) : Prop :=
  ta_raw (reserve0 p) <> 0 /\ ta_raw (reserve1 p) <> 0.

Definition reserves_nonneg (p : Pair) : Prop :=
  0 <= ta_raw (reserve0 p) /\ 0 <= ta_raw (reserve1 p).

Definition fraction_nonzero (a : Fraction.t) : Prop :=
  Fraction.numerator a <> 0 /\ Fraction.denominator a <> 0.

(** A list is ranked best-first when the comparator puts no entry strictly
    after its successor. *)
Inductive ranked (cmp : Trade -> Trade -> result Z) : list Trade -> Prop :=
| ranked_nil : ranked cmp []
| ranked_one : forall t, ranked cmp [t]
| ranked_cons : forall a b l c,
    cmp a b = Ok c -> c <= 0 -> ranked cmp (b :: l) -> ranked cmp (a :: b :: l).

(* ------------------------------------------------------------------ *)
(** ** Further notions *)

(** The exact value of the price impact of a trade. *)
Definition impact_value (t : Trade) : Q := Fraction.toQ (priceImpact t).

(** [a] ranks no later than [b]: more output; or as much output and less
    input; or the same amounts and less price impact; or all of these
    equal and no more hops. *)
Definition ranks_before (a b : Trade) : Prop :=
  (amount_value (outputAmount b) < amount_value (outputAmount a))%Q
  \/ ((amount_value (outputAmount a) == amount_value (outputAmount b))%Q
      /\ ((amount_value (inputAmount a) < amount_value (inputAmount b))%Q
          \/ ((amount_value (inputAmount a) == amount_value (inputAmount b))%Q
              /\ ((impact_value a < impact_value b)%Q
                  \/ ((impact_value a == impact_value b)%Q
                      /\ hops a <= hops b))))).

(** Both parts of a fraction are positive. *)
Definition fraction_positive (a : Fraction.t) : Prop :=
  0 < Fraction.numerator a /\ 0 < Fraction.denominator a.

(** Two pairs of the same two tokens, in the same order. *)
Definition same_tokens (p q : Pair) : Prop :=
  token0 q = token0 p /\ token1 q = token1 p.

(** What [bestTradeExactIn] holds of a trade it returns: it spends exactly
    the amount asked and yields an amount of the token asked. *)
Definition found_exact_in (originalAmountIn : TokenAmount) (tokenOut : Token)
    (t : Trade) : Prop :=
  tradeType t = EXACT_INPUT
  /\ inputAmount t = OfToken originalAmountIn
  /\ exists oa, outputAmount t = OfToken oa
                /\ Token_equals (token oa) tokenOut = true.

(** The same of [bestTradeExactOut]. *)
Definition found_exact_out (tokenIn : Token) (originalAmountOut : TokenAmount)
    (t : Trade) : Prop :=
  tradeType t = EXACT_OUTPUT
  /\ outputAmount t = OfToken originalAmountOut
  /\ exists ia, inputAmount t = OfToken ia
                /\ Token_equals (token ia) tokenIn = true.

(** The order of two trades of a result list: the first yields at least
    as much, respectively spends at most as much, as the second. *)
Definition output_descending (a b : Trade) : Prop :=
  (amount_value (outputAmount b) <= amount_value (outputAmount a))%Q.

Definition input_ascending (a b : Trade) : Prop :=
  (amount_value (inputAmount a) <= amount_value (inputAmount b))%Q.

(** The walk of the constructor for a trade type. *)
Definition walk (tt : TradeType) (ps : list Pair) (a : TokenAmount)
  : result (list TokenAmount * list Pair) :=
  match tt with
  | EXACT_INPUT => amounts_forward ps a
  | EXACT_OUTPUT => amounts_backward ps a
  end.

(** One trade is at least as good as another in the amounts: it yields
    more, or it yields as much and spends no more. *)
Definition io_before (a b : Trade) : Prop :=
  (amount_value (outputAmount b) < amount_value (outputAmount a))%Q
  \/ ((amount_value (outputAmount a) == amount_value (outputAmount b))%Q
      /\ (amount_value (inputAmount a) <= amount_value (inputAmount b))%Q).

(** The first trade of a list is at least as good as [t]. *)
Definition head_before (t : Trade) (l : list Trade) : Prop :=
  exists h tl, l = h :: tl /\ io_before h t.

(** ** Further sample data *)

(** The direct swaps of the pair A/C, a tolerance of zero, an output at
    the mid price, and a store with the three pairs, an empty array of
    current pairs and an empty array of trades. *)
Module MoreSample.
Import Sample.

Definition directAC : TokenAmount * Pair :=
  Eval vm_compute in
    match getOutputAmount pAC hundredA with Ok r => r | Err _ => (hundredA, pAC) end.

Definition directCA : TokenAmount * Pair :=
  Eval vm_compute in
    match getInputAmount pAC fiftyC with Ok r => r | Err _ => (fiftyC, pAC) end.

Definition zeroPercent : Percent := Fraction.mk 0 100.

Definition ninetyNineC : TokenAmount := mkTokenAmount tC 99.

Definition arrays : Store.t := Store.mk [all; []] [[]].

(** The trade of 100 A over the pair A/B, the trade of 100 B over the pair
    B/C, and the trade for exactly 99 C over the pair A/C, which spends
    100 A as the trade of 100 A over that pair yields 99 C. *)
Definition routeAB : Route :=
  Eval vm_compute in
    match newRoute [pAB] tA with Ok r => r | Err _ => emptyRoute end.

Definition tradeAB : Trade :=
  Eval vm_compute in
    match newTrade weth routeAB (OfToken hundredA) EXACT_INPUT with
    | Ok t => t
    | Err _ => emptyTrade
    end.

Definition routeBC : Route :=
  Eval vm_compute in
    match newRoute [pBC] tB with Ok r => r | Err _ => emptyRoute end.

Definition tradeBC : Trade :=
  Eval vm_compute in
    match newTrade weth routeBC (OfToken (mkTokenAmount tB 100)) EXACT_INPUT with
    | Ok t => t
    | Err _ => emptyTrade
    end.

Definition tradeACexact : Trade :=
  Eval vm_compute in
    match newTrade weth routeAC (OfToken ninetyNineC) EXACT_OUTPUT with
    | Ok t => t
    | Err _ => emptyTrade
    end.
End MoreSample.

(** The [m] best entries of a list ranked best-first: its first [m]
    entries, none for a negative [m]. *)
Definition best_first (m : Z) (l : list Trade) : list Trade :=
  firstn (Z.to_nat m) l.

(* ================================================================== *)
(** * Properties *)

(* ------------------------------------------------------------------ *)
(** ** Fractions and amounts *)

Lemma pow_TEN_pos (n : N) : 0 < TEN ^ Z.of_N n.
Proof. apply Z.pow_pos_nonneg; unfold TEN; lia. Qed.

Lemma amount_lessThan_value (a b : CurrencyAmount) :
  amount_lessThan a b = true <-> (amount_value a < amount_value b)%Q.
Proof.
  unfold amount_lessThan, Fraction.lessThan, amount_value, Qlt; simpl.
  rewrite !Z2Pos.id by apply pow_TEN_pos.
  apply Z.ltb_lt.
Qed.

Lemma amount_equalTo_value (a b : CurrencyAmount) :
  amount_equalTo a b = true <-> (amount_value a == amount_value b)%Q.
Proof.
  unfold amount_equalTo, Fraction.equalTo, amount_value, Qeq; simpl.
  rewrite !Z2Pos.id by apply pow_TEN_pos.
  apply Z.eqb_eq.
Qed.

Lemma lessThan_frac_lt (a b : Fraction.t) :
  Fraction.lessThan a b = true <-> frac_lt a b.
Proof. apply Z.ltb_lt. Qed.

Lemma greaterThan_frac_lt (a b : Fraction.t) :
  Fraction.greaterThan a b = true <-> frac_lt b a.
Proof.
  unfold Fraction.greaterThan, frac_lt. rewrite Z.gtb_ltb. apply Z.ltb_lt.
Qed.

(** With positive denominators the cross-multiplied order is the order of
    the rationals. *)
Lemma frac_lt_toQ (a b : Fraction.t) :
  0 < Fraction.denominator a -> 0 < Fraction.denominator b ->
  (frac_lt a b <-> (Fraction.toQ a < Fraction.toQ b)%Q).
Proof.
  destruct a as [na da], b as [nb db]; unfold frac_lt, Fraction.toQ; simpl.
  intros Ha Hb.
  destruct da as [|pa|pa]; try lia. destruct db as [|pb|pb]; try lia.
  unfold Qlt, Qdiv, Qmult, Qinv, inject_Z; simpl.
  rewrite !Z.mul_1_r. reflexivity.
Qed.

Lemma toQ_pos_den (n : Z) (d : positive) :
  (Fraction.toQ (Fraction.mk n (Zpos d)) == n # d)%Q.
Proof.
  unfold Fraction.toQ, Qdiv, Qmult, Qinv, inject_Z, Qeq; simpl. lia.
Qed.

(* ------------------------------------------------------------------ *)
(** ** The ranking comparators *)

Lemma inputOutputComparator_ok (aIn aOut bIn bOut : CurrencyAmount) :
  currencyEquals (currency aIn) (currency bIn) = true ->
  currencyEquals (currency aOut) (currency bOut) = true ->
  exists c, inputOutputComparator aIn aOut bIn bOut = Ok c /\
    (c = 0 <-> amount_equalTo aOut bOut = true /\ amount_equalTo aIn bIn = true) /\
    (c < 0 <-> amount_lessThan bOut aOut = true
               \/ (amount_equalTo aOut bOut = true /\ amount_lessThan aIn bIn = true)) /\
    (0 < c <-> amount_lessThan aOut bOut = true
               \/ (amount_equalTo aOut bOut = true /\ amount_lessThan bIn aIn = true)).
Proof.
  intros Hi Ho. unfold inputOutputComparator. rewrite Hi, Ho. simpl.
  unfold amount_equalTo, amount_lessThan, Fraction.equalTo, Fraction.lessThan.
  set (x := Fraction.numerator (amount_fraction aOut) * Fraction.denominator (amount_fraction bOut)).
  set (y := Fraction.numerator (amount_fraction bOut) * Fraction.denominator (amount_fraction aOut)).
  set (u := Fraction.numerator (amount_fraction aIn) * Fraction.denominator (amount_fraction bIn)).
  set (v := Fraction.numerator (amount_fraction bIn) * Fraction.denominator (amount_fraction aIn)).
  destruct (Z.eqb_spec x y) as [Exy|Nxy].
  - destruct (Z.eqb_spec u v) as [Euv|Nuv].
    + exists 0. split; [reflexivity|]. rewrite !Z.ltb_lt. repeat split; intros; try lia.
    + destruct (Z.ltb_spec u v).
      * exists (-1). split; [reflexivity|]. rewrite !Z.ltb_lt. repeat split; intros; try lia.
      * exists 1. split; [reflexivity|]. rewrite !Z.ltb_lt. repeat split; intros; try lia.
  - destruct (Z.ltb_spec x y).
    + exists 1. split; [reflexivity|]. rewrite !Z.ltb_lt.
      repeat split; intros; try lia.
    + exists (-1). split; [reflexivity|]. rewrite !Z.ltb_lt.
      repeat split; intros; try lia.
Qed.

Lemma inputOutputComparator_mismatch (aIn aOut bIn bOut : CurrencyAmount) :
  currencyEquals (currency aIn) (currency bIn) = false
  \/ currencyEquals (currency aOut) (currency bOut) = false ->
  exists msg, inputOutputComparator aIn aOut bIn bOut = Err (InvariantError msg).
Proof.
  unfold inputOutputComparator.
  destruct (currencyEquals (currency aIn) (currency bIn)); simpl.
  - intros [H|H]; [discriminate|]. rewrite H. simpl. eauto.
  - intros _. eauto.
Qed.

(** C3. For two trades with the same input asset and the same output
    asset, [tradeComparator] returns a number that is negative when [a]
    ranks first and positive when [b] does: the higher output amount
    first; on equal outputs the lower input amount; on equal amounts the
    lower price impact; on equal price impact the difference of the path
    lengths, so the fewer hops.  When the input assets or the output assets
    differ, both comparators fail on an invariant. *)
Theorem tradeComparator_ranking (a b : Trade) :
  (currencyEquals (currency (inputAmount a)) (currency (inputAmount b)) = true ->
   currencyEquals (currency (outputAmount a)) (currency (outputAmount b)) = true ->
   exists c, tradeComparator a b = Ok c /\
     let out_a := amount_value (outputAmount a) in
     let out_b := amount_value (outputAmount b) in
     let in_a := amount_value (inputAmount a) in
     let in_b := amount_value (inputAmount b) in
     ((out_b < out_a)%Q -> c < 0) /\
     ((out_a < out_b)%Q -> 0 < c) /\
     ((out_a == out_b)%Q -> (in_a < in_b)%Q -> c < 0) /\
     ((out_a == out_b)%Q -> (in_b < in_a)%Q -> 0 < c) /\
     ((out_a == out_b)%Q -> (in_a == in_b)%Q ->
        (frac_lt (priceImpact a) (priceImpact b) -> c < 0) /\
        (frac_lt (priceImpact b) (priceImpact a) -> 0 < c) /\
        (frac_eq (priceImpact a) (priceImpact b) -> c = hops a - hops b)))
  /\
  (currencyEquals (currency (inputAmount a)) (currency (inputAmount b)) = false
   \/ currencyEquals (currency (outputAmount a)) (currency (outputAmount b)) = false ->
   exists msg,
     tradeComparator a b = Err (InvariantError msg) /\
     inputOutputComparator (inputAmount a) (outputAmount a)
                           (inputAmount b) (outputAmount b)
     = Err (InvariantError msg)).
Proof.
  split.
  - intros Hi Ho.
    destruct (inputOutputComparator_ok _ _ _ _ Hi Ho) as (c & Hc & H0 & Hneg & Hpos).
    unfold tradeComparator. rewrite Hc. simpl.
    rewrite !amount_lessThan_value, !amount_equalTo_value in *.
    destruct (Z.eqb_spec c 0) as [E|N]; simpl.
    + assert (Heq : (amount_value (outputAmount a) == amount_value (outputAmount b))%Q
                    /\ (amount_value (inputAmount a) == amount_value (inputAmount b))%Q)
        by (apply H0; exact E).
      destruct Heq as [Eo Ei].
      assert (Hirr : forall x y : Q, (x == y)%Q -> (x < y)%Q -> False)
        by (intros x y Hxy Hlt; rewrite Hxy in Hlt; exact (Qlt_irrefl _ Hlt)).
      destruct (Fraction.lessThan (priceImpact a) (priceImpact b)) eqn:Hlt;
        [|destruct (Fraction.greaterThan (priceImpact a) (priceImpact b)) eqn:Hgt];
        eexists; (split; [reflexivity|]); cbv zeta;
        try apply lessThan_frac_lt in Hlt; try apply greaterThan_frac_lt in Hgt;
        repeat split; intros;
        try (exfalso; eauto using Qeq_sym; fail);
        unfold frac_lt, frac_eq, hops in *; try lia.
      * exfalso. apply Bool.not_true_iff_false in Hlt.
        apply Hlt, lessThan_frac_lt. assumption.
      * exfalso. apply Bool.not_true_iff_false in Hgt.
        apply Hgt, greaterThan_frac_lt. assumption.
    + exists c. split; [reflexivity|]. cbv zeta.
      assert (Hirr : forall x y : Q, (x == y)%Q -> (x < y)%Q -> False)
        by (intros x y Hxy Hlt; rewrite Hxy in Hlt; exact (Qlt_irrefl _ Hlt)).
      repeat split; intros.
      * apply Hneg. left. assumption.
      * apply Hpos. left. assumption.
      * apply Hneg. right. split; assumption.
      * apply Hpos. right. split; assumption.
      * exfalso. apply N, H0. split; assumption.
      * exfalso. apply N, H0. split; assumption.
      * exfalso. apply N, H0. split; assumption.
  - intros H. destruct (inputOutputComparator_mismatch _ _ _ _ H) as [msg Hm].
    exists msg. split; [|exact Hm]. unfold tradeComparator. rewrite Hm. reflexivity.
Qed.

(* ------------------------------------------------------------------ *)
(** ** Slippage bounds *)

(** Truncation depends on the rational only, not on how it is written. *)
Lemma truncate_Qeq (p q : Q) : (p == q)%Q -> truncate p = truncate q.
Proof.
  destruct p as [a b], q as [c d]. unfold Qeq, truncate; cbn [Qnum Qden].
  intros H.
  rewrite <- (Z.quot_mul_cancel_r a (Zpos b) (Zpos d)) by lia.
  rewrite <- (Z.quot_mul_cancel_r c (Zpos d) (Zpos b)) by lia.
  rewrite H. f_equal. lia.
Qed.

Lemma truncate_make (n : Z) (d : positive) : truncate (n # d) = Z.quot n (Zpos d).
Proof. reflexivity. Qed.

Lemma tolerance_negative (tol : Percent) :
  0 < Fraction.denominator tol ->
  (Fraction.lessThan tol (Fraction.of_int ZERO) = true
   <-> (Fraction.toQ tol < 0)%Q).
Proof.
  destruct tol as [n d]; cbn [Fraction.denominator]. intros Hd.
  destruct d as [|d|d]; try lia.
  rewrite toQ_pos_den.
  unfold Fraction.lessThan, Fraction.of_int, Qlt, ZERO;
    cbn [Fraction.numerator Fraction.denominator Qnum Qden].
  rewrite Z.ltb_lt. lia.
Qed.

Lemma one_plus_tolerance (n : Z) (d : positive) :
  (1 + Fraction.toQ (Fraction.mk n (Zpos d)) == (Zpos d + n) # d)%Q.
Proof.
  rewrite toQ_pos_den. unfold Qplus, Qeq; cbn [Qnum Qden].
  rewrite Pos2Z.inj_mul. lia.
Qed.

(** The integer [maximumAmountIn] computes is the truncation of the exact
    product. *)
Lemma slippageAdjustedAmountIn_exact (r : Z) (tol : Percent) :
  0 < Fraction.denominator tol ->
  Fraction.quotient
    (Fraction.multiply (Fraction.add (Fraction.of_int ONE) tol) (Fraction.of_int r))
  = truncate (inject_Z r * (1 + Fraction.toQ tol)).
Proof.
  destruct tol as [n d]; cbn [Fraction.denominator]. intros Hd.
  destruct d as [|d|d]; try lia.
  assert (E : (inject_Z r * (1 + Fraction.toQ (Fraction.mk n (Zpos d)))
               == (r * (Zpos d + n)) # d)%Q).
  { rewrite one_plus_tolerance. unfold Qmult, Qeq, inject_Z; cbn [Qnum Qden].
    rewrite Pos2Z.inj_mul. lia. }
  rewrite (truncate_Qeq E), truncate_make.
  unfold Fraction.quotient, Fraction.multiply, Fraction.add, Fraction.of_int, ONE;
    cbn [Fraction.numerator Fraction.denominator].
  f_equal; lia.
Qed.

(** The integer [minimumAmountOut] computes is the truncation of the exact
    quotient. *)
Lemma slippageAdjustedAmountOut_exact (r : Z) (tol : Percent) :
  0 < Fraction.denominator tol -> 0 <= Fraction.numerator tol ->
  Fraction.quotient
    (Fraction.multiply
       (Fraction.invert (Fraction.add (Fraction.of_int ONE) tol))
       (Fraction.of_int r))
  = truncate (inject_Z r / (1 + Fraction.toQ tol)).
Proof.
  destruct tol as [n d]; cbn [Fraction.denominator Fraction.numerator]. intros Hd Hn.
  destruct d as [|d|d]; try lia.
  assert (E : (inject_Z r / (1 + Fraction.toQ (Fraction.mk n (Zpos d)))
               == (r * Zpos d) # Z.to_pos (Zpos d + n))%Q).
  { rewrite one_plus_tolerance. unfold Qdiv, Qinv; cbn [Qnum Qden].
    destruct (Zpos d + n) as [|s|s] eqn:Es; try lia.
    unfold Qmult, Qeq, inject_Z; cbn [Qnum Qden Z.to_pos].
    rewrite Pos2Z.inj_mul. lia. }
  rewrite (truncate_Qeq E), truncate_make.
  unfold Fraction.quotient, Fraction.multiply, Fraction.invert, Fraction.add,
    Fraction.of_int, ONE; cbn [Fraction.numerator Fraction.denominator].
  rewrite Z2Pos.id by lia.
  f_equal; lia.
Qed.

Lemma tolerance_nonneg (tol : Percent) :
  0 < Fraction.denominator tol ->
  ((0 <= Fraction.toQ tol)%Q <-> 0 <= Fraction.numerator tol).
Proof.
  destruct tol as [n d]; cbn [Fraction.denominator Fraction.numerator]. intros Hd.
  destruct d as [|d|d]; try lia.
  rewrite toQ_pos_den. unfold Qle; cbn [Qnum Qden]. lia.
Qed.

Lemma lessThan_ZERO (tol : Percent) :
  Fraction.lessThan tol (Fraction.of_int ZERO) = (Fraction.numerator tol <? 0).
Proof.
  unfold Fraction.lessThan, Fraction.of_int, ZERO;
    cbn [Fraction.numerator Fraction.denominator].
  rewrite Z.mul_1_r, Z.mul_0_l. reflexivity.
Qed.

(** C5. With a tolerance of positive denominator: [maximumAmountIn] fails
    on a negative tolerance; on an [EXACT_INPUT] trade it returns
    [inputAmount] itself; on an [EXACT_OUTPUT] trade it returns an amount
    of the same asset whose raw value is the truncation toward zero of the
    exact product [inputAmount * (1 + tolerance)]. *)
Theorem maximumAmountIn_spec (t : Trade) (tol : Percent) :
  0 < Fraction.denominator tol ->
  ((Fraction.toQ tol < 0)%Q ->
     maximumAmountIn t tol = Err (InvariantError "SLIPPAGE_TOLERANCE"))
  /\
  ((0 <= Fraction.toQ tol)%Q ->
     match tradeType t with
     | EXACT_INPUT => maximumAmountIn t tol = Ok (inputAmount t)
     | EXACT_OUTPUT =>
         exists a, maximumAmountIn t tol = Ok a
           /\ currency a = currency (inputAmount t)
           /\ raw a = truncate (inject_Z (raw (inputAmount t)) * (1 + Fraction.toQ tol))
     end).
Proof.
  intros Hd. split.
  - intros Hneg. apply tolerance_negative in Hneg; [|exact Hd].
    unfold maximumAmountIn. rewrite Hneg. reflexivity.
  - intros Hpos. apply tolerance_nonneg in Hpos; [|exact Hd].
    unfold maximumAmountIn. rewrite lessThan_ZERO.
    destruct (Z.ltb_spec (Fraction.numerator tol) 0) as [|_]; [lia|].
    cbn [negb invariant bind].
    destruct (tradeType t); [reflexivity|].
    eexists. split; [reflexivity|].
    rewrite slippageAdjustedAmountIn_exact by exact Hd.
    destruct (inputAmount t); split; reflexivity.
Qed.

(** C6. With a tolerance of positive denominator: [minimumAmountOut] fails
    on a negative tolerance; on an [EXACT_OUTPUT] trade it returns
    [outputAmount] itself; on an [EXACT_INPUT] trade it returns an amount
    of the same asset whose raw value is the truncation of the exact
    quotient [outputAmount / (1 + tolerance)]. *)
Theorem minimumAmountOut_spec (t : Trade) (tol : Percent) :
  0 < Fraction.denominator tol ->
  ((Fraction.toQ tol < 0)%Q ->
     minimumAmountOut t tol = Err (InvariantError "SLIPPAGE_TOLERANCE"))
  /\
  ((0 <= Fraction.toQ tol)%Q ->
     match tradeType t with
     | EXACT_OUTPUT => minimumAmountOut t tol = Ok (outputAmount t)
     | EXACT_INPUT =>
         exists a, minimumAmountOut t tol = Ok a
           /\ currency a = currency (outputAmount t)
           /\ raw a = truncate (inject_Z (raw (outputAmount t)) / (1 + Fraction.toQ tol))
     end).
Proof.
  intros Hd. split.
  - intros Hneg. apply tolerance_negative in Hneg; [|exact Hd].
    unfold minimumAmountOut. rewrite Hneg. reflexivity.
  - intros Hpos. apply tolerance_nonneg in Hpos; [|exact Hd].
    unfold minimumAmountOut. rewrite lessThan_ZERO.
    destruct (Z.ltb_spec (Fraction.numerator tol) 0) as [|_]; [lia|].
    cbn [negb invariant bind].
    destruct (tradeType t); [|reflexivity].
    eexists. split; [reflexivity|].
    rewrite slippageAdjustedAmountOut_exact by assumption.
    destruct (outputAmount t); split; reflexivity.
Qed.

(** Truncated division by a larger ratio gives no more. *)
Lemma quotient_antitone (r n1 d1 n2 d2 : Z) :
  0 <= r -> 0 < d1 -> 0 < d2 -> 0 <= n1 ->
  n1 * d2 <= n2 * d1 ->
  Z.quot (d2 * r) (d2 + n2) <= Z.quot (d1 * r) (d1 + n1).
Proof.
  intros Hr Hd1 Hd2 Hn1 Hle.
  assert (Hn2 : 0 <= n2) by nia.
  rewrite !Z.quot_div_nonneg by nia.
  apply Z.div_le_lower_bound; [lia|].
  set (q := d2 * r / (d2 + n2)).
  assert (Hq0 : 0 <= q) by (apply Z.div_pos; nia).
  assert (Hq : (d2 + n2) * q <= d2 * r) by (apply Z.mul_div_le; lia).
  apply (Z.mul_le_mono_pos_l _ _ d2); [lia|].
  nia.
Qed.

(** C7. On an [EXACT_INPUT] trade with a non-negative output amount, and
    for tolerances [t1 <= t2] of positive denominators with [t1]
    non-negative, both calls of [minimumAmountOut] return and the raw value
    for [t2] is at most the raw value for [t1]; on a negative tolerance the
    call fails. *)
Theorem minimumAmountOut_antitone (t : Trade) (t1 t2 : Percent) :
  tradeType t = EXACT_INPUT ->
  0 <= raw (outputAmount t) ->
  0 < Fraction.denominator t1 -> 0 < Fraction.denominator t2 ->
  ((0 <= Fraction.toQ t1)%Q -> (Fraction.toQ t1 <= Fraction.toQ t2)%Q ->
     exists a1 a2,
       minimumAmountOut t t1 = Ok a1 /\ minimumAmountOut t t2 = Ok a2
       /\ raw a2 <= raw a1)
  /\
  ((Fraction.toQ t1 < 0)%Q ->
     minimumAmountOut t t1 = Err (InvariantError "SLIPPAGE_TOLERANCE")).
Proof.
  intros Htt Hraw Hd1 Hd2. split.
  - intros H0 Hle.
    assert (Hn1 : 0 <= Fraction.numerator t1) by (apply tolerance_nonneg; assumption).
    destruct t1 as [n1 d1], t2 as [n2 d2];
      cbn [Fraction.numerator Fraction.denominator] in *.
    destruct d1 as [|d1|d1]; try lia. destruct d2 as [|d2|d2]; try lia.
    rewrite !toQ_pos_den in Hle. unfold Qle in Hle; cbn [Qnum Qden] in Hle.
    assert (Hn2 : 0 <= n2) by nia.
    unfold minimumAmountOut. rewrite !lessThan_ZERO, Htt.
    cbn [Fraction.numerator].
    destruct (Z.ltb_spec n1 0) as [|_]; [lia|].
    destruct (Z.ltb_spec n2 0) as [|_]; [lia|].
    cbn [negb invariant bind].
    do 2 eexists. split; [reflexivity|]. split; [reflexivity|].
    assert (Hw : forall a x, raw (with_raw a x) = x) by (intros [?|? ?] ?; reflexivity).
    rewrite !Hw.
    unfold Fraction.quotient, Fraction.multiply, Fraction.invert, Fraction.add,
      Fraction.of_int, ONE; cbn [Fraction.numerator Fraction.denominator].
    replace (1 * Z.pos d2 * raw (outputAmount t)) with (Z.pos d2 * raw (outputAmount t)) by lia.
    replace (1 * Z.pos d1 * raw (outputAmount t)) with (Z.pos d1 * raw (outputAmount t)) by lia.
    replace ((1 * Z.pos d2 + n2 * 1) * 1) with (Z.pos d2 + n2) by lia.
    replace ((1 * Z.pos d1 + n1 * 1) * 1) with (Z.pos d1 + n1) by lia.
    apply quotient_antitone; lia.
  - intros Hneg. apply tolerance_negative in Hneg; [|exact Hd1].
    unfold minimumAmountOut. rewrite Hneg. reflexivity.
Qed.

(* ------------------------------------------------------------------ *)
(** ** Price impact *)

Lemma toQ_zero_den (a : Fraction.t) :
  Fraction.denominator a = 0 -> (Fraction.toQ a == 0)%Q.
Proof.
  intros H. unfold Fraction.toQ. rewrite H. unfold Qdiv, Qinv, inject_Z; simpl.
  apply Qmult_0_r.
Qed.

Lemma Qdiv_zero (x y : Q) : (y == 0)%Q -> (x / y == 0)%Q.
Proof.
  intros H. rewrite H. unfold Qdiv. change (/ 0)%Q with 0%Q. apply Qmult_0_r.
Qed.

Lemma inject_Z_nonzero (z : Z) : z <> 0 -> ~ (inject_Z z == 0)%Q.
Proof. unfold Qeq, inject_Z; simpl. lia. Qed.

(** The fraction [computePriceImpact] builds is the exact rational
    [(mid * in - out) / (mid * in)]; where [mid * in] is zero or [mid] has
    a zero denominator both sides are divisions by zero, which [Q] reads
    as zero. *)
Lemma computePriceImpact_exact (mid : Price) (ia oa : TokenAmount) :
  (Fraction.toQ (computePriceImpact mid ia oa)
   == (Fraction.toQ (price_raw mid) * inject_Z (ta_raw ia) - inject_Z (ta_raw oa))
      / (Fraction.toQ (price_raw mid) * inject_Z (ta_raw ia)))%Q.
Proof.
  destruct mid as [bc qc [p q]]. cbn [price_raw].
  set (a := ta_raw ia). set (b := ta_raw oa).
  unfold computePriceImpact, Fraction.divide, Fraction.subtract, Fraction.multiply,
    Fraction.of_int; cbn [price_raw Fraction.numerator Fraction.denominator].
  fold a b.
  unfold Fraction.toQ; cbn [Fraction.numerator Fraction.denominator].
  destruct (Z.eq_dec q 0) as [Hq|Hq].
  - subst q. replace (0 * 1 * 1 * (p * a)) with 0 by lia.
    rewrite (Qdiv_zero _ (y := inject_Z 0)) by reflexivity.
    symmetry. apply Qdiv_zero.
    rewrite (Qdiv_zero (inject_Z p) (y := inject_Z 0)) by reflexivity.
    apply Qmult_0_l.
  - destruct (Z.eq_dec (p * a) 0) as [Hpa|Hpa].
    + rewrite Hpa. replace (q * 1 * 1 * 0) with 0 by lia.
      rewrite (Qdiv_zero _ (y := inject_Z 0)) by reflexivity.
      symmetry. apply Qdiv_zero.
      unfold Qdiv. rewrite <- Qmult_assoc, (Qmult_comm (/ _)), Qmult_assoc.
      rewrite <- inject_Z_mult, Hpa. apply Qmult_0_l.
    + assert (Hp : p <> 0) by nia. assert (Ha : a <> 0) by nia.
      unfold Z.sub. rewrite !inject_Z_mult, !inject_Z_plus, !inject_Z_opp, !inject_Z_mult.
      change (inject_Z 1) with 1%Q.
      pose proof (inject_Z_nonzero Hq). pose proof (inject_Z_nonzero Hp).
      pose proof (inject_Z_nonzero Ha).
      field. repeat split; assumption.
Qed.

(* ------------------------------------------------------------------ *)
(** ** The exact quote of a constructed trade is not zero *)

Lemma getOutputAmount_ok_nonzero p a o np :
  getOutputAmount p a = Ok (o, np) ->
  reserves_nonzero p /\ ta_raw a <> 0.
Proof.
  unfold getOutputAmount, invariant, reserves_nonzero, ZERO.
  destruct (involvesToken p (token a)); cbn [bind]; [|discriminate].
  destruct (Z.eqb_spec (ta_raw (reserve0 p)) 0) as [|H0]; [discriminate|].
  destruct (Z.eqb_spec (ta_raw (reserve1 p)) 0) as [|H1]; [discriminate|].
  cbn [orb ta_raw].
  match goal with |- context [Z.quot ?n ?d =? 0] =>
    destruct (Z.eqb_spec (Z.quot n d) 0) as [|Hq]; [discriminate|] end.
  intros _. split; [split; assumption|].
  intros Ha. apply Hq. rewrite Ha. reflexivity.
Qed.

Lemma getInputAmount_ok_positive p a i np :
  getInputAmount p a = Ok (i, np) ->
  reserves_nonzero p
  /\ (reserves_nonneg p -> 0 <= ta_raw a -> 0 < ta_raw i).
Proof.
  unfold getInputAmount, invariant, reserves_nonzero, reserves_nonneg, ZERO, ONE.
  destruct (involvesToken p (token a)); cbn [bind]; [|discriminate].
  destruct (Z.eqb_spec (ta_raw (reserve0 p)) 0) as [|H0]; [discriminate|].
  destruct (Z.eqb_spec (ta_raw (reserve1 p)) 0) as [|H1]; [discriminate|].
  cbn [orb].
  destruct (Token_equals (token a) (token0 p));
    match goal with |- context [?x >=? ?y] =>
      destruct (Z.geb_spec x y) as [|Hlt]; [discriminate|] end;
    intros H; inversion H; subst; cbn [ta_raw];
    (split; [split; assumption|]); intros [Hn0 Hn1] Ha;
    match goal with |- 0 < Z.quot ?n ?d + 1 =>
      assert (0 <= Z.quot n d) by (apply Z.quot_pos; nia) end; lia.
Qed.

Lemma amounts_forward_nonzero ps :
  forall a ams nps,
    amounts_forward ps a = Ok (ams, nps) ->
    Forall reserves_nonzero ps /\ (ps <> [] -> ta_raw (hd a ams) <> 0).
Proof.
  induction ps as [|p ps IH]; intros a ams nps; cbn [amounts_forward].
  - intros _. split; [constructor|congruence].
  - destruct (getOutputAmount p a) as [[o np]|e] eqn:Hs; cbn [bind]; [|discriminate].
    destruct (amounts_forward ps o) as [[am ns]|e] eqn:Hw; cbn [bind]; [|discriminate].
    intros H; inversion H; subst. cbn [hd].
    destruct (getOutputAmount_ok_nonzero _ _ Hs) as [Hp Ha].
    destruct (IH _ _ _ Hw) as [Hall _].
    split; [constructor; assumption|intros _; exact Ha].
Qed.

Lemma amounts_backward_positive ps :
  forall a ams nps,
    amounts_backward ps a = Ok (ams, nps) ->
    Forall reserves_nonzero ps
    /\ (Forall reserves_nonneg ps -> 0 <= ta_raw a ->
        0 <= ta_raw (hd a ams) /\ (ps <> [] -> 0 < ta_raw (hd a ams))).
Proof.
  induction ps as [|p ps IH]; intros a ams nps; cbn [amounts_backward].
  - intros H; inversion H; subst. cbn [hd].
    split; [constructor|]. intros _ Ha. split; [exact Ha|congruence].
  - destruct (amounts_backward ps a) as [[am ns]|e] eqn:Hw; cbn [bind]; [|discriminate].
    destruct (getInputAmount p (hd a am)) as [[i np]|e] eqn:Hs; cbn [bind];
      [|discriminate].
    intros H; inversion H; subst. cbn [hd].
    destruct (getInputAmount_ok_positive _ _ Hs) as [Hp Hi].
    destruct (IH _ _ _ Hw) as [Hall Hpos].
    split; [constructor; assumption|].
    intros Hnn Ha. inversion Hnn; subst.
    destruct (Hpos ltac:(assumption) Ha) as [Hhd _].
    assert (0 < ta_raw i) by (apply Hi; assumption).
    split; [lia|intros _; assumption].
Qed.

Lemma hop_price_nonzero p cur :
  reserves_nonzero p -> fraction_nonzero (price_raw (hop_price p cur)).
Proof.
  intros [H0 H1]. unfold hop_price, fraction_nonzero.
  destruct (Token_equals cur (token0 p)); cbn; split; assumption.
Qed.

Lemma hop_prices_nonzero ps :
  forall pth, Forall reserves_nonzero ps ->
    Forall (fun pr => fraction_nonzero (price_raw pr)) (hop_prices ps pth).
Proof.
  induction ps as [|p ps IH]; intros [|cur pth] H; cbn [hop_prices];
    try constructor; inversion H; subst;
    [apply hop_price_nonzero; assumption|apply IH; assumption].
Qed.

Lemma fold_price_multiply_nonzero prs :
  forall pr,
    fraction_nonzero (price_raw pr) ->
    Forall (fun x => fraction_nonzero (price_raw x)) prs ->
    fraction_nonzero (price_raw (fold_left price_multiply prs pr)).
Proof.
  induction prs as [|x prs IH]; intros pr Hpr Hall; cbn [fold_left]; [exact Hpr|].
  inversion Hall; subst. apply IH; [|assumption].
  destruct Hpr as [Hn Hd]. match goal with H : fraction_nonzero (price_raw x) |- _ =>
    destruct H as [Hxn Hxd] end.
  unfold price_multiply, Fraction.multiply, fraction_nonzero; cbn. split; nia.
Qed.

Lemma midPrice_nonzero ps inp r :
  newRoute ps inp = Ok r -> Forall reserves_nonzero ps ->
  fraction_nonzero (price_raw (midPrice r)).
Proof.
  unfold newRoute. intros H Hall.
  destruct ps as [|first rest]; [discriminate|].
  destruct (route_path (first :: rest) inp) as [pth|e]; cbn [bind] in H; [|discriminate].
  inversion H; subst. cbn [midPrice]. inversion Hall; subst.
  apply fold_price_multiply_nonzero.
  - apply hop_price_nonzero; assumption.
  - apply hop_prices_nonzero; assumption.
Qed.

Lemma newRoute_pairs ps tok r : newRoute ps tok = Ok r -> pairs r = ps.
Proof.
  unfold newRoute.
  destruct ps as [|first rest]; [discriminate|].
  destruct (route_path (first :: rest) tok); cbn [bind]; [|discriminate].
  intros H; inversion H; reflexivity.
Qed.

Lemma newRoute_nonempty ps inp r : newRoute ps inp = Ok r -> ps <> [].
Proof.
  unfold newRoute. destruct ps; [discriminate|congruence].
Qed.

Lemma toQ_nonzero (a : Fraction.t) :
  fraction_nonzero a -> ~ (Fraction.toQ a == 0)%Q.
Proof.
  destruct a as [n d]. unfold fraction_nonzero; cbn. intros [Hn Hd] H.
  unfold Fraction.toQ in H; cbn in H.
  apply (Qmult_inj_r _ _ (inject_Z d)) in H; [|apply inject_Z_nonzero; exact Hd].
  rewrite Qmult_0_l in H. unfold Qdiv in H.
  rewrite <- Qmult_assoc, (Qmult_comm (/ _)), Qmult_inv_r, Qmult_1_r in H
    by (apply inject_Z_nonzero; exact Hd).
  revert H. apply inject_Z_nonzero. exact Hn.
Qed.

(* ------------------------------------------------------------------ *)
(** ** The constructor *)

Section Constructor.
Variable WETH : ChainId -> Token.

(** What a successful construction stores. *)
Lemma newTrade_inv (r : Route) (amount : CurrencyAmount) (tt : TradeType) (t : Trade) :
  newTrade WETH r amount tt = Ok t ->
  exists ia oa,
    route t = r /\ tradeType t = tt
    /\ inputAmount t = OfToken ia /\ outputAmount t = OfToken oa
    /\ priceImpact t = computePriceImpact (midPrice r) ia oa.
Proof.
  unfold newTrade. intros H.
  match type of H with bind ?x _ = _ =>
    destruct x as [[wrapped [amounts nextPairs]]|e] end; [|discriminate].
  cbn [bind] in H.
  destruct (newRoute nextPairs (input r)) as [nr|e]; [|discriminate].
  cbn [bind] in H. injection H as <-. cbn.
  do 2 eexists. repeat split.
Qed.

Lemma newTrade_walk (r : Route) (amount : CurrencyAmount) (tt : TradeType) (t : Trade) :
newTrade WETH r amount tt = Ok t ->
exists a0 ams nps,
  ta_raw a0 = raw amount /\ inputAmount t = OfToken (hd a0 ams)
  /\ match tt with
     | EXACT_INPUT => amounts_forward (pairs r) a0 = Ok (ams, nps)
     | EXACT_OUTPUT => amounts_backward (pairs r) a0 = Ok (ams, nps)
     end.
Proof.
  assert (Hw : forall c a0, wrappedAmount WETH amount c = Ok a0 -> ta_raw a0 = raw amount).
  { intros c a0. destruct amount as [ta|cu x]; cbn [wrappedAmount raw].
    - intros H; inversion H; reflexivity.
    - destruct (is_ETHER cu); intros H; inversion H; reflexivity. }
  unfold newTrade. intros H.
  destruct tt.
  - destruct (invariant _ "INPUT"); cbn [bind] in H; [|discriminate].
    destruct (wrappedAmount WETH amount (chainId (input r))) as [a0|e] eqn:Ea;
      cbn [bind] in H; [|discriminate].
    destruct (amounts_forward (pairs r) a0) as [[ams nps]|e] eqn:Ew;
      cbn [bind] in H; [|discriminate].
    destruct (newRoute nps (input r)); cbn [bind] in H; [|discriminate].
    inversion H; subst. exists a0, ams, nps. cbn [inputAmount].
    repeat split; eauto.
  - destruct (invariant _ "OUTPUT"); cbn [bind] in H; [|discriminate].
    destruct (wrappedAmount WETH amount (chainId (output r))) as [a0|e] eqn:Ea;
      cbn [bind] in H; [|discriminate].
    destruct (amounts_backward (pairs r) a0) as [[ams nps]|e] eqn:Ew;
      cbn [bind] in H; [|discriminate].
    destruct (newRoute nps (input r)); cbn [bind] in H; [|discriminate].
    inversion H; subst. exists a0, ams, nps. cbn [inputAmount].
    repeat split; eauto.
Qed.

(** C8. Every constructed trade holds token amounts, and its price impact
    is the exact rational [(midPrice * inputAmount - outputAmount) /
    (midPrice * inputAmount)] of its route's mid price and its raw
    amounts.  Over a route of pairs with non-negative reserves and for a
    non-negative amount the divisor [midPrice * inputAmount] is not
    zero. *)
Theorem priceImpact_exact (r : Route) (amount : CurrencyAmount) (tt : TradeType)
    (t : Trade) :
  newTrade WETH r amount tt = Ok t ->
  (exists ia oa, inputAmount t = OfToken ia /\ outputAmount t = OfToken oa)
  /\ route t = r
  /\ (Fraction.toQ (priceImpact t)
      == (Fraction.toQ (price_raw (midPrice r)) * inject_Z (raw (inputAmount t))
          - inject_Z (raw (outputAmount t)))
         / (Fraction.toQ (price_raw (midPrice r)) * inject_Z (raw (inputAmount t))))%Q
  /\ (forall ps inp,
        newRoute ps inp = Ok r -> Forall reserves_nonneg ps -> 0 <= raw amount ->
        ~ (Fraction.toQ (price_raw (midPrice r)) * inject_Z (raw (inputAmount t))
           == 0)%Q).
Proof.
  intros H. destruct (newTrade_inv _ _ _ H) as (ia & oa & Hr & _ & Hi & Ho & Hp).
  split; [eauto|]. split; [exact Hr|]. split.
  - rewrite Hp, Hi, Ho. cbn [raw]. apply computePriceImpact_exact.
  - intros ps inp Hroute Hnn Hamount Hzero.
    destruct (newTrade_walk _ _ _ H) as (a0 & ams & nps & Ha0 & Hin & Hwalk).
    pose proof (@newRoute_pairs _ _ _ Hroute) as Hps.
    pose proof (@newRoute_nonempty _ _ _ Hroute) as Hne.
    rewrite Hps in Hwalk. rewrite Hin in Hzero. cbn [raw] in Hzero.
    assert (Hfacts : Forall reserves_nonzero ps /\ ta_raw (hd a0 ams) <> 0).
    { destruct tt.
      - destruct (amounts_forward_nonzero _ _ Hwalk) as [Hall Hhd]. auto.
      - destruct (amounts_backward_positive _ _ Hwalk) as [Hall Hhd].
        split; [exact Hall|].
        destruct (Hhd Hnn ltac:(lia)) as [_ Hpos]. specialize (Hpos Hne). lia. }
    destruct Hfacts as [Hall Hhd].
    apply Qmult_integral in Hzero. destruct Hzero as [Hz|Hz].
    + revert Hz. apply toQ_nonzero. eapply midPrice_nonzero; eassumption.
    + revert Hz. apply inject_Z_nonzero. exact Hhd.
Qed.

Ltac foreign := split; discriminate.

Lemma getOutputAmount_foreign p a e : getOutputAmount p a = Err e -> foreign e.
Proof.
  unfold getOutputAmount, invariant.
  repeat match goal with
         | |- context [if ?c then _ else _] => destruct c; cbn [bind]
         end; intros H; inversion H; foreign.
Qed.

Lemma getInputAmount_foreign p a e : getInputAmount p a = Err e -> foreign e.
Proof.
  unfold getInputAmount, invariant.
  repeat match goal with
         | |- context [if ?c then _ else _] => destruct c; cbn [bind]
         end; intros H; inversion H; foreign.
Qed.

Lemma amounts_forward_foreign ps a e : amounts_forward ps a = Err e -> foreign e.
Proof.
  revert a. induction ps as [|p ps IH]; intros a; cbn [amounts_forward].
  - discriminate.
  - destruct (getOutputAmount p a) as [[o np]|e'] eqn:E; cbn [bind].
    + destruct (amounts_forward ps o) as [[am nps]|e'] eqn:E'; cbn [bind].
      * discriminate.
      * intros H; inversion H; subst. eapply IH; eassumption.
    + intros H; inversion H; subst. eapply getOutputAmount_foreign; eassumption.
Qed.

Lemma amounts_backward_foreign ps a e : amounts_backward ps a = Err e -> foreign e.
Proof.
  induction ps as [|p ps IH]; cbn [amounts_backward].
  - discriminate.
  - destruct (amounts_backward ps a) as [[am nps]|e'] eqn:E; cbn [bind].
    + destruct (getInputAmount p (hd a am)) as [[i np]|e'] eqn:E'; cbn [bind].
      * discriminate.
      * intros H; inversion H; subst. eapply getInputAmount_foreign; eassumption.
    + intros H; inversion H; subst. apply IH. reflexivity.
Qed.

Lemma route_path_foreign ps c e : route_path ps c = Err e -> foreign e.
Proof.
  revert c. induction ps as [|p ps IH]; intros c; cbn [route_path].
  - discriminate.
  - unfold invariant.
    destruct (Token_equals c (token0 p) || Token_equals c (token1 p)); cbn [bind].
    + match goal with |- context [route_path ps ?x] =>
        destruct (route_path ps x) eqn:E end; cbn [bind].
      * discriminate.
      * intros H; inversion H; subst. eapply IH; eassumption.
    + intros H; inversion H; foreign.
Qed.

Lemma newRoute_foreign ps i e : newRoute ps i = Err e -> foreign e.
Proof.
  unfold newRoute. destruct ps as [|first rest].
  - intros H; inversion H; foreign.
  - destruct (route_path (first :: rest) i) as [pth|e'] eqn:E; cbn [bind].
    + discriminate.
    + intros H; inversion H; subst. eapply route_path_foreign; eassumption.
Qed.

Lemma wrappedAmount_foreign a c e : wrappedAmount WETH a c = Err e -> foreign e.
Proof.
  destruct a as [ta|cu r]; cbn [wrappedAmount]; [discriminate|].
  destruct (is_ETHER cu); intros H; inversion H; foreign.
Qed.

(** The guard of the constructor decides [matches_endpoint]. *)
Lemma endpoint_guard (c : Currency) (e : Token) :
  currencyEquals c (Tok e) || (is_ETHER c && Token_equals e (WETH (chainId e))) = true
  <-> matches_endpoint WETH c e.
Proof.
  destruct c as [|x]; cbn [currencyEquals is_ETHER matches_endpoint andb orb].
  - reflexivity.
  - rewrite Bool.orb_false_r. reflexivity.
Qed.

(** C9. The constructor fails on the endpoint invariant, returning no
    trade, whenever the asset of the amount does not match the endpoint
    the trade type fixes, and it never raises that failure when the asset
    matches: a token must equal the endpoint, the native asset is taken
    exactly when the endpoint is the wrapped token of its chain. *)
Theorem newTrade_endpoint (r : Route) (amount : CurrencyAmount) (tt : TradeType) :
  (~ matches_endpoint WETH (currency amount) (endpoint r tt) ->
     newTrade WETH r amount tt = Err (InvariantError (endpoint_message tt)))
  /\
  (matches_endpoint WETH (currency amount) (endpoint r tt) ->
     newTrade WETH r amount tt <> Err (InvariantError (endpoint_message tt))).
Proof.
  split.
  - intros Hn. rewrite <- endpoint_guard in Hn.
    apply Bool.not_true_is_false in Hn.
    unfold newTrade. destruct tt; cbn [endpoint] in Hn; rewrite Hn; reflexivity.
  - intros Hm. rewrite <- endpoint_guard in Hm.
    assert (Hf : forall e, newTrade WETH r amount tt = Err e -> foreign e).
    { intros e. unfold newTrade.
      destruct tt; cbn [endpoint] in Hm; rewrite Hm; cbn [invariant bind].
      - destruct (wrappedAmount WETH amount (chainId (input r))) as [a0|e0] eqn:Ew;
          cbn [bind].
        + destruct (amounts_forward (pairs r) a0) as [[am nps]|e0] eqn:Ea; cbn [bind].
          * destruct (newRoute nps (input r)) as [nr|e0] eqn:En; cbn [bind].
            -- discriminate.
            -- intros H; inversion H; subst. eapply newRoute_foreign; eassumption.
          * intros H; inversion H; subst. eapply amounts_forward_foreign; eassumption.
        + intros H; inversion H; subst. eapply wrappedAmount_foreign; eassumption.
      - destruct (wrappedAmount WETH amount (chainId (output r))) as [a0|e0] eqn:Ew;
          cbn [bind].
        + destruct (amounts_backward (pairs r) a0) as [[am nps]|e0] eqn:Ea; cbn [bind].
          * destruct (newRoute nps (input r)) as [nr|e0] eqn:En; cbn [bind].
            -- discriminate.
            -- intros H; inversion H; subst. eapply newRoute_foreign; eassumption.
          * intros H; inversion H; subst. eapply amounts_backward_foreign; eassumption.
        + intros H; inversion H; subst. eapply wrappedAmount_foreign; eassumption. }
    intros H. apply Hf in H. destruct H as [H1 H2]. destruct tt; [apply H1|apply H2]; reflexivity.
Qed.

End Constructor.

(* ------------------------------------------------------------------ *)
(** ** The two searches are instances of one *)

Section Instances.
Variable WETH : ChainId -> Token.

Lemma loopExactIn_search (rec rec' : recursion) amountIn tokenOut maxNumResults
      maxHops currentPairs originalAmountIn :
  (forall ps a cur bt, rec ps a cur bt = rec' ps a cur bt) ->
  forall rest before bestTrades,
    loopExactIn WETH rec amountIn tokenOut maxNumResults maxHops currentPairs
      originalAmountIn before rest bestTrades
    = loopSearch getOutputAmount isInsufficientInputAmountError
        (fun cur p => cur ++ [p]) (buildExactIn WETH originalAmountIn)
        tokenOut maxNumResults rec' amountIn maxHops currentPairs
        before rest bestTrades.
Proof.
  intros Hrec. induction rest as [|p after IH]; intros before bt; [reflexivity|].
  cbn [loopExactIn loopSearch].
  destruct (negb _ && negb _); [apply IH|].
  destruct (_ || _); [apply IH|].
  destruct (getOutputAmount p amountIn) as [[amountOut np]|e].
  2: destruct (isInsufficientInputAmountError e); [apply IH|reflexivity].
  destruct (Token_equals (token amountOut) tokenOut).
  { unfold buildExactIn.
    destruct (newRoute _ _); cbn [bind]; [|reflexivity].
    destruct (newTrade _ _ _ _); cbn [bind]; [|reflexivity].
    destruct (sortedInsert _ _ _ _); [apply IH|reflexivity]. }
  destruct (_ && _); [|apply IH].
  rewrite Hrec. destruct (rec' _ _ _ _) as [[bt'|e]|]; [apply IH|reflexivity..].
Qed.

Lemma bestTradeExactIn_rec_search fuel :
  forall pairs amountIn tokenOut maxNumResults maxHops currentPairs
         originalAmountIn sameAmount bestTrades,
    bestTradeExactIn_rec WETH fuel pairs amountIn tokenOut maxNumResults maxHops
      currentPairs originalAmountIn sameAmount bestTrades
    = searchExactIn WETH tokenOut maxNumResults originalAmountIn fuel pairs
        amountIn maxHops currentPairs sameAmount bestTrades.
Proof.
  induction fuel as [|fuel IH]; intros; [reflexivity|].
  cbn [bestTradeExactIn_rec searchExactIn search_rec].
  destruct (bind _ _); [|reflexivity].
  apply loopExactIn_search. intros. apply IH.
Qed.

Lemma loopExactOut_search (rec rec' : recursion) tokenIn amountOut maxNumResults
      maxHops currentPairs originalAmountOut :
  (forall ps a cur bt, rec ps a cur bt = rec' ps a cur bt) ->
  forall rest before bestTrades,
    loopExactOut WETH rec tokenIn amountOut maxNumResults maxHops currentPairs
      originalAmountOut before rest bestTrades
    = loopSearch getInputAmount isInsufficientReservesError
        (fun cur p => p :: cur) (buildExactOut WETH tokenIn originalAmountOut)
        tokenIn maxNumResults rec' amountOut maxHops currentPairs
        before rest bestTrades.
Proof.
  intros Hrec. induction rest as [|p after IH]; intros before bt; [reflexivity|].
  cbn [loopExactOut loopSearch].
  destruct (negb _ && negb _); [apply IH|].
  destruct (_ || _); [apply IH|].
  destruct (getInputAmount p amountOut) as [[amountIn np]|e].
  2: destruct (isInsufficientReservesError e); [apply IH|reflexivity].
  destruct (Token_equals (token amountIn) tokenIn).
  { unfold buildExactOut.
    destruct (newRoute _ _); cbn [bind]; [|reflexivity].
    destruct (newTrade _ _ _ _); cbn [bind]; [|reflexivity].
    destruct (sortedInsert _ _ _ _); [apply IH|reflexivity]. }
  destruct (_ && _); [|apply IH].
  rewrite Hrec. destruct (rec' _ _ _ _) as [[bt'|e]|]; [apply IH|reflexivity..].
Qed.

Lemma bestTradeExactOut_rec_search fuel :
  forall pairs tokenIn amountOut maxNumResults maxHops currentPairs
         originalAmountOut sameAmount bestTrades,
    bestTradeExactOut_rec WETH fuel pairs tokenIn amountOut maxNumResults maxHops
      currentPairs originalAmountOut sameAmount bestTrades
    = searchExactOut WETH tokenIn maxNumResults originalAmountOut fuel pairs
        amountOut maxHops currentPairs sameAmount bestTrades.
Proof.
  induction fuel as [|fuel IH]; intros; [reflexivity|].
  cbn [bestTradeExactOut_rec searchExactOut search_rec].
  destruct (bind _ _); [|reflexivity].
  apply loopExactOut_search. intros. apply IH.
Qed.
End Instances.

(* ------------------------------------------------------------------ *)
(** ** An invariant rule for the search *)

Section SearchPost.
Variable swap : Pair -> TokenAmount -> result (TokenAmount * Pair).
Variable caught : error -> bool.
Variable extend : list Pair -> Pair -> list Pair.
Variable build : list Pair -> result Trade.
Variable target : Token.
Variable maxNumResults : Z.

(** [Inv] is kept by [bestTrades], [Exc] holds of every exception that
    escapes, [Level] relates the candidate pairs, the running amount, the
    hop budget and the current pairs of one call. *)
Variable Inv : list Trade -> Prop.
Variable Exc : error -> Prop.
Variable Level : list Pair -> TokenAmount -> Z -> list Pair -> Prop.

Hypothesis Exc_invariant : forall msg, Exc (InvariantError msg).

Hypothesis swap_uncaught : forall p amount e,
  candidate p amount = true -> swap p amount = Err e -> caught e = false -> Exc e.

Hypothesis Level_step : forall before p after amount amount' np mh cur,
  Level (before ++ p :: after) amount mh cur ->
  candidate p amount = true -> swap p amount = Ok (amount', np) -> 1 < mh ->
  Level (before ++ after) amount' (mh - 1) (extend cur p).

Hypothesis leaf : forall before p after amount amount' np mh cur bt,
  Level (before ++ p :: after) amount mh cur -> 0 < mh ->
  candidate p amount = true -> swap p amount = Ok (amount', np) ->
  Token_equals (token amount') target = true ->
  Inv bt ->
  match (let* t := build (extend cur p) in
         sortedInsert tradeComparator bt t maxNumResults) with
  | Ok bt' => Inv bt'
  | Err e => Exc e
  end.

Local Abbreviation post := (search_post Inv Exc).

Lemma loopSearch_post (N : Prop) (rec : recursion) ps amount mh cur :
  Level ps amount mh cur -> 0 < mh ->
  (forall before p after amount' np bt,
      ps = before ++ p :: after -> candidate p amount = true ->
      swap p amount = Ok (amount', np) -> 1 < mh -> Inv bt ->
      post N (rec (before ++ after) amount' (extend cur p) bt)) ->
  forall rest before bt,
    ps = before ++ rest -> Inv bt ->
    post N (loopSearch swap caught extend build target maxNumResults
              rec amount mh cur before rest bt).
Proof.
  intros HL Hmh Hrec. induction rest as [|p after IH]; intros before bt Hps Hbt.
  - exact Hbt.
  - assert (Hnext : ps = (before ++ [p]) ++ after)
      by (rewrite <- app_assoc; exact Hps).
    cbn [loopSearch].
    destruct (negb (Token_equals (token0 p) (token amount))
              && negb (Token_equals (token1 p) (token amount))) eqn:Hrel;
      [apply IH; assumption|].
    destruct (reserve_is_zero (reserve0 p) || reserve_is_zero (reserve1 p)) eqn:Hz;
      [apply IH; assumption|].
    assert (Hc : candidate p amount = true)
      by (unfold candidate; rewrite Hrel, Hz; reflexivity).
    destruct (swap p amount) as [[amount' np]|e] eqn:Hs.
    2: { destruct (caught e) eqn:Hca; [apply IH; assumption|].
         cbn [search_post]. eapply swap_uncaught; eassumption. }
    destruct (Token_equals (token amount') target) eqn:Ht.
    { subst ps. pose proof (@leaf before p after _ _ _ _ _ _ HL Hmh Hc Hs Ht Hbt) as Hleaf.
      destruct (bind _ _) as [bt'|e]; [apply IH; assumption|exact Hleaf]. }
    destruct ((mh >? 1) && (Z.of_nat (List.length (before ++ p :: after)) >? 1))
      eqn:Hgo; [|apply IH; assumption].
    apply andb_prop in Hgo. destruct Hgo as [Hgo _].
    apply Z.gtb_lt in Hgo.
    pose proof (Hrec before p after amount' np bt Hps Hc Hs Hgo Hbt) as Hr.
    destruct (rec _ _ _ _) as [[bt'|e]|]; [apply IH; assumption|exact Hr..].
Qed.

(** The rule: from a call whose level is sound and whose [bestTrades]
    satisfies the invariant, the search ends in a [bestTrades] that
    satisfies it or in an exception of [Exc], and it runs out of fuel
    only when given less than the number of pairs. *)
Theorem search_rec_post fuel :
  forall ps amount mh cur same bt,
    Level ps amount mh cur -> Inv bt ->
    post (fuel < List.length ps)%nat
         (search_rec swap caught extend build target maxNumResults
                     fuel ps amount mh cur same bt).
Proof.
  induction fuel as [|fuel IH]; intros ps amount mh cur same bt HL Hbt;
    cbn [search_rec]; unfold invariant;
    destruct (Z.gtb_spec (Z.of_nat (List.length ps)) 0) as [Hlen|Hlen];
      cbn [bind]; try apply Exc_invariant;
    destruct (Z.gtb_spec mh 0) as [Hmh|Hmh];
      cbn [bind]; try apply Exc_invariant;
    destruct (same || (Z.of_nat (List.length cur) >? 0));
      cbn [bind]; try apply Exc_invariant.
  - cbn [search_post]. lia.
  - apply loopSearch_post with (ps := ps); try assumption; try reflexivity.
    intros before p after amount' np bt0 Hps Hc Hs Hgo Hbt0.
    subst ps.
    assert (HL' := @Level_step before p after _ _ _ _ _ HL Hc Hs Hgo).
    pose proof (IH _ _ _ _ false bt0 HL' Hbt0) as Hp.
    destruct (search_rec _ _ _ _ _ _ _ _ _ _ _ _ _) as [[bt'|e]|];
      cbn [search_post] in *; try assumption.
    rewrite length_app in *. cbn [List.length] in *. lia.
Qed.
End SearchPost.

(** Fuel equal to the number of pairs is enough. *)
Lemma search_rec_total swap caught extend build target maxNumResults
      fuel ps amount mh cur same bt :
  (List.length ps <= fuel)%nat ->
  search_rec swap caught extend build target maxNumResults
             fuel ps amount mh cur same bt <> None.
Proof.
  intros Hf Hnone.
  pose proof (@search_rec_post swap caught extend build target maxNumResults
                (fun _ => True) (fun _ => True) (fun _ _ _ _ => True)
                (fun _ => I) (fun _ _ _ _ _ _ => I)
                (fun _ _ _ _ _ _ _ _ _ _ _ _ => I)) as H.
  specialize (H (fun before p after amount amount' np mh cur bt _ _ _ _ _ _ =>
                   match (let* t := build (extend cur p) in
                          sortedInsert tradeComparator bt t maxNumResults)
                         as r return match r with Ok _ => True | Err _ => True end
                   with Ok _ => I | Err _ => I end)).
  specialize (H fuel ps amount mh cur same bt I I).
  rewrite Hnone in H. cbn [search_post] in H. lia.
Qed.

(* ------------------------------------------------------------------ *)
(** ** The bounded ranked list *)

Lemma Token_equals_sym (a b : Token) : Token_equals a b = Token_equals b a.
Proof. unfold Token_equals. rewrite Z.eqb_sym, String.eqb_sym. reflexivity. Qed.

Lemma Token_equals_refl (a : Token) : Token_equals a a = true.
Proof. unfold Token_equals. rewrite Z.eqb_refl, String.eqb_refl. reflexivity. Qed.

Lemma currencyEquals_sym (a b : Currency) : currencyEquals a b = currencyEquals b a.
Proof. destruct a, b; cbn [currencyEquals]; auto using Token_equals_sym. Qed.

(** Swapping the two sides negates [inputOutputComparator]. *)
Lemma inputOutputComparator_swap (aIn aOut bIn bOut : CurrencyAmount) (c : Z) :
  inputOutputComparator aIn aOut bIn bOut = Ok c ->
  inputOutputComparator bIn bOut aIn aOut = Ok (- c).
Proof.
  unfold inputOutputComparator, invariant.
  rewrite (currencyEquals_sym (currency bIn)), (currencyEquals_sym (currency bOut)).
  destruct (currencyEquals (currency aIn) (currency bIn)); cbn [bind]; [|discriminate].
  destruct (currencyEquals (currency aOut) (currency bOut)); cbn [bind]; [|discriminate].
  unfold amount_equalTo, amount_lessThan, Fraction.equalTo, Fraction.lessThan.
  set (x := Fraction.numerator (amount_fraction aOut) * Fraction.denominator (amount_fraction bOut)).
  set (y := Fraction.numerator (amount_fraction bOut) * Fraction.denominator (amount_fraction aOut)).
  set (u := Fraction.numerator (amount_fraction aIn) * Fraction.denominator (amount_fraction bIn)).
  set (v := Fraction.numerator (amount_fraction bIn) * Fraction.denominator (amount_fraction aIn)).
  destruct (Z.eqb_spec x y), (Z.eqb_spec y x), (Z.eqb_spec u v), (Z.eqb_spec v u),
    (Z.ltb_spec u v), (Z.ltb_spec v u), (Z.ltb_spec x y), (Z.ltb_spec y x);
    try lia; intros Hres; inversion Hres; reflexivity.
Qed.

(** Swapping the two trades negates [tradeComparator]. *)
Lemma tradeComparator_swap (a b : Trade) (c : Z) :
  tradeComparator a b = Ok c -> tradeComparator b a = Ok (- c).
Proof.
  unfold tradeComparator.
  destruct (inputOutputComparator (inputAmount a) (outputAmount a)
              (inputAmount b) (outputAmount b)) as [io|e] eqn:Hio; [|discriminate].
  rewrite (inputOutputComparator_swap _ _ _ _ Hio). cbn [bind].
  destruct (Z.eqb_spec io 0) as [E|N]; destruct (Z.eqb_spec (- io) 0); try lia;
    cbn [negb].
  - unfold Fraction.lessThan, Fraction.greaterThan. rewrite !Z.gtb_ltb.
    set (x := Fraction.numerator (priceImpact a) * Fraction.denominator (priceImpact b)).
    set (y := Fraction.numerator (priceImpact b) * Fraction.denominator (priceImpact a)).
    destruct (Z.ltb_spec x y), (Z.ltb_spec y x); try lia;
      intros Hres; inversion Hres; try reflexivity.
    f_equal. lia.
  - intros Hres; inversion Hres; reflexivity.
Qed.

Section Ranked.
Variable cmp : Trade -> Trade -> result Z.
Hypothesis cmp_swap : forall a b c, cmp a b = Ok c -> cmp b a = Ok (- c).

Lemma ranked_tail a l : ranked cmp (a :: l) -> ranked cmp l.
Proof. inversion 1; subst; [constructor|assumption]. Qed.

Lemma ranked_removelast l : ranked cmp l -> ranked cmp (removelast l).
Proof.
  induction 1 as [| t | a b l c Hc Hle Hr IH]; cbn [removelast]; try constructor.
  destruct l as [|x l].
  - constructor.
  - cbn [removelast] in IH |- *. econstructor; eassumption.
Qed.

Lemma insert_ranked_length l t l' :
  insert_ranked cmp l t = Ok l' -> List.length l' = S (List.length l).
Proof.
  revert l'. induction l as [|x l IH]; intros l'; cbn [insert_ranked].
  - intros H; inversion H; reflexivity.
  - destruct (cmp x t) as [c|e]; cbn [bind]; [|discriminate].
    destruct (c <=? 0).
    + destruct (insert_ranked cmp l t) as [r|e]; cbn [bind]; [|discriminate].
      intros H; inversion H; subst. cbn [List.length]. f_equal. apply IH. reflexivity.
    + intros H; inversion H; reflexivity.
Qed.

Lemma insert_ranked_In l t l' x :
  insert_ranked cmp l t = Ok l' -> In x l' -> x = t \/ In x l.
Proof.
  revert l'. induction l as [|y l IH]; intros l'; cbn [insert_ranked].
  - intros H; inversion H; subst. cbn [In]. intuition congruence.
  - destruct (cmp y t) as [c|e]; cbn [bind]; [|discriminate].
    destruct (c <=? 0).
    + destruct (insert_ranked cmp l t) as [r|e]; cbn [bind]; [|discriminate].
      intros H; inversion H; subst. cbn [In]. intros [Hy|Hin]; [auto|].
      destruct (IH r eq_refl Hin); auto.
    + intros H; inversion H; subst. cbn [In]. intuition congruence.
Qed.

Lemma insert_ranked_ranked l t l' :
  ranked cmp l -> insert_ranked cmp l t = Ok l' -> ranked cmp l'.
Proof.
  revert l'. induction l as [|x l IH]; intros l' Hr; cbn [insert_ranked].
  - intros H; inversion H; constructor.
  - destruct (cmp x t) as [c|e] eqn:Hc; cbn [bind]; [|discriminate].
    destruct (Z.leb_spec c 0) as [Hle|Hgt].
    + destruct (insert_ranked cmp l t) as [r|e] eqn:Hi; cbn [bind]; [|discriminate].
      intros H; inversion H; subst l'.
      pose proof (IH r (@ranked_tail _ _ Hr) eq_refl) as Hrr.
      destruct l as [|y l]; cbn [insert_ranked] in Hi.
      * inversion Hi; subst. econstructor; eauto; constructor.
      * destruct (cmp y t) as [c'|e] eqn:Hc'; cbn [bind] in Hi; [|discriminate].
        inversion Hr; subst.
        destruct (c' <=? 0).
        -- destruct (insert_ranked cmp l t); cbn [bind] in Hi; [|discriminate].
           inversion Hi; subst. econstructor; eassumption.
        -- inversion Hi; subst. econstructor; eassumption.
    + intros H; inversion H; subst l'.
      apply cmp_swap in Hc. econstructor; [exact Hc|lia|exact Hr].
Qed.

Lemma sortedInsert_ranked l t m l' :
  ranked cmp l -> sortedInsert cmp l t m = Ok l' -> ranked cmp l'.
Proof.
  intros Hr. unfold sortedInsert.
  destruct (insert_ranked cmp l t) as [r|e] eqn:Hi; cbn [bind]; [|discriminate].
  pose proof (@insert_ranked_ranked _ _ _ Hr Hi).
  destruct (_ >? _); intros H'; inversion H'; subst; auto using ranked_removelast.
Qed.

Lemma sortedInsert_length l t m l' :
  0 <= m -> Z.of_nat (List.length l) <= m ->
  sortedInsert cmp l t m = Ok l' -> Z.of_nat (List.length l') <= m.
Proof.
  intros Hm Hl. unfold sortedInsert.
  destruct (insert_ranked cmp l t) as [r|e] eqn:Hi; cbn [bind]; [|discriminate].
  pose proof (@insert_ranked_length _ _ _ Hi) as Hlen.
  destruct (Z.gtb_spec (Z.of_nat (List.length r)) m);
    intros H'; inversion H'; subst; [|lia].
  rewrite removelast_firstn_len, length_firstn. lia.
Qed.

Lemma sortedInsert_In l t m l' x :
  sortedInsert cmp l t m = Ok l' -> In x l' -> x = t \/ In x l.
Proof.
  unfold sortedInsert.
  destruct (insert_ranked cmp l t) as [r|e] eqn:Hi; cbn [bind]; [|discriminate].
  destruct (_ >? _); intros H'; inversion H'; subst; intros Hin.
  - eapply insert_ranked_In; [eassumption|].
    clear - Hin. induction r as [|a [|b r] IH]; cbn [removelast In] in *; intuition auto.
  - eapply insert_ranked_In; eassumption.
Qed.
End Ranked.

(** Whatever the direction, the search keeps [bestTrades] within the cap
    and ranked. *)
Lemma search_bounded_ranked swap caught extend build target m
      fuel ps amount mh cur same bt :
  0 <= m ->
  Z.of_nat (List.length bt) <= m -> ranked tradeComparator bt ->
  forall bt',
    search_rec swap caught extend build target m fuel ps amount mh cur same bt
    = Some (Ok bt') ->
    Z.of_nat (List.length bt') <= m /\ ranked tradeComparator bt'.
Proof.
  intros Hm Hlen Hr bt' Hrun.
  pose proof (@search_rec_post swap caught extend build target m
                (fun l => Z.of_nat (List.length l) <= m /\ ranked tradeComparator l)
                (fun _ => True) (fun _ _ _ _ => True)
                (fun _ => I) (fun _ _ _ _ _ _ => I)
                (fun _ _ _ _ _ _ _ _ _ _ _ _ => I)) as H.
  assert (Hleaf : forall (before : list Pair) (p : Pair) (after : list Pair)
                    (amount amount' : TokenAmount) (np : Pair) (mh : Z)
                    (cur : list Pair) (bt : list Trade),
             True -> 0 < mh -> candidate p amount = true ->
             swap p amount = Ok (amount', np) ->
             Token_equals (token amount') target = true ->
             Z.of_nat (List.length bt) <= m /\ ranked tradeComparator bt ->
             match (let* t := build (extend cur p) in
                    sortedInsert tradeComparator bt t m) with
             | Ok bt' => Z.of_nat (List.length bt') <= m /\ ranked tradeComparator bt'
             | Err _ => True
             end).
  { intros _ p _ _ _ _ _ cur0 bt0 _ _ _ _ _ [Hl0 Hr0].
    destruct (build (extend cur0 p)) as [t|e]; cbn [bind]; [|exact I].
    destruct (sortedInsert tradeComparator bt0 t m) as [l|e] eqn:Hs; [|exact I].
    split.
    - eapply sortedInsert_length; eassumption.
    - eapply sortedInsert_ranked; [exact tradeComparator_swap|eassumption..]. }
  specialize (H Hleaf fuel ps amount mh cur same bt I (conj Hlen Hr)).
  rewrite Hrun in H. exact H.
Qed.

(** ** A lower cap keeps the head of the list *)

Lemma insert_ranked_firstn (cmp : Trade -> Trade -> result Z) L t :
  forall l, insert_ranked cmp L t = Ok l ->
  forall n, exists l_n,
    insert_ranked cmp (firstn n L) t = Ok l_n
    /\ firstn n l_n = firstn n l
    /\ List.length l_n = S (Nat.min n (List.length L)).
Proof.
  induction L as [|x L IH]; intros l; cbn [insert_ranked].
  - intros H n; inversion H; subst. exists [t]. rewrite firstn_nil.
    split; [reflexivity|]. split; [reflexivity|].
    cbn [List.length]. rewrite Nat.min_0_r. reflexivity.
  - destruct (cmp x t) as [c|e] eqn:Hc; cbn [bind]; [|discriminate].
    intros H [|n].
    + exists [t]. cbn [firstn insert_ranked]. auto.
    + cbn [firstn insert_ranked]. rewrite Hc. cbn [bind].
      destruct (c <=? 0).
      * destruct (insert_ranked cmp L t) as [r|e] eqn:Hr; cbn [bind] in H; [|discriminate].
        inversion H; subst.
        destruct (IH r eq_refl n) as (r_n & -> & Hfirst & Hlen).
        cbn [bind]. exists (x :: r_n). split; [reflexivity|].
        cbn [firstn List.length]. rewrite Hfirst, Hlen. auto.
      * inversion H; subst. exists (t :: x :: firstn n L).
        split; [reflexivity|]. split.
        -- cbn [firstn]. f_equal.
           change (x :: firstn n L) with (firstn (S n) (x :: L)).
           rewrite firstn_firstn. f_equal. lia.
        -- cbn [List.length]. rewrite length_firstn. reflexivity.
Qed.

Lemma sortedInsert_best_first (cmp : Trade -> Trade -> result Z) (m M : Z) L t L' :
  m <= M ->
  sortedInsert cmp L t M = Ok L' ->
  sortedInsert cmp (best_first m L) t m = Ok (best_first m L').
Proof.
  intros Hcap. unfold sortedInsert, best_first.
  destruct (insert_ranked cmp L t) as [l|e] eqn:Hi; cbn [bind]; [|discriminate].
  destruct (insert_ranked_firstn _ _ _ Hi (Z.to_nat m)) as (l_n & -> & Hfirst & Hlen).
  cbn [bind]. intros H.
  assert (Hcut : firstn (Z.to_nat m) L' = firstn (Z.to_nat m) l).
  { destruct (Z.gtb_spec (Z.of_nat (List.length l)) M) as [Hgt|_];
      inversion H; subst; [|reflexivity].
    rewrite removelast_firstn_len, firstn_firstn. f_equal. lia. }
  rewrite Hcut, <- Hfirst.
  destruct (Nat.le_gt_cases (Z.to_nat m) (List.length L)) as [Hle|Hgt].
  - rewrite Nat.min_l in Hlen by exact Hle.
    destruct (Z.gtb_spec (Z.of_nat (List.length l_n)) m); [|lia].
    rewrite removelast_firstn_len, Hlen. reflexivity.
  - rewrite Nat.min_r in Hlen by lia.
    destruct (Z.gtb_spec (Z.of_nat (List.length l_n)) m); [lia|].
    rewrite firstn_all2 by lia. reflexivity.
Qed.

Section Caps.
Variable swap : Pair -> TokenAmount -> result (TokenAmount * Pair).
Variable caught : error -> bool.
Variable extend : list Pair -> Pair -> list Pair.
Variable build : list Pair -> result Trade.
Variable target : Token.
Variables m M : Z.
Hypothesis cap_le : m <= M.

Lemma loopSearch_best_first (rec_m rec_M : recursion) amount mh cur :
  (forall ps' amount' cur' L L',
      rec_M ps' amount' cur' L = Some (Ok L') ->
      rec_m ps' amount' cur' (best_first m L) = Some (Ok (best_first m L'))) ->
  forall rest before L L',
    loopSearch swap caught extend build target M rec_M amount mh cur before rest L
    = Some (Ok L') ->
    loopSearch swap caught extend build target m rec_m amount mh cur before rest
               (best_first m L)
    = Some (Ok (best_first m L')).
Proof.
  intros Hrec. induction rest as [|p after IH]; intros before L L'; cbn [loopSearch].
  - intros H; inversion H; reflexivity.
  - destruct (negb _ && negb _); [apply IH|].
    destruct (reserve_is_zero (reserve0 p) || reserve_is_zero (reserve1 p)); [apply IH|].
    destruct (swap p amount) as [[amount' np]|e].
    2: destruct (caught e); [apply IH|discriminate].
    destruct (Token_equals (token amount') target).
    + destruct (build (extend cur p)) as [t|e]; cbn [bind]; [|discriminate].
      destruct (sortedInsert tradeComparator L t M) as [L1|e] eqn:Hi; [|discriminate].
      rewrite (sortedInsert_best_first _ _ _ cap_le Hi). apply IH.
    + destruct ((mh >? 1) && _); [|apply IH].
      destruct (rec_M (before ++ after) amount' (extend cur p) L) as [[L1|e]|] eqn:Hr;
        try discriminate.
      rewrite (Hrec _ _ _ _ _ Hr). apply IH.
Qed.

Lemma search_rec_best_first fuel :
  forall ps amount mh cur same L L',
    search_rec swap caught extend build target M fuel ps amount mh cur same L
    = Some (Ok L') ->
    search_rec swap caught extend build target m fuel ps amount mh cur same
               (best_first m L)
    = Some (Ok (best_first m L')).
Proof.
  induction fuel as [|fuel IH]; intros ps amount mh cur same L L';
    cbn [search_rec]; destruct (bind _ _); try discriminate.
  apply loopSearch_best_first. intros. apply IH. assumption.
Qed.
End Caps.

Section BoundedRanked.
Variable WETH : ChainId -> Token.

(** C2. With a non-negative [maxNumResults], both searches return (the
    length of [pairs] is fuel enough), and the list they return holds at
    most [maxNumResults] trades and is ranked best-first by
    [tradeComparator].  Every insertion of the two loops discards the
    worst entry when it would exceed the cap: at a pair that arrives at
    the target the loop goes on with the ranked insertion of the new
    trade, without its last entry when that has more than
    [maxNumResults] entries.  So of the trades found only the worst are
    discarded: the list a search returns is the first [maxNumResults]
    entries of the ranked list the same search returns with any higher
    cap. *)
Theorem bestTrade_bounded_ranked (ps : list Pair) (amount : TokenAmount)
    (tok : Token) (options : BestTradeOptions) :
  0 <= maxNumResults options ->
  (exists r, bestTradeExactIn WETH ps amount tok options = Some r /\
     forall l, r = Ok l ->
       Z.of_nat (List.length l) <= maxNumResults options
       /\ ranked tradeComparator l)
  /\
  (exists r, bestTradeExactOut WETH ps tok amount options = Some r /\
     forall l, r = Ok l ->
       Z.of_nat (List.length l) <= maxNumResults options
       /\ ranked tradeComparator l)
  /\
  (forall bt t l,
      insert_ranked tradeComparator bt t = Ok l ->
      Z.of_nat (List.length l) > maxNumResults options ->
      sortedInsert tradeComparator bt t (maxNumResults options)
      = Ok (removelast l))
  /\
  (forall rec amountIn mh cur orig before p after bt amountOut np r t l,
      candidate p amountIn = true ->
      getOutputAmount p amountIn = Ok (amountOut, np) ->
      Token_equals (token amountOut) tok = true ->
      newRoute (cur ++ [p]) (token orig) = Ok r ->
      newTrade WETH r (OfToken orig) EXACT_INPUT = Ok t ->
      insert_ranked tradeComparator bt t = Ok l ->
      loopExactIn WETH rec amountIn tok (maxNumResults options) mh cur orig
                  before (p :: after) bt
      = loopExactIn WETH rec amountIn tok (maxNumResults options) mh cur orig
                    (before ++ [p]) after
                    (if Z.of_nat (List.length l) >? maxNumResults options
                     then removelast l else l)
      /\ (ranked tradeComparator bt -> ranked tradeComparator l))
  /\
  (forall rec amountOut mh cur orig before p after bt amountIn np r t l,
      candidate p amountOut = true ->
      getInputAmount p amountOut = Ok (amountIn, np) ->
      Token_equals (token amountIn) tok = true ->
      newRoute (p :: cur) tok = Ok r ->
      newTrade WETH r (OfToken orig) EXACT_OUTPUT = Ok t ->
      insert_ranked tradeComparator bt t = Ok l ->
      loopExactOut WETH rec tok amountOut (maxNumResults options) mh cur orig
                   before (p :: after) bt
      = loopExactOut WETH rec tok amountOut (maxNumResults options) mh cur orig
                     (before ++ [p]) after
                     (if Z.of_nat (List.length l) >? maxNumResults options
                      then removelast l else l)
      /\ (ranked tradeComparator bt -> ranked tradeComparator l))
  /\
  (forall higher L,
      maxNumResults options <= maxNumResults higher ->
      maxHops higher = maxHops options ->
      bestTradeExactIn WETH ps amount tok higher = Some (Ok L) ->
      ranked tradeComparator L
      /\ bestTradeExactIn WETH ps amount tok options
         = Some (Ok (best_first (maxNumResults options) L)))
  /\
  (forall higher L,
      maxNumResults options <= maxNumResults higher ->
      maxHops higher = maxHops options ->
      bestTradeExactOut WETH ps tok amount higher = Some (Ok L) ->
      ranked tradeComparator L
      /\ bestTradeExactOut WETH ps tok amount options
         = Some (Ok (best_first (maxNumResults options) L))).
Proof.
  intros Hm. repeat apply conj.
  - unfold bestTradeExactIn. rewrite bestTradeExactIn_rec_search.
    unfold searchExactIn.
    match goal with |- exists r, ?o = Some r /\ _ => destruct o as [r|] eqn:Hrun end.
    + exists r. split; [reflexivity|]. intros l ->.
      eapply search_bounded_ranked; [exact Hm| | |exact Hrun];
        [cbn; lia|constructor].
    + exfalso. eapply search_rec_total; [|exact Hrun]. lia.
  - unfold bestTradeExactOut. rewrite bestTradeExactOut_rec_search.
    unfold searchExactOut.
    match goal with |- exists r, ?o = Some r /\ _ => destruct o as [r|] eqn:Hrun end.
    + exists r. split; [reflexivity|]. intros l ->.
      eapply search_bounded_ranked; [exact Hm| | |exact Hrun];
        [cbn; lia|constructor].
    + exfalso. eapply search_rec_total; [|exact Hrun]. lia.
  - intros bt t l Hi Hlen. unfold sortedInsert. rewrite Hi. cbn [bind].
    apply Z.gtb_gt in Hlen. rewrite Hlen. reflexivity.
  - intros rec amountIn mh cur orig before p after bt amountOut np r t l
           Hc Hs Ht Hr Hn Hi.
    split.
    + unfold candidate in Hc. apply andb_prop in Hc. destruct Hc as [Hrel Hz].
      apply negb_true_iff in Hrel, Hz.
      cbn [loopExactIn]. rewrite Hrel, Hz, Hs, Ht, Hr. cbn [bind]. rewrite Hn.
      cbn [bind]. unfold sortedInsert. rewrite Hi. cbn [bind].
      destruct (_ >? _); reflexivity.
    + intros Hbt. eapply insert_ranked_ranked; [exact tradeComparator_swap|eassumption..].
  - intros rec amountOut mh cur orig before p after bt amountIn np r t l
           Hc Hs Ht Hr Hn Hi.
    split.
    + unfold candidate in Hc. apply andb_prop in Hc. destruct Hc as [Hrel Hz].
      apply negb_true_iff in Hrel, Hz.
      cbn [loopExactOut]. rewrite Hrel, Hz, Hs, Ht, Hr. cbn [bind]. rewrite Hn.
      cbn [bind]. unfold sortedInsert. rewrite Hi. cbn [bind].
      destruct (_ >? _); reflexivity.
    + intros Hbt. eapply insert_ranked_ranked; [exact tradeComparator_swap|eassumption..].
  - intros higher L Hcap Hhops Hrun.
    unfold bestTradeExactIn in *. rewrite bestTradeExactIn_rec_search in *.
    unfold searchExactIn in *. rewrite Hhops in Hrun. split.
    + eapply search_bounded_ranked; [| | |exact Hrun]; [lia|cbn; lia|constructor].
    + pose proof (search_rec_best_first _ _ _ _ _ Hcap _ _ _ _ _ _ [] Hrun) as H.
      unfold best_first in H at 1. rewrite firstn_nil in H. exact H.
  - intros higher L Hcap Hhops Hrun.
    unfold bestTradeExactOut in *. rewrite bestTradeExactOut_rec_search in *.
    unfold searchExactOut in *. rewrite Hhops in Hrun. split.
    + eapply search_bounded_ranked; [| | |exact Hrun]; [lia|cbn; lia|constructor].
    + pose proof (search_rec_best_first _ _ _ _ _ Hcap _ _ _ _ _ _ [] Hrun) as H.
      unfold best_first in H at 1. rewrite firstn_nil in H. exact H.
Qed.
End BoundedRanked.

(* ------------------------------------------------------------------ *)
(** ** Routes of the trades found *)

Section SimpleRoutes.
Variable swap : Pair -> TokenAmount -> result (TokenAmount * Pair).
Variable caught : error -> bool.
Variable extend : list Pair -> Pair -> list Pair.
Variable build : list Pair -> result Trade.
Variable target : Token.
Variable m : Z.

Hypothesis extend_perm : forall cur p, Permutation (extend cur p) (p :: cur).
Hypothesis build_pairs : forall ps t, build ps = Ok t -> pairs (route t) = ps.

(** The candidates [all] and the hop budget [budget] of the outermost
    call. *)
Variable all : list Pair.
Variable budget : Z.

Local Abbreviation level := (level all budget).

Lemma level_moves cur before p after :
  Permutation (cur ++ before ++ p :: after) (extend cur p ++ before ++ after).
Proof.
  rewrite (extend_perm cur p). cbn [app].
  rewrite <- Permutation_middle. rewrite app_assoc.
  rewrite <- Permutation_middle. rewrite <- app_assoc. reflexivity.
Qed.

Lemma search_simple_routes fuel ps amount mh cur same bt :
  level ps amount mh cur ->
  Forall (simple_route all budget) bt ->
  forall bt',
    search_rec swap caught extend build target m fuel ps amount mh cur same bt
    = Some (Ok bt') ->
    Forall (simple_route all budget) bt'.
Proof.
  intros HL Hbt bt' Hrun.
  pose proof (@search_rec_post swap caught extend build target m
                (Forall (simple_route all budget)) (fun _ => True) level
                (fun _ => I) (fun _ _ _ _ _ _ => I)) as H.
  assert (Hstep : forall (before : list Pair) (p : Pair) (after : list Pair)
                    (amount amount' : TokenAmount) (np : Pair) (mh : Z)
                    (cur : list Pair),
             level (before ++ p :: after) amount mh cur ->
             candidate p amount = true -> swap p amount = Ok (amount', np) ->
             1 < mh ->
             level (before ++ after) amount' (mh - 1) (extend cur p)).
  { intros before p after _ a' _ mh0 cur0 (Hperm & Hlen) _ _ Hgo.
    pose proof (level_moves cur0 before p after) as Hp.
    split.
    - rewrite <- Hp. exact Hperm.
    - rewrite (Permutation_length (extend_perm cur0 p)). cbn [List.length]. lia. }
  assert (Hleaf : forall (before : list Pair) (p : Pair) (after : list Pair)
                    (amount amount' : TokenAmount) (np : Pair) (mh : Z)
                    (cur : list Pair) (bt : list Trade),
             level (before ++ p :: after) amount mh cur -> 0 < mh ->
             candidate p amount = true -> swap p amount = Ok (amount', np) ->
             Token_equals (token amount') target = true ->
             Forall (simple_route all budget) bt ->
             match (let* t := build (extend cur p) in
                    sortedInsert tradeComparator bt t m) with
             | Ok bt' => Forall (simple_route all budget) bt'
             | Err _ => True
             end).
  { intros before p after _ _ _ mh0 cur0 bt0 (Hperm & Hlen) Hmh _ _ _ Hbt0.
    destruct (build (extend cur0 p)) as [t|e] eqn:Hb; cbn [bind]; [|exact I].
    destruct (sortedInsert tradeComparator bt0 t m) as [l|e] eqn:Hs; [|exact I].
    pose proof (level_moves cur0 before p after) as Hp.
    assert (Ht : simple_route all budget t).
    { unfold simple_route. rewrite (build_pairs Hb). split.
      - exists (before ++ after). rewrite <- Hp. exact Hperm.
      - rewrite (Permutation_length (extend_perm cur0 p)). cbn [List.length]. lia. }
    apply Forall_forall. intros x Hx.
    destruct (@sortedInsert_In _ _ _ _ _ _ Hs Hx) as [->|Hold]; [exact Ht|].
    rewrite Forall_forall in Hbt0. apply Hbt0. exact Hold. }
  specialize (H Hstep Hleaf fuel ps amount mh cur same bt HL Hbt).
  rewrite Hrun in H. exact H.
Qed.

(** Nothing is searched below a pair when the hop budget is spent or no
    other candidate is left. *)
Lemma loopSearch_no_recursion (rec rec' : recursion) amount mh cur :
  forall rest before bt,
    mh <= 1 \/ (List.length (before ++ rest) <= 1)%nat ->
    loopSearch swap caught extend build target m rec amount mh cur before rest bt
    = loopSearch swap caught extend build target m rec' amount mh cur before rest bt.
Proof.
  induction rest as [|p after IH]; intros before bt Hstop; [reflexivity|].
  assert (Hnext : mh <= 1 \/ (List.length ((before ++ [p]) ++ after) <= 1)%nat)
    by (rewrite <- app_assoc; exact Hstop).
  cbn [loopSearch].
  destruct (negb _ && negb _); [apply IH; exact Hnext|].
  destruct (_ || _); [apply IH; exact Hnext|].
  destruct (swap p amount) as [[amount' np]|e].
  2: destruct (caught e); [apply IH; exact Hnext|reflexivity].
  destruct (Token_equals (token amount') target).
  { destruct (bind _ _); [apply IH; exact Hnext|reflexivity]. }
  destruct (Z.gtb_spec mh 1); cbn [andb]; [|apply IH; exact Hnext].
  destruct (Z.gtb_spec (Z.of_nat (List.length (before ++ p :: after))) 1);
    [lia|apply IH; exact Hnext].
Qed.
End SimpleRoutes.

Section RoutesFound.
Variable WETH : ChainId -> Token.

Lemma buildExactIn_pairs orig ps t :
  buildExactIn WETH orig ps = Ok t -> pairs (route t) = ps.
Proof.
  unfold buildExactIn.
  destruct (newRoute ps (token orig)) as [r|e] eqn:Hr; cbn [bind]; [|discriminate].
  intros Ht. destruct (newTrade_inv _ _ _ _ Ht) as (_ & _ & -> & _).
  eapply newRoute_pairs; eassumption.
Qed.

Lemma buildExactOut_pairs tokenIn orig ps t :
  buildExactOut WETH tokenIn orig ps = Ok t -> pairs (route t) = ps.
Proof.
  unfold buildExactOut.
  destruct (newRoute ps tokenIn) as [r|e] eqn:Hr; cbn [bind]; [|discriminate].
  intros Ht. destruct (newTrade_inv _ _ _ _ Ht) as (_ & _ & -> & _).
  eapply newRoute_pairs; eassumption.
Qed.

Lemma extend_back_perm (cur : list Pair) (p : Pair) :
  Permutation (cur ++ [p]) (p :: cur).
Proof. symmetry. apply Permutation_cons_append. Qed.

Lemma level_start (ps : list Pair) (amount : TokenAmount) (budget : Z) :
  level ps budget ps amount budget [].
Proof.
  unfold level. cbn [app List.length]. split; [reflexivity|lia].
Qed.

Lemma simple_route_NoDup (ps : list Pair) (budget : Z) (t : Trade) :
  simple_route ps budget t -> NoDup ps -> NoDup (pairs (route t)).
Proof.
  intros [[unused Hperm] _] Hnd.
  apply (Permutation_NoDup (Permutation_sym Hperm)) in Hnd.
  apply NoDup_app_remove_r in Hnd. exact Hnd.
Qed.

Lemma simple_route_incl (ps : list Pair) (budget : Z) (t : Trade) :
  simple_route ps budget t -> incl (pairs (route t)) ps.
Proof.
  intros [[unused Hperm] _] x Hx.
  eapply Permutation_in; [exact Hperm|]. apply in_or_app. left. exact Hx.
Qed.

(** C4. Both searches return, and the route of every trade they return is
    made of candidate pairs, each place of the array [pairs] taken at most
    once, and has at most [maxHops] pairs; so over candidates that are
    distinct no route holds a pair twice.  The loops of both do not depend
    on the recursive call once the hop budget is at most 1 or at most one
    candidate pair is left. *)
Theorem bestTrade_simple_routes (ps : list Pair) (amount : TokenAmount)
    (tok : Token) (options : BestTradeOptions) :
  (exists r, bestTradeExactIn WETH ps amount tok options = Some r /\
     forall l t, r = Ok l -> In t l ->
       simple_route ps (maxHops options) t
       /\ incl (pairs (route t)) ps
       /\ (NoDup ps -> NoDup (pairs (route t))))
  /\
  (exists r, bestTradeExactOut WETH ps tok amount options = Some r /\
     forall l t, r = Ok l -> In t l ->
       simple_route ps (maxHops options) t
       /\ incl (pairs (route t)) ps
       /\ (NoDup ps -> NoDup (pairs (route t))))
  /\
  (forall rec rec' m mh cur orig before rest bt,
      mh <= 1 \/ (List.length (before ++ rest) <= 1)%nat ->
      loopExactIn WETH rec amount tok m mh cur orig before rest bt
      = loopExactIn WETH rec' amount tok m mh cur orig before rest bt)
  /\
  (forall rec rec' m mh cur orig before rest bt,
      mh <= 1 \/ (List.length (before ++ rest) <= 1)%nat ->
      loopExactOut WETH rec tok amount m mh cur orig before rest bt
      = loopExactOut WETH rec' tok amount m mh cur orig before rest bt).
Proof.
  assert (Hall : forall l t, Forall (simple_route ps (maxHops options)) l -> In t l ->
             simple_route ps (maxHops options) t
             /\ incl (pairs (route t)) ps
             /\ (NoDup ps -> NoDup (pairs (route t)))).
  { intros l t Hl Ht. rewrite Forall_forall in Hl. specialize (Hl t Ht).
    split; [exact Hl|]. split.
    - eapply simple_route_incl; exact Hl.
    - eapply simple_route_NoDup; exact Hl. }
  split; [|split; [|split]].
  - unfold bestTradeExactIn. rewrite bestTradeExactIn_rec_search.
    unfold searchExactIn.
    match goal with |- exists r, ?o = Some r /\ _ => destruct o as [r|] eqn:Hrun end.
    + exists r. split; [reflexivity|]. intros l t ->. apply Hall.
      eapply search_simple_routes; [| | | |exact Hrun].
      * intros; apply extend_back_perm.
      * intros ? ?; apply buildExactIn_pairs.
      * apply level_start.
      * constructor.
    + exfalso. eapply search_rec_total; [|exact Hrun]. lia.
  - unfold bestTradeExactOut. rewrite bestTradeExactOut_rec_search.
    unfold searchExactOut.
    match goal with |- exists r, ?o = Some r /\ _ => destruct o as [r|] eqn:Hrun end.
    + exists r. split; [reflexivity|]. intros l t ->. apply Hall.
      eapply search_simple_routes; [| | | |exact Hrun].
      * intros; reflexivity.
      * intros ? ?; apply buildExactOut_pairs.
      * apply level_start.
      * constructor.
    + exfalso. eapply search_rec_total; [|exact Hrun]. lia.
  - intros rec rec' m mh cur orig before rest bt Hstop.
    rewrite (@loopExactIn_search WETH rec rec), (@loopExactIn_search WETH rec' rec')
      by reflexivity.
    apply loopSearch_no_recursion; exact Hstop.
  - intros rec rec' m mh cur orig before rest bt Hstop.
    rewrite (@loopExactOut_search WETH rec rec), (@loopExactOut_search WETH rec' rec')
      by reflexivity.
    apply loopSearch_no_recursion; exact Hstop.
Qed.
End RoutesFound.

(* ------------------------------------------------------------------ *)
(** ** Liquidity failures *)

Lemma reserve_is_zero_raw (r : TokenAmount) : reserve_is_zero r = (ta_raw r =? ZERO).
Proof.
  unfold reserve_is_zero, Fraction.equalTo, amount_fraction, Fraction.of_int, ZERO;
    cbn [Fraction.numerator Fraction.denominator raw].
  rewrite Z.mul_1_r, Z.mul_0_l. reflexivity.
Qed.

Lemma candidate_reserves (p : Pair) (a : TokenAmount) :
  candidate p a = true ->
  (ta_raw (reserve0 p) =? ZERO) || (ta_raw (reserve1 p) =? ZERO) = false.
Proof.
  unfold candidate. rewrite !reserve_is_zero_raw. intros H.
  apply andb_prop in H. destruct H as [_ H]. apply negb_true_iff in H. exact H.
Qed.

Lemma candidate_involves (p : Pair) (a : TokenAmount) :
  candidate p a = true -> involvesToken p (token a) = true.
Proof.
  unfold candidate, involvesToken. intros H.
  apply andb_prop in H. destruct H as [H _].
  rewrite (Token_equals_sym (token a) (token0 p)), (Token_equals_sym (token a) (token1 p)).
  destruct (Token_equals (token0 p) (token a)), (Token_equals (token1 p) (token a));
    cbn in *; congruence.
Qed.

(** On a candidate pair [getOutputAmount] can only fail for an output that
    truncates to zero. *)
Lemma getOutputAmount_candidate (p : Pair) (a : TokenAmount) (e : error) :
  candidate p a = true -> getOutputAmount p a = Err e ->
  e = InsufficientInputAmountError.
Proof.
  intros Hc. unfold getOutputAmount, invariant.
  rewrite (candidate_involves _ _ Hc), (candidate_reserves _ _ Hc). cbn [bind].
  destruct (_ =? ZERO); [|discriminate].
  intros H; inversion H; reflexivity.
Qed.

(** [getInputAmount] fails on its validation or for lack of reserves. *)
Lemma getInputAmount_failure (p : Pair) (a : TokenAmount) (e : error) :
  getInputAmount p a = Err e ->
  e = InvariantError "TOKEN" \/ e = InsufficientReservesError.
Proof.
  unfold getInputAmount, invariant.
  destruct (involvesToken p (token a)); cbn [bind].
  - destruct (_ || _); [|discriminate]. intros H; inversion H; auto.
  - intros H; inversion H; auto.
Qed.

Lemma getOutputAmount_failure (p : Pair) (a : TokenAmount) (e : error) :
  getOutputAmount p a = Err e ->
  e = InvariantError "TOKEN" \/ e = InsufficientReservesError
  \/ e = InsufficientInputAmountError.
Proof.
  unfold getOutputAmount, invariant.
  destruct (involvesToken p (token a)); cbn [bind].
  - destruct (_ || _); [intros H; inversion H; auto|].
    destruct (_ =? ZERO); [|discriminate]. intros H; inversion H; auto.
  - intros H; inversion H; auto.
Qed.

Lemma getOutputAmount_reserves (p : Pair) (a : TokenAmount) :
  getOutputAmount p a = Err InsufficientReservesError ->
  reserve_is_zero (reserve0 p) || reserve_is_zero (reserve1 p) = true.
Proof.
  rewrite !reserve_is_zero_raw. unfold getOutputAmount, invariant.
  destruct (involvesToken p (token a)); cbn [bind]; [|discriminate].
  destruct (_ || _); [reflexivity|].
  destruct (_ =? ZERO); discriminate.
Qed.

Lemma is_invariant_not_liquidity (e : error) : is_invariant e -> ~ liquidity_failure e.
Proof. intros [msg ->] [H|H]; discriminate. Qed.

Lemma route_path_invariant ps c e : route_path ps c = Err e -> is_invariant e.
Proof.
  revert c. induction ps as [|p ps IH]; intros c; cbn [route_path]; [discriminate|].
  unfold invariant.
  destruct (Token_equals c (token0 p) || Token_equals c (token1 p)); cbn [bind].
  - match goal with |- context [route_path ps ?x] =>
      destruct (route_path ps x) eqn:E end; cbn [bind]; [discriminate|].
    intros H; inversion H; subst. eapply IH; eassumption.
  - intros H; inversion H. eexists; reflexivity.
Qed.

Lemma newRoute_invariant ps i e : newRoute ps i = Err e -> is_invariant e.
Proof.
  unfold newRoute. destruct ps as [|first rest].
  - intros H; inversion H. eexists; reflexivity.
  - destruct (route_path (first :: rest) i) as [pth|e'] eqn:E; cbn [bind].
    + discriminate.
    + intros H; inversion H; subst. eapply route_path_invariant; eassumption.
Qed.

Lemma tradeComparator_invariant a b e : tradeComparator a b = Err e -> is_invariant e.
Proof.
  unfold tradeComparator, inputOutputComparator, invariant.
  repeat match goal with
         | |- context [if ?c then _ else _] => destruct c; cbn [bind]
         end; intros H; inversion H; eexists; reflexivity.
Qed.

Lemma insert_ranked_invariant l t e :
  insert_ranked tradeComparator l t = Err e -> is_invariant e.
Proof.
  induction l as [|x l IH]; cbn [insert_ranked]; [discriminate|].
  destruct (tradeComparator x t) as [c|e'] eqn:Hc; cbn [bind].
  - destruct (c <=? 0); [|discriminate].
    destruct (insert_ranked tradeComparator l t); cbn [bind]; [discriminate|].
    intros H; inversion H; subst. apply IH. reflexivity.
  - intros H; inversion H; subst. eapply tradeComparator_invariant; eassumption.
Qed.

Lemma sortedInsert_invariant l t m e :
  sortedInsert tradeComparator l t m = Err e -> is_invariant e.
Proof.
  unfold sortedInsert.
  destruct (insert_ranked tradeComparator l t) eqn:Hi; cbn [bind].
  - destruct (_ >? _); discriminate.
  - intros H; inversion H; subst. eapply insert_ranked_invariant; eassumption.
Qed.

Lemma amounts_forward_head ps a ams nps :
  amounts_forward ps a = Ok (ams, nps) -> exists tl, ams = a :: tl.
Proof.
  destruct ps as [|p ps]; cbn [amounts_forward].
  - intros H; inversion H. eauto.
  - destruct (getOutputAmount p a) as [[o np]|e]; cbn [bind]; [|discriminate].
    destruct (amounts_forward ps o) as [[am ns]|e]; cbn [bind]; [|discriminate].
    intros H; inversion H. eauto.
Qed.

Lemma last_nonempty_default (A : Type) (x : A) (l : list A) (d d' : A) :
  last (x :: l) d = last (x :: l) d'.
Proof.
  revert x. induction l as [|y l IH]; intros x; [reflexivity|].
  change (last (y :: l) d = last (y :: l) d'). apply IH.
Qed.

(** One more hop at the end of a forward walk. *)
Lemma amounts_forward_snoc cur p :
  forall a ams nps a' np,
    amounts_forward cur a = Ok (ams, nps) ->
    getOutputAmount p (last ams a) = Ok (a', np) ->
    amounts_forward (cur ++ [p]) a = Ok (ams ++ [a'], nps ++ [np]).
Proof.
  induction cur as [|q cur IH]; intros a ams nps a' np; cbn [amounts_forward app].
  - intros H; inversion H; subst. cbn [last]. intros ->. reflexivity.
  - destruct (getOutputAmount q a) as [[o nq]|e]; cbn [bind]; [|discriminate].
    destruct (amounts_forward cur o) as [[am ns]|e] eqn:Hw; cbn [bind]; [|discriminate].
    intros H; inversion H; subst. intros Hp.
    destruct (amounts_forward_head _ _ Hw) as [tl ->].
    rewrite (IH o (o :: tl) ns a' np Hw).
    + reflexivity.
    + rewrite (last_nonempty_default o tl o a). exact Hp.
Qed.

Section Liquidity.
Variable WETH : ChainId -> Token.

Let Exc (e : error) : Prop := ~ liquidity_failure e.

Lemma invariant_not_liquidity msg : Exc (InvariantError msg).
Proof. apply is_invariant_not_liquidity. eexists; reflexivity. Qed.

(** No trade [bestTradeExactIn] builds fails for lack of liquidity: the
    constructor repeats swaps that the search has already made. *)
Lemma leafExactIn orig tok m (before : list Pair) (p : Pair) (after : list Pair)
      (amount amount' : TokenAmount) (np : Pair) (mh : Z) (cur : list Pair)
      (bt : list Trade) :
  levelExactIn orig (before ++ p :: after) amount mh cur -> 0 < mh ->
  candidate p amount = true -> getOutputAmount p amount = Ok (amount', np) ->
  Token_equals (token amount') tok = true -> True ->
  match (let* t := buildExactIn WETH orig (cur ++ [p]) in
         sortedInsert tradeComparator bt t m) with
  | Ok _ => True
  | Err e => Exc e
  end.
Proof.
  intros (ams & nps & Hw & Hlast) _ _ Hs _ _.
  rewrite <- Hlast in Hs.
  pose proof (amounts_forward_snoc _ _ _ Hw Hs) as Hw'.
  unfold buildExactIn.
  destruct (newRoute (cur ++ [p]) (token orig)) as [r|e] eqn:Hr; cbn [bind].
  2: apply is_invariant_not_liquidity; eapply newRoute_invariant; eassumption.
  unfold newTrade, invariant.
  destruct (_ || _); cbn [bind wrappedAmount]; [|apply invariant_not_liquidity].
  rewrite (newRoute_pairs _ _ Hr), Hw'. cbn [bind].
  destruct (newRoute (nps ++ [np]) (input r)) as [nr|e] eqn:Hn; cbn [bind].
  2: apply is_invariant_not_liquidity; eapply newRoute_invariant; eassumption.
  destruct (sortedInsert _ _ _ _) eqn:Hi; [exact I|].
  apply is_invariant_not_liquidity. eapply sortedInsert_invariant; eassumption.
Qed.

Lemma leafExactOut tokenIn orig m (before : list Pair) (p : Pair) (after : list Pair)
      (amount amount' : TokenAmount) (np : Pair) (mh : Z) (cur : list Pair)
      (bt : list Trade) :
  levelExactOut orig (before ++ p :: after) amount mh cur -> 0 < mh ->
  candidate p amount = true -> getInputAmount p amount = Ok (amount', np) ->
  Token_equals (token amount') tokenIn = true -> True ->
  match (let* t := buildExactOut WETH tokenIn orig (p :: cur) in
         sortedInsert tradeComparator bt t m) with
  | Ok _ => True
  | Err e => Exc e
  end.
Proof.
  intros (ams & nps & Hw & Hhd) _ _ Hs _ _.
  unfold buildExactOut.
  destruct (newRoute (p :: cur) tokenIn) as [r|e] eqn:Hr; cbn [bind].
  2: apply is_invariant_not_liquidity; eapply newRoute_invariant; eassumption.
  unfold newTrade, invariant.
  destruct (_ || _); cbn [bind wrappedAmount]; [|apply invariant_not_liquidity].
  rewrite (newRoute_pairs _ _ Hr). cbn [amounts_backward]. rewrite Hw. cbn [bind].
  rewrite Hhd, Hs. cbn [bind].
  destruct (newRoute (np :: nps) (input r)) as [nr|e] eqn:Hn; cbn [bind].
  2: apply is_invariant_not_liquidity; eapply newRoute_invariant; eassumption.
  destruct (sortedInsert _ _ _ _) eqn:Hi; [exact I|].
  apply is_invariant_not_liquidity. eapply sortedInsert_invariant; eassumption.
Qed.

Lemma searchExactIn_no_liquidity_failure tok m orig fuel ps amount mh cur same bt e :
  levelExactIn orig ps amount mh cur ->
  searchExactIn WETH tok m orig fuel ps amount mh cur same bt = Some (Err e) ->
  ~ liquidity_failure e.
Proof.
  intros HL Hrun. unfold searchExactIn in Hrun.
  pose proof (@search_rec_post getOutputAmount isInsufficientInputAmountError
                (fun c p => c ++ [p]) (buildExactIn WETH orig) tok m
                (fun _ => True) Exc (levelExactIn orig) invariant_not_liquidity) as H.
  assert (Hswap : forall p amount e,
             candidate p amount = true -> getOutputAmount p amount = Err e ->
             isInsufficientInputAmountError e = false -> Exc e).
  { intros p a e0 Hc He Hca. rewrite (getOutputAmount_candidate _ _ Hc He) in Hca.
    discriminate. }
  assert (Hstep : forall (before : list Pair) (p : Pair) (after : list Pair)
                    (amount amount' : TokenAmount) (np : Pair) (mh : Z)
                    (cur : list Pair),
             levelExactIn orig (before ++ p :: after) amount mh cur ->
             candidate p amount = true ->
             getOutputAmount p amount = Ok (amount', np) -> 1 < mh ->
             levelExactIn orig (before ++ after) amount' (mh - 1) (cur ++ [p])).
  { intros before p after a a' np mh0 cur0 (ams & nps & Hw & Hlast) _ Hs _.
    rewrite <- Hlast in Hs.
    exists (ams ++ [a']), (nps ++ [np]). split.
    - eapply amounts_forward_snoc; eassumption.
    - apply last_last. }
  specialize (H Hswap Hstep (@leafExactIn orig tok m) fuel ps amount mh cur same bt HL I).
  rewrite Hrun in H. exact H.
Qed.

Lemma searchExactOut_no_liquidity_failure tokenIn m orig fuel ps amount mh cur same bt e :
  levelExactOut orig ps amount mh cur ->
  searchExactOut WETH tokenIn m orig fuel ps amount mh cur same bt = Some (Err e) ->
  ~ liquidity_failure e.
Proof.
  intros HL Hrun. unfold searchExactOut in Hrun.
  pose proof (@search_rec_post getInputAmount isInsufficientReservesError
                (fun c p => p :: c) (buildExactOut WETH tokenIn orig) tokenIn m
                (fun _ => True) Exc (levelExactOut orig) invariant_not_liquidity) as H.
  assert (Hswap : forall p amount e,
             candidate p amount = true -> getInputAmount p amount = Err e ->
             isInsufficientReservesError e = false -> Exc e).
  { intros p a e0 _ He Hca.
    destruct (getInputAmount_failure _ _ He) as [->| ->]; [apply invariant_not_liquidity|].
    discriminate. }
  assert (Hstep : forall (before : list Pair) (p : Pair) (after : list Pair)
                    (amount amount' : TokenAmount) (np : Pair) (mh : Z)
                    (cur : list Pair),
             levelExactOut orig (before ++ p :: after) amount mh cur ->
             candidate p amount = true ->
             getInputAmount p amount = Ok (amount', np) -> 1 < mh ->
             levelExactOut orig (before ++ after) amount' (mh - 1) (p :: cur)).
  { intros before p after a a' np mh0 cur0 (ams & nps & Hw & Hhd) _ Hs _.
    exists (a' :: ams), (np :: nps). split; [|reflexivity].
    cbn [amounts_backward]. rewrite Hw. cbn [bind]. rewrite Hhd, Hs. reflexivity. }
  specialize (H Hswap Hstep (@leafExactOut tokenIn orig m)
                fuel ps amount mh cur same bt HL I).
  rewrite Hrun in H. exact H.
Qed.

(** C1. In the loop of [bestTradeExactIn] a pair on which
    [getOutputAmount] fails with a liquidity failure is skipped: the loop
    goes on with the next index and the same [bestTrades]; the same holds
    in [bestTradeExactOut] of [getInputAmount].  Both searches return,
    and never with a liquidity failure. *)
Theorem liquidity_failures_skipped (ps : list Pair) (amount : TokenAmount)
    (tok : Token) (options : BestTradeOptions) :
  (forall rec m mh cur orig before p after bt e,
      liquidity_failure e -> getOutputAmount p amount = Err e ->
      loopExactIn WETH rec amount tok m mh cur orig before (p :: after) bt
      = loopExactIn WETH rec amount tok m mh cur orig (before ++ [p]) after bt)
  /\
  (forall rec m mh cur orig before p after bt e,
      liquidity_failure e -> getInputAmount p amount = Err e ->
      loopExactOut WETH rec tok amount m mh cur orig before (p :: after) bt
      = loopExactOut WETH rec tok amount m mh cur orig (before ++ [p]) after bt)
  /\
  (exists r, bestTradeExactIn WETH ps amount tok options = Some r /\
     forall e, r = Err e -> ~ liquidity_failure e)
  /\
  (exists r, bestTradeExactOut WETH ps tok amount options = Some r /\
     forall e, r = Err e -> ~ liquidity_failure e).
Proof.
  repeat split.
  - intros rec m mh cur orig before p after bt e Hliq He.
    cbn [loopExactIn].
    destruct (negb _ && negb _); [reflexivity|].
    destruct (reserve_is_zero (reserve0 p) || reserve_is_zero (reserve1 p)) eqn:Hz;
      [reflexivity|].
    rewrite He. destruct Hliq as [-> | ->]; [|reflexivity].
    rewrite (getOutputAmount_reserves _ _ He) in Hz. discriminate.
  - intros rec m mh cur orig before p after bt e Hliq He.
    cbn [loopExactOut].
    destruct (negb _ && negb _); [reflexivity|].
    destruct (_ || _); [reflexivity|].
    rewrite He.
    destruct (getInputAmount_failure _ _ He) as [-> | ->]; [|reflexivity].
    destruct Hliq; discriminate.
  - unfold bestTradeExactIn. rewrite bestTradeExactIn_rec_search.
    match goal with |- exists r, ?o = Some r /\ _ => destruct o as [r|] eqn:Hrun end.
    + exists r. split; [reflexivity|]. intros e ->.
      eapply searchExactIn_no_liquidity_failure; [|exact Hrun].
      exists [amount], []. split; reflexivity.
    + exfalso. unfold searchExactIn in Hrun.
      eapply search_rec_total; [|exact Hrun]. lia.
  - unfold bestTradeExactOut. rewrite bestTradeExactOut_rec_search.
    match goal with |- exists r, ?o = Some r /\ _ => destruct o as [r|] eqn:Hrun end.
    + exists r. split; [reflexivity|]. intros e ->.
      eapply searchExactOut_no_liquidity_failure; [|exact Hrun].
      exists [amount], []. split; reflexivity.
    + exfalso. unfold searchExactOut in Hrun.
      eapply search_rec_total; [|exact Hrun]. lia.
Qed.
End Liquidity.

(* ------------------------------------------------------------------ *)
(** ** The store *)

Lemma extends_refl (h : Store.t) : extends h h.
Proof. split; [exists []; symmetry; apply app_nil_r|reflexivity]. Qed.

Lemma extends_trans (h1 h2 h3 : Store.t) :
  extends h1 h2 -> extends h2 h3 -> extends h1 h3.
Proof.
  intros [[m1 H1] L1] [[m2 H2] L2]. split.
  - exists (m1 ++ m2). rewrite H2, H1, app_assoc. reflexivity.
  - congruence.
Qed.

Lemma extends_allocPairs (h : Store.t) (l : list Pair) :
  extends h (snd (Store.allocPairs h l)).
Proof. split; [exists [l]; reflexivity|reflexivity]. Qed.

Lemma set_nth_length (A : Type) (n : nat) (v : A) (l : list A) :
  List.length (Store.set_nth n v l) = List.length l.
Proof.
  revert n. induction l as [|x l IH]; intros [|n]; cbn; auto.
Qed.

Lemma set_nth_read (A : Type) (n : nat) (v : A) (l : list A) :
  (n < List.length l)%nat -> nth_error (Store.set_nth n v l) n = Some v.
Proof.
  revert n. induction l as [|x l IH]; intros [|n]; cbn; intros H; try lia; auto.
  apply IH. lia.
Qed.

Lemma extends_writeTrades (h : Store.t) (r : Store.ref) (l : list Trade) :
  extends h (Store.writeTrades h r l).
Proof.
  split; [exists []; symmetry; apply app_nil_r|]. cbn. apply set_nth_length.
Qed.

Lemma readTrades_write (h : Store.t) (r : Store.ref) (old l : list Trade) :
  Store.readTrades h r = Some old ->
  Store.readTrades (Store.writeTrades h r l) r = Some l.
Proof.
  unfold Store.readTrades. cbn. intros H. apply set_nth_read.
  apply nth_error_Some. congruence.
Qed.

(** An array of pairs of a store is unchanged in every store grown from
    it. *)
Lemma extends_readPairs (h h' : Store.t) (r : Store.ref) (l : list Pair) :
  extends h h' -> Store.readPairs h r = Some l -> Store.readPairs h' r = Some l.
Proof.
  intros [[m Hm] _]. unfold Store.readPairs. rewrite Hm. intros H.
  rewrite nth_error_app1; [exact H|]. apply nth_error_Some. congruence.
Qed.

Lemma readTrades_allocPairs (h : Store.t) (l : list Pair) (r : Store.ref) :
  Store.readTrades (snd (Store.allocPairs h l)) r = Store.readTrades h r.
Proof. reflexivity. Qed.

Lemma readPairs_allocPairs (h : Store.t) (l : list Pair) :
  Store.readPairs (snd (Store.allocPairs h l)) (fst (Store.allocPairs h l)) = Some l.
Proof.
  unfold Store.readPairs. cbn. rewrite nth_error_app2 by lia.
  rewrite Nat.sub_diag. reflexivity.
Qed.

Section Refinement.
Variable swap : Pair -> TokenAmount -> result (TokenAmount * Pair).
Variable caught : error -> bool.
Variable extend : list Pair -> Pair -> list Pair.
Variable build : list Pair -> result Trade.
Variable target : Token.
Variable m : Z.

Lemma loop_agrees (rec : recursion) (rec' : Store.recursion)
      amount mh pairsRef curRef btRef ps cur :
  (forall ps' a' cur' bt h prf crf,
      Store.readPairs h prf = Some ps' -> Store.readPairs h crf = Some cur' ->
      Store.readTrades h btRef = Some bt ->
      agrees h btRef (rec ps' a' cur' bt) (rec' prf a' crf btRef h)) ->
  forall rest before bt h,
    ps = before ++ rest ->
    Store.readPairs h pairsRef = Some ps -> Store.readPairs h curRef = Some cur ->
    Store.readTrades h btRef = Some bt ->
    agrees h btRef
      (loopSearch swap caught extend build target m rec amount mh cur before rest bt)
      (Store.loop swap caught extend build target m rec' amount mh
                  pairsRef curRef btRef (List.length rest) (List.length before) h).
Proof.
  intros Hrec. induction rest as [|p after IH]; intros before bt h Hps Hp Hc Hb.
  - cbn [loopSearch Store.loop List.length agrees]. rewrite Hp.
    assert (Hi : (List.length before <? List.length ps)%nat = false).
    { apply Nat.ltb_ge. subst ps. rewrite app_nil_r. lia. }
    rewrite Hi. exists h. split; [reflexivity|]. split; [apply extends_refl|].
    intros bt' E; inversion E; subst; exact Hb.
  - assert (Hnext : ps = (before ++ [p]) ++ after)
      by (rewrite <- app_assoc; exact Hps).
    assert (Hlen : List.length (before ++ [p]) = S (List.length before))
      by (rewrite length_app; cbn; lia).
    assert (Hcont : forall bt1 h1,
               extends h h1 -> Store.readTrades h1 btRef = Some bt1 ->
               agrees h btRef
                 (loopSearch swap caught extend build target m rec amount mh cur
                             (before ++ [p]) after bt1)
                 (Store.loop swap caught extend build target m rec' amount mh
                             pairsRef curRef btRef (List.length after)
                             (S (List.length before)) h1)).
    { intros bt1 h1 He Hb1.
      pose proof (IH (before ++ [p]) bt1 h1 Hnext
                     (@extends_readPairs _ _ _ _ He Hp) (@extends_readPairs _ _ _ _ He Hc) Hb1) as Hn.
      rewrite Hlen in Hn. unfold agrees in *.
      destruct (loopSearch _ _ _ _ _ _ _ _ _ _ _ _ _) as [r|]; [|exact I].
      destruct Hn as (h' & Hrun & He' & Hbt'). exists h'.
      split; [exact Hrun|]. split; [eapply extends_trans; eassumption|exact Hbt']. }
    cbn [loopSearch Store.loop List.length]. rewrite Hp.
    assert (Hi : (List.length before <? List.length ps)%nat = true).
    { apply Nat.ltb_lt. subst ps. rewrite length_app. cbn. lia. }
    rewrite Hi.
    assert (Hnth : nth_error ps (List.length before) = Some p).
    { subst ps. rewrite nth_error_app2 by lia. rewrite Nat.sub_diag. reflexivity. }
    rewrite Hnth.
    destruct (negb _ && negb _); [apply Hcont; [apply extends_refl|exact Hb]|].
    destruct (_ || _); [apply Hcont; [apply extends_refl|exact Hb]|].
    destruct (swap p amount) as [[amount' np]|e].
    2: { destruct (caught e); [apply Hcont; [apply extends_refl|exact Hb]|].
         exists h. split; [reflexivity|]. split; [apply extends_refl|discriminate]. }
    destruct (Token_equals (token amount') target).
    { rewrite Hc. cbn [Store.allocPairs].
      set (h1 := Store.mk _ _).
      assert (He1 : extends h h1) by apply (extends_allocPairs h (extend cur p)).
      destruct (build (extend cur p)) as [t|e]; cbn [bind].
      2: { exists h1. split; [reflexivity|]. split; [exact He1|discriminate]. }
      change (Store.readTrades h1 btRef) with (Store.readTrades h btRef). rewrite Hb.
      destruct (sortedInsert tradeComparator bt t m) as [bt'|e].
      2: { exists h1. split; [reflexivity|]. split; [exact He1|discriminate]. }
      pose proof (Hcont bt' (Store.writeTrades h1 btRef bt')) as Hn.
      unfold agrees in *.
      destruct (loopSearch _ _ _ _ _ _ _ _ _ _ _ _ _) as [r|]; [|exact I].
      apply Hn.
      - eapply extends_trans; [exact He1|apply extends_writeTrades].
      - eapply readTrades_write. exact Hb. }
    replace (List.length ps) with (List.length (before ++ p :: after))
      by (rewrite Hps; reflexivity).
    destruct ((mh >? 1) && (Z.of_nat (List.length (before ++ p :: after)) >? 1));
      [|apply Hcont; [apply extends_refl|exact Hb]].
    cbn [Store.allocPairs].
    set (h1 := Store.mk _ _).
    assert (He1 : extends h h1)
      by apply (extends_allocPairs h (firstn (List.length before) ps
                                        ++ skipn (S (List.length before)) ps)).
    rewrite (@extends_readPairs _ _ _ _ He1 Hc).
    set (h2 := Store.mk _ _).
    assert (He2 : extends h1 h2) by apply (extends_allocPairs h1 (extend cur p)).
    assert (Hexcl : firstn (List.length before) ps
                    ++ skipn (S (List.length before)) ps = before ++ after).
    { subst ps. rewrite firstn_app, Nat.sub_diag, firstn_all. cbn [firstn].
      rewrite app_nil_r. f_equal.
      rewrite skipn_app. rewrite skipn_all2 by lia.
      replace (S (List.length before) - List.length before)%nat with 1%nat by lia.
      reflexivity. }
    pose proof (Hrec (before ++ after) amount' (extend cur p) bt h2
                     (List.length (Store.pairArrays h))
                     (List.length (Store.pairArrays h1))) as Hr.
    assert (Hr1 : Store.readPairs h2 (List.length (Store.pairArrays h))
                  = Some (before ++ after)).
    { apply (@extends_readPairs h1 h2 _ _ He2). rewrite <- Hexcl.
      apply (readPairs_allocPairs h). }
    assert (Hr2 : Store.readPairs h2 (List.length (Store.pairArrays h1))
                  = Some (extend cur p)) by apply (readPairs_allocPairs h1).
    specialize (Hr Hr1 Hr2 Hb). unfold agrees in Hr |- *.
    destruct (rec (before ++ after) amount' (extend cur p) bt) as [[bt'|e]|].
    + destruct Hr as (h3 & Hrun & He3 & Hbt3). cbn [result_ref] in Hrun.
      rewrite Hrun.
      assert (He : extends h h3)
        by (eapply extends_trans; [exact He1|];
            eapply extends_trans; [exact He2|exact He3]).
      pose proof (Hcont bt' h3 He (Hbt3 bt' eq_refl)) as Hn. unfold agrees in Hn.
      exact Hn.
    + destruct Hr as (h3 & Hrun & He3 & _). cbn [result_ref] in Hrun.
      rewrite Hrun. exists h3. split; [reflexivity|]. split; [|discriminate].
      eapply extends_trans; [exact He1|].
      eapply extends_trans; [exact He2|exact He3].
    + exact I.
Qed.
End Refinement.

Lemma search_agrees swap caught extend build target m fuel :
  forall ps amount mh cur same bt h pairsRef curRef btRef,
    Store.readPairs h pairsRef = Some ps -> Store.readPairs h curRef = Some cur ->
    Store.readTrades h btRef = Some bt ->
    agrees h btRef
      (search_rec swap caught extend build target m fuel ps amount mh cur same bt)
      (Store.search swap caught extend build target m fuel pairsRef amount mh
                    curRef same btRef h).
Proof.
  induction fuel as [|fuel IH]; intros ps amount mh cur same bt h pairsRef curRef btRef
                                       Hp Hc Hb;
    cbn [search_rec Store.search]; rewrite Hp, Hc;
    destruct (bind _ _) as [u|e].
  - exact I.
  - exists h. split; [reflexivity|]. split; [apply extends_refl|discriminate].
  - apply (@loop_agrees swap caught extend build target m _ _ amount mh
             pairsRef curRef btRef ps cur) with (before := []) (rest := ps);
      try assumption; try reflexivity.
    intros ps' a' cur' bt' h' prf crf Hp' Hc' Hb'. apply IH; assumption.
  - exists h. split; [reflexivity|]. split; [apply extends_refl|discriminate].
Qed.

(** A call on the store with the recursion parameters at their defaults
    ends as the search on the list [ps] that [pairs] holds does, and leaves
    every array of pairs of the store as it was. *)
Lemma run_agrees swap caught extend build target m pairsRef ps amount mh h r :
  Store.readPairs h pairsRef = Some ps ->
  search_rec swap caught extend build target m (List.length ps) ps amount mh
             [] true [] = Some r ->
  exists h' bestTrades,
    Store.run swap caught extend build target m pairsRef amount mh h
    = Some (h', result_ref bestTrades r)
    /\ (forall a l, Store.readPairs h a = Some l -> Store.readPairs h' a = Some l)
    /\ (forall l, r = Ok l -> Store.readTrades h' bestTrades = Some l).
Proof.
  intros Hp Hrun. unfold Store.run. cbn [Store.allocPairs Store.allocTrades].
  rewrite Hp.
  set (h1 := Store.mk (Store.pairArrays h ++ [[]]) (Store.tradeArrays h)).
  set (h2 := Store.mk _ _).
  assert (He1 : extends h h1) by apply (extends_allocPairs h []).
  assert (Hp2 : Store.readPairs h2 pairsRef = Some ps)
    by apply (@extends_readPairs h h1 _ _ He1 Hp).
  assert (Hc2 : Store.readPairs h2 (List.length (Store.pairArrays h)) = Some [])
    by apply (readPairs_allocPairs h []).
  assert (Hb2 : Store.readTrades h2 (List.length (Store.tradeArrays h1)) = Some []).
  { unfold Store.readTrades, h2. cbn [Store.tradeArrays].
    rewrite nth_error_app2 by lia. rewrite Nat.sub_diag. reflexivity. }
  pose proof (@search_agrees swap caught extend build target m (List.length ps)
                ps amount mh [] true [] h2 _ _ _ Hp2 Hc2 Hb2) as Ha.
  unfold agrees in Ha. rewrite Hrun in Ha.
  destruct Ha as (h' & Hs & He & Hbt).
  exists h', (List.length (Store.tradeArrays h1)).
  split; [exact Hs|]. split; [|exact Hbt].
  intros a l Hl. apply (@extends_readPairs h2 h' _ _ He).
  apply (@extends_readPairs h h1 _ _ He1 Hl).
Qed.

Section Frame.
Variable WETH : ChainId -> Token.

(** C10. On a store where [pairs] refers to the array [ps], both searches
    end, and in the store they leave the array of [pairs], like every
    array of pairs that was there, holds what it held: the candidate
    arrays and the paths of the recursion are new arrays.  What they
    return is what the searches on lists return on [ps]. *)
Theorem pairs_array_unchanged (h : Store.t) (pairsRef : Store.ref)
    (ps : list Pair) (amount : TokenAmount) (tok : Token)
    (options : BestTradeOptions) :
  Store.readPairs h pairsRef = Some ps ->
  (exists h' r,
      Store.bestTradeExactIn WETH pairsRef amount tok options h = Some (h', r)
      /\ Store.readPairs h' pairsRef = Some ps
      /\ (forall a l, Store.readPairs h a = Some l -> Store.readPairs h' a = Some l)
      /\ match r with
         | Ok bestTrades =>
             exists l, Store.readTrades h' bestTrades = Some l
               /\ bestTradeExactIn WETH ps amount tok options = Some (Ok l)
         | Err e => bestTradeExactIn WETH ps amount tok options = Some (Err e)
         end)
  /\
  (exists h' r,
      Store.bestTradeExactOut WETH pairsRef tok amount options h = Some (h', r)
      /\ Store.readPairs h' pairsRef = Some ps
      /\ (forall a l, Store.readPairs h a = Some l -> Store.readPairs h' a = Some l)
      /\ match r with
         | Ok bestTrades =>
             exists l, Store.readTrades h' bestTrades = Some l
               /\ bestTradeExactOut WETH ps tok amount options = Some (Ok l)
         | Err e => bestTradeExactOut WETH ps tok amount options = Some (Err e)
         end).
Proof.
  intros Hp. split.
  - unfold Store.bestTradeExactIn, bestTradeExactIn.
    rewrite bestTradeExactIn_rec_search. unfold searchExactIn.
    match goal with |- context [search_rec ?s ?c ?e ?b ?t ?m ?f ?p ?a ?mh ?cu ?sa ?bt] =>
      destruct (search_rec s c e b t m f p a mh cu sa bt) as [r|] eqn:Hrun end.
    + destruct (@run_agrees _ _ _ _ _ _ pairsRef ps amount (maxHops options) h r
                  Hp Hrun) as (h' & bt & Hs & Hfr & Hbt).
      exists h', (result_ref bt r). split; [exact Hs|].
      split; [apply Hfr; exact Hp|]. split; [exact Hfr|].
      destruct r as [l|e]; cbn [result_ref]; [|reflexivity].
      exists l. split; [apply Hbt|]; reflexivity.
    + exfalso. eapply search_rec_total; [|exact Hrun]. lia.
  - unfold Store.bestTradeExactOut, bestTradeExactOut.
    rewrite bestTradeExactOut_rec_search. unfold searchExactOut.
    match goal with |- context [search_rec ?s ?c ?e ?b ?t ?m ?f ?p ?a ?mh ?cu ?sa ?bt] =>
      destruct (search_rec s c e b t m f p a mh cu sa bt) as [r|] eqn:Hrun end.
    + destruct (@run_agrees _ _ _ _ _ _ pairsRef ps amount (maxHops options) h r
                  Hp Hrun) as (h' & bt & Hs & Hfr & Hbt).
      exists h', (result_ref bt r). split; [exact Hs|].
      split; [apply Hfr; exact Hp|]. split; [exact Hfr|].
      destruct r as [l|e]; cbn [result_ref]; [|reflexivity].
      exists l. split; [apply Hbt|]; reflexivity.
    + exfalso. eapply search_rec_total; [|exact Hrun]. lia.
Qed.
End Frame.

(* ================================================================== *)
(** * The model at work *)

Module Examples.
Import Sample.

(** Section 8 of the specification: with reserves 1000/1000, 100 in gives
    90 out, and 90 out asks for at least 100 in. *)
Example getOutputAmount_100 :
  getOutputAmount pAB hundredA
  = Ok (mkTokenAmount tB 90,
        mkPair (mkTokenAmount tA 1100) (mkTokenAmount tB 910)).
Proof. reflexivity. Qed.

Example getInputAmount_90 :
  getInputAmount pAB (mkTokenAmount tB 90)
  = Ok (mkTokenAmount tA 100,
        mkPair (mkTokenAmount tA 1100) (mkTokenAmount tB 910)).
Proof. reflexivity. Qed.

Example getOutputAmount_too_little :
  getOutputAmount pAB (mkTokenAmount tA 1) = Err InsufficientInputAmountError.
Proof. reflexivity. Qed.

Example getInputAmount_too_much :
  getInputAmount pAB (mkTokenAmount tB 1000) = Err InsufficientReservesError.
Proof. reflexivity. Qed.

(** 100 A for C: the direct pair gives 99, the two hops give 82. *)
Example bestTradeExactIn_sample :
  summaries (bestTradeExactIn weth all hundredA tC defaultOptions)
  = Some (Ok [(1%nat, 100, 99); (2%nat, 100, 82)]).
Proof. vm_compute. reflexivity. Qed.

(** A for 50 C: the direct pair asks 48, the two hops ask 57. *)
Example bestTradeExactOut_sample :
  summaries (bestTradeExactOut weth all tA fiftyC defaultOptions)
  = Some (Ok [(1%nat, 48, 50); (2%nat, 57, 50)]).
Proof. vm_compute. reflexivity. Qed.

Example bestTradeExactIn_one_result :
  summaries (bestTradeExactIn weth all hundredA tC (mkOptions 1 3))
  = Some (Ok [(1%nat, 100, 99)]).
Proof. vm_compute. reflexivity. Qed.

Example bestTradeExactIn_one_hop :
  summaries (bestTradeExactIn weth all hundredA tC (mkOptions 3 1))
  = Some (Ok [(1%nat, 100, 99)]).
Proof. vm_compute. reflexivity. Qed.

(** An input too small for the pair A/B: the failure is skipped. *)
Example bestTradeExactIn_dust :
  bestTradeExactIn weth [pAB; pBC] (mkTokenAmount tA 1) tC defaultOptions
  = Some (Ok []).
Proof. vm_compute. reflexivity. Qed.

(** More C than the direct pair and the pair B/C hold. *)
Example bestTradeExactOut_drained :
  bestTradeExactOut weth all tA (mkTokenAmount tC 1100) defaultOptions = Some (Ok []).
Proof. vm_compute. reflexivity. Qed.

Example bestTradeExactIn_no_pairs :
  bestTradeExactIn weth [] hundredA tC defaultOptions
  = Some (Err (InvariantError "PAIRS")).
Proof. reflexivity. Qed.

Example bestTradeExactIn_no_hops :
  bestTradeExactIn weth all hundredA tC (mkOptions 3 0)
  = Some (Err (InvariantError "MAX_HOPS")).
Proof. reflexivity. Qed.

(** The search on the store returns the array of trades it filled. *)
Example store_bestTradeExactIn_sample :
  match Store.bestTradeExactIn weth 0%nat hundredA tC defaultOptions store with
  | Some (h', Ok bestTrades) =>
      Store.readPairs h' 0%nat = Some all
      /\ option_map (map summary) (Store.readTrades h' bestTrades)
         = Some [(1%nat, 100, 99); (2%nat, 100, 82)]
  | _ => False
  end.
Proof. vm_compute. split; reflexivity. Qed.

Example store_bestTradeExactOut_sample :
  match Store.bestTradeExactOut weth 0%nat tA fiftyC defaultOptions store with
  | Some (h', Ok bestTrades) =>
      Store.readPairs h' 0%nat = Some all
      /\ option_map (map summary) (Store.readTrades h' bestTrades)
         = Some [(1%nat, 48, 50); (2%nat, 57, 50)]
  | _ => False
  end.
Proof. vm_compute. split; reflexivity. Qed.

(** The arrays the search on the store allocated: the empty [currentPairs]
    of the call, then for the pair A/B the candidates without it and the
    current pairs with it, then the two paths of the trades found. *)
Example store_bestTradeExactIn_arrays :
  match Store.bestTradeExactIn weth 0%nat hundredA tC defaultOptions store with
  | Some (h', _) =>
      Store.pairArrays h'
      = [all; []; [pBC; pAC]; [pAB]; [pAB; pBC]; [pAC]]
  | None => False
  end.
Proof. vm_compute. reflexivity. Qed.

Example minimumAmountOut_sample :
  option_map raw (match minimumAmountOut tradeAC fivePercent with
                  | Ok a => Some a | Err _ => None end) = Some 94.
Proof. reflexivity. Qed.

Example maximumAmountIn_sample :
  option_map raw (match maximumAmountIn tradeACout fivePercent with
                  | Ok a => Some a | Err _ => None end) = Some 50.
Proof. reflexivity. Qed.

Example tradeComparator_sample : tradeComparator tradeAC tradeABC = Ok (-1).
Proof. reflexivity. Qed.
End Examples.

(* ================================================================== *)
(** * The theorems at the sample data *)

Module Witness.
Import Sample.

Local Open Scope Q_scope.
Local Open Scope Z_scope.

Lemma bestTrade_bounded_ranked_witness :
  0 <= maxNumResults (mkOptions 1 3)
  /\ exists best second,
       bestTradeExactIn weth all hundredA tC defaultOptions
       = Some (Ok [best; second])
       /\ ranked tradeComparator [best; second]
       /\ bestTradeExactIn weth all hundredA tC (mkOptions 1 3) = Some (Ok [best]).
Proof.
  split; [vm_compute; discriminate|].
  destruct (bestTradeExactIn weth all hundredA tC defaultOptions)
    as [[[|best [|second [|third L]]]|e]|] eqn:Hrun;
    try (exfalso; revert Hrun; vm_compute; discriminate).
  exists best, second. split; [reflexivity|].
  apply (proj1 (proj2 (proj2 (proj2 (proj2 (proj2
           (bestTrade_bounded_ranked weth all hundredA tC (mkOptions 1 3)
              ltac:(vm_compute; discriminate)))))))
           defaultOptions [best; second]);
    [vm_compute; discriminate|reflexivity|exact Hrun].
Defined.

Lemma sample_pairs_distinct : NoDup all.
Proof. unfold all. repeat constructor; cbn [In]; intuition discriminate. Qed.

Lemma bestTrade_simple_routes_witness :
  NoDup all
  /\ exists r, bestTradeExactIn weth all hundredA tC defaultOptions = Some r /\
       forall l t, r = Ok l -> In t l ->
         NoDup (pairs (route t))
         /\ Z.of_nat (List.length (pairs (route t))) <= maxHops defaultOptions.
Proof.
  split; [exact sample_pairs_distinct|].
  destruct (proj1 (bestTrade_simple_routes weth all hundredA tC defaultOptions))
    as (r & Hr & H).
  exists r. split; [exact Hr|]. intros l t Hl Ht.
  destruct (H l t Hl Ht) as ((_ & Hlen) & _ & Hnd).
  split; [exact (Hnd sample_pairs_distinct)|exact Hlen].
Defined.

Lemma maximumAmountIn_spec_witness :
  0 < Fraction.denominator fivePercent
  /\ exists a, maximumAmountIn tradeACout fivePercent = Ok a
       /\ currency a = currency (inputAmount tradeACout)
       /\ raw a = truncate (inject_Z (raw (inputAmount tradeACout))
                            * (1 + Fraction.toQ fivePercent)).
Proof.
  split; [reflexivity|].
  apply (proj2 (maximumAmountIn_spec tradeACout fivePercent eq_refl)).
  vm_compute. discriminate.
Defined.

Lemma minimumAmountOut_spec_witness :
  0 < Fraction.denominator fivePercent
  /\ exists a, minimumAmountOut tradeAC fivePercent = Ok a
       /\ currency a = currency (outputAmount tradeAC)
       /\ raw a = truncate (inject_Z (raw (outputAmount tradeAC))
                            / (1 + Fraction.toQ fivePercent)).
Proof.
  split; [reflexivity|].
  apply (proj2 (minimumAmountOut_spec tradeAC fivePercent eq_refl)).
  vm_compute. discriminate.
Defined.

Lemma minimumAmountOut_antitone_witness :
  tradeType tradeAC = EXACT_INPUT
  /\ 0 <= raw (outputAmount tradeAC)
  /\ 0 < Fraction.denominator onePercent
  /\ 0 < Fraction.denominator fivePercent
  /\ exists a1 a2,
       minimumAmountOut tradeAC onePercent = Ok a1
       /\ minimumAmountOut tradeAC fivePercent = Ok a2
       /\ raw a2 <= raw a1.
Proof.
  repeat split; try (vm_compute; discriminate).
  apply (proj1 (@minimumAmountOut_antitone tradeAC onePercent fivePercent
                  eq_refl ltac:(vm_compute; discriminate) eq_refl eq_refl));
    vm_compute; discriminate.
Defined.

Lemma priceImpact_exact_witness :
  newTrade weth routeABC (OfToken hundredA) EXACT_INPUT = Ok tradeABC
  /\ (Fraction.toQ (priceImpact tradeABC)
      == (Fraction.toQ (price_raw (midPrice routeABC))
          * inject_Z (raw (inputAmount tradeABC))
          - inject_Z (raw (outputAmount tradeABC)))
         / (Fraction.toQ (price_raw (midPrice routeABC))
            * inject_Z (raw (inputAmount tradeABC))))%Q.
Proof.
  split; [vm_compute; reflexivity|].
  apply (@priceImpact_exact weth routeABC (OfToken hundredA) EXACT_INPUT tradeABC).
  vm_compute; reflexivity.
Defined.

Lemma pairs_array_unchanged_witness :
  Store.readPairs store 0%nat = Some all
  /\ exists h' r,
       Store.bestTradeExactIn weth 0%nat hundredA tC defaultOptions store
       = Some (h', r)
       /\ Store.readPairs h' 0%nat = Some all
       /\ (forall a l, Store.readPairs store a = Some l ->
                       Store.readPairs h' a = Some l)
       /\ match r with
          | Ok bestTrades =>
              exists l, Store.readTrades h' bestTrades = Some l
                /\ bestTradeExactIn weth all hundredA tC defaultOptions = Some (Ok l)
          | Err e => bestTradeExactIn weth all hundredA tC defaultOptions
                     = Some (Err e)
          end.
Proof.
  split; [reflexivity|].
  exact (proj1 (@pairs_array_unchanged weth store 0%nat all hundredA tC
                  defaultOptions eq_refl)).
Defined.
Lemma liquidity_failures_skipped_witness :
  liquidity_failure InsufficientInputAmountError
  /\ getOutputAmount pAB (mkTokenAmount tA 1) = Err InsufficientInputAmountError
  /\ forall rec m mh cur orig before after bt,
       loopExactIn weth rec (mkTokenAmount tA 1) tC m mh cur orig
                   before (pAB :: after) bt
       = loopExactIn weth rec (mkTokenAmount tA 1) tC m mh cur orig
                     (before ++ [pAB]) after bt.
Proof.
  split; [right; reflexivity|]. split; [reflexivity|].
  intros rec m mh cur orig before after bt.
  apply (proj1 (liquidity_failures_skipped weth [] (mkTokenAmount tA 1) tC
                  defaultOptions))
    with (e := InsufficientInputAmountError); [right; reflexivity|reflexivity].
Defined.

Lemma tradeComparator_ranking_witness :
  currencyEquals (currency (inputAmount tradeAC)) (currency (inputAmount tradeABC))
  = true
  /\ currencyEquals (currency (outputAmount tradeAC)) (currency (outputAmount tradeABC))
     = true
  /\ (amount_value (outputAmount tradeABC) < amount_value (outputAmount tradeAC))%Q
  /\ exists c, tradeComparator tradeAC tradeABC = Ok c /\ c < 0.
Proof.
  split; [reflexivity|]. split; [reflexivity|].
  assert (Hlt : (amount_value (outputAmount tradeABC)
                 < amount_value (outputAmount tradeAC))%Q) by reflexivity.
  split; [exact Hlt|].
  destruct (proj1 (tradeComparator_ranking tradeAC tradeABC) eq_refl eq_refl)
    as (c & Hc & Hfirst & _).
  exists c. split; [exact Hc|exact (Hfirst Hlt)].
Defined.

Lemma newTrade_endpoint_witness :
  ~ matches_endpoint weth (currency (OfToken (mkTokenAmount tB 5)))
      (endpoint routeAC EXACT_INPUT)
  /\ newTrade weth routeAC (OfToken (mkTokenAmount tB 5)) EXACT_INPUT
     = Err (InvariantError (endpoint_message EXACT_INPUT)).
Proof.
  assert (Hn : ~ matches_endpoint weth (currency (OfToken (mkTokenAmount tB 5)))
                   (endpoint routeAC EXACT_INPUT)) by (cbn; discriminate).
  split; [exact Hn|].
  exact (proj1 (newTrade_endpoint weth routeAC (OfToken (mkTokenAmount tB 5))
                  EXACT_INPUT) Hn).
Defined.
End Witness.

(* ================================================================== *)
(** * Further properties of the comparators *)

Lemma Token_equals_trans (a b c : Token) :
  Token_equals a b = true -> Token_equals b c = true -> Token_equals a c = true.
Proof.
  unfold Token_equals. intros H1 H2.
  apply andb_prop in H1. destruct H1 as [H1 H1'].
  apply andb_prop in H2. destruct H2 as [H2 H2'].
  apply Z.eqb_eq in H1, H2. apply String.eqb_eq in H1', H2'.
  rewrite H1, H2, H1', H2', Z.eqb_refl, String.eqb_refl. reflexivity.
Qed.

Lemma currencyEquals_refl (a : Currency) : currencyEquals a a = true.
Proof. destruct a; cbn [currencyEquals]; auto using Token_equals_refl. Qed.

Lemma currencyEquals_trans (a b c : Currency) :
  currencyEquals a b = true -> currencyEquals b c = true -> currencyEquals a c = true.
Proof.
  destruct a, b, c; cbn [currencyEquals]; try discriminate; auto.
  apply Token_equals_trans.
Qed.

(** X1. Both comparators are antisymmetric: when a comparison of two
    trades returns [c], the comparison with the arguments swapped returns
    [-c], so one order puts a trade first exactly when the other order
    puts it second. *)
Theorem comparators_antisymmetric (a b : Trade) (c : Z) :
  (inputOutputComparator (inputAmount a) (outputAmount a)
                         (inputAmount b) (outputAmount b) = Ok c ->
   inputOutputComparator (inputAmount b) (outputAmount b)
                         (inputAmount a) (outputAmount a) = Ok (- c))
  /\ (tradeComparator a b = Ok c -> tradeComparator b a = Ok (- c)).
Proof.
  split; [apply inputOutputComparator_swap|apply tradeComparator_swap].
Qed.

Lemma inputOutputComparator_success (aIn aOut bIn bOut : CurrencyAmount) (c : Z) :
  inputOutputComparator aIn aOut bIn bOut = Ok c ->
  currencyEquals (currency aIn) (currency bIn) = true
  /\ currencyEquals (currency aOut) (currency bOut) = true.
Proof.
  unfold inputOutputComparator, invariant.
  destruct (currencyEquals (currency aIn) (currency bIn)); cbn [bind]; [|discriminate].
  destruct (currencyEquals (currency aOut) (currency bOut)); cbn [bind]; [|discriminate].
  auto.
Qed.

Lemma impact_lt (a b : Trade) :
  0 < Fraction.denominator (priceImpact a) ->
  0 < Fraction.denominator (priceImpact b) ->
  (frac_lt (priceImpact a) (priceImpact b) <-> (impact_value a < impact_value b)%Q).
Proof. intros Ha Hb. unfold impact_value. apply frac_lt_toQ; assumption. Qed.

Lemma impact_eq (a b : Trade) :
  0 < Fraction.denominator (priceImpact a) ->
  0 < Fraction.denominator (priceImpact b) ->
  (frac_eq (priceImpact a) (priceImpact b) <-> (impact_value a == impact_value b)%Q).
Proof.
  intros Ha Hb. unfold impact_value, frac_eq.
  destruct (priceImpact a) as [na da], (priceImpact b) as [nb db];
    cbn [Fraction.numerator Fraction.denominator] in *.
  destruct da as [|pa|pa]; try lia. destruct db as [|pb|pb]; try lia.
  rewrite !toQ_pos_den. unfold Qeq; cbn [Qnum Qden]. reflexivity.
Qed.

(** The sign of [tradeComparator] is the ranking [ranks_before]. *)
Lemma tradeComparator_sign (a b : Trade) (c : Z) :
  0 < Fraction.denominator (priceImpact a) ->
  0 < Fraction.denominator (priceImpact b) ->
  tradeComparator a b = Ok c ->
  (c <= 0 <-> ranks_before a b).
Proof.
  intros Ha Hb Hc. unfold tradeComparator in Hc.
  destruct (inputOutputComparator (inputAmount a) (outputAmount a)
              (inputAmount b) (outputAmount b)) as [io|e] eqn:Hio; [|discriminate].
  destruct (inputOutputComparator_success _ _ _ _ Hio) as [Hi Ho].
  destruct (inputOutputComparator_ok _ _ _ _ Hi Ho) as (io' & Hio' & H0 & Hneg & Hpos).
  rewrite Hio in Hio'. inversion Hio'; subst io'. clear Hio'.
  rewrite !amount_lessThan_value, !amount_equalTo_value in *.
  cbn [bind] in Hc. unfold ranks_before.
  pose proof (@impact_lt a b Ha Hb) as Hlt. pose proof (@impact_lt b a Hb Ha) as Hgt.
  pose proof (@impact_eq a b Ha Hb) as Heq.
  unfold frac_lt, frac_eq in Hlt, Hgt, Heq.
  unfold Fraction.lessThan, Fraction.greaterThan in Hc. rewrite Z.gtb_ltb in Hc.
  set (x := Fraction.numerator (priceImpact a) * Fraction.denominator (priceImpact b)) in *.
  set (y := Fraction.numerator (priceImpact b) * Fraction.denominator (priceImpact a)) in *.
  set (oa := amount_value (outputAmount a)) in *.
  set (ob := amount_value (outputAmount b)) in *.
  set (ia := amount_value (inputAmount a)) in *.
  set (ib := amount_value (inputAmount b)) in *.
  set (pa := impact_value a) in *. set (pb := impact_value b) in *.
  destruct (Z.eqb_spec io 0) as [E|N]; cbn [negb] in Hc.
  - destruct (proj1 H0 E) as [Eo Ei].
    destruct (Z.ltb_spec x y) as [L|L].
    + inversion Hc; subst c. apply Hlt in L.
      split; [intros _|lia]. right. split; [exact Eo|]. right. split; [exact Ei|].
      left. exact L.
    + destruct (Z.ltb_spec y x) as [G|G].
      * inversion Hc; subst c. apply Hgt in G. split; [lia|].
        intros [H|[_ [H|[_ [H|[H _]]]]]]; lra.
      * inversion Hc; subst c.
        assert (Epi : (pa == pb)%Q) by (apply Heq; lia).
        unfold hops. split.
        -- intros Hh. right. split; [exact Eo|]. right. split; [exact Ei|].
           right. split; [exact Epi|lia].
        -- intros [H|[_ [H|[_ [H|[_ H]]]]]]; try lra. lia.
  - inversion Hc; subst c. split.
    + intros Hle. assert (Hl : io < 0) by lia. apply Hneg in Hl.
      destruct Hl as [Hl|[Hl1 Hl2]]; [left; exact Hl|].
      right. split; [exact Hl1|]. left. exact Hl2.
    + intros Hr. destruct (Z.lt_trichotomy io 0) as [Hl|[Hl|Hl]]; [lia|lia|].
      exfalso. apply Hpos in Hl.
      destruct Hr as [H|[Eo [H|[Ei _]]]]; destruct Hl as [Hl|[Hl1 Hl2]]; lra.
Qed.

Lemma ranks_before_trans (a b c : Trade) :
  ranks_before a b -> ranks_before b c -> ranks_before a c.
Proof.
  unfold ranks_before.
  set (oa := amount_value (outputAmount a)). set (ob := amount_value (outputAmount b)).
  set (oc := amount_value (outputAmount c)).
  set (ia := amount_value (inputAmount a)). set (ib := amount_value (inputAmount b)).
  set (ic := amount_value (inputAmount c)).
  set (pa := impact_value a). set (pb := impact_value b). set (pc := impact_value c).
  intros [H1|[E1 [H1|[F1 [H1|[G1 H1]]]]]] [H2|[E2 [H2|[F2 [H2|[G2 H2]]]]]];
    try (left; lra);
    right; (split; [lra|]);
    try (left; lra);
    right; (split; [lra|]);
    try (left; lra);
    right; (split; [lra|lia]).
Qed.

(** X2. Both comparators return 0 on a trade against itself, whatever the
    trade. *)
Theorem comparators_reflexive (a : Trade) :
  inputOutputComparator (inputAmount a) (outputAmount a)
                        (inputAmount a) (outputAmount a) = Ok 0
  /\ tradeComparator a a = Ok 0.
Proof.
  assert (Hio : inputOutputComparator (inputAmount a) (outputAmount a)
                  (inputAmount a) (outputAmount a) = Ok 0).
  { unfold inputOutputComparator, invariant. rewrite !currencyEquals_refl. cbn [bind].
    unfold amount_equalTo, Fraction.equalTo. rewrite !Z.eqb_refl. reflexivity. }
  split; [exact Hio|].
  unfold tradeComparator. rewrite Hio. cbn [bind Z.eqb negb].
  unfold Fraction.lessThan, Fraction.greaterThan.
  rewrite Z.gtb_ltb, Z.ltb_irrefl. f_equal. lia.
Qed.

(** X3. On trades whose price impacts have positive denominators
    [tradeComparator] is transitive: when [a] ranks no later than [b] and
    [b] no later than [c], the comparison of [a] with [c] succeeds and
    ranks [a] no later than [c], and strictly before it when one of the
    two given comparisons is strict. *)
Theorem tradeComparator_transitive (a b c : Trade) (x y : Z) :
  0 < Fraction.denominator (priceImpact a) ->
  0 < Fraction.denominator (priceImpact b) ->
  0 < Fraction.denominator (priceImpact c) ->
  tradeComparator a b = Ok x -> x <= 0 ->
  tradeComparator b c = Ok y -> y <= 0 ->
  exists z, tradeComparator a c = Ok z /\ z <= 0 /\ (x < 0 \/ y < 0 -> z < 0).
Proof.
  intros Ha Hb Hc Hx Hx0 Hy Hy0.
  assert (Hok : exists z, tradeComparator a c = Ok z).
  { unfold tradeComparator in Hx, Hy |- *.
    destruct (inputOutputComparator (inputAmount a) (outputAmount a)
                (inputAmount b) (outputAmount b)) as [i1|e] eqn:H1; [|discriminate].
    destruct (inputOutputComparator (inputAmount b) (outputAmount b)
                (inputAmount c) (outputAmount c)) as [i2|e] eqn:H2; [|discriminate].
    destruct (inputOutputComparator_success _ _ _ _ H1) as [Hi1 Ho1].
    destruct (inputOutputComparator_success _ _ _ _ H2) as [Hi2 Ho2].
    destruct (inputOutputComparator_ok _ _ _ _
                (currencyEquals_trans _ _ _ Hi1 Hi2)
                (currencyEquals_trans _ _ _ Ho1 Ho2)) as (i3 & H3 & _).
    rewrite H3. cbn [bind].
    repeat match goal with
           | |- context [if ?t then _ else _] => destruct t
           end; eexists; reflexivity. }
  destruct Hok as [z Hz]. exists z. split; [exact Hz|].
  pose proof (proj1 (@tradeComparator_sign a b x Ha Hb Hx) Hx0) as Rab.
  pose proof (proj1 (@tradeComparator_sign b c y Hb Hc Hy) Hy0) as Rbc.
  pose proof (ranks_before_trans Rab Rbc) as Rac.
  split; [apply (@tradeComparator_sign a c z Ha Hc Hz); exact Rac|].
  intros Hstrict.
  destruct (Z.lt_ge_cases z 0) as [|Hz0]; [assumption|exfalso].
  pose proof (tradeComparator_swap _ _ Hz) as Hz'.
  assert (Rca : ranks_before c a)
    by (apply (@tradeComparator_sign c a (- z) Hc Ha Hz'); lia).
  destruct Hstrict as [Hs|Hs].
  - pose proof (tradeComparator_swap _ _ Hx) as Hx'.
    pose proof (ranks_before_trans Rbc Rca) as Rba.
    apply (@tradeComparator_sign b a (- x) Hb Ha Hx') in Rba. lia.
  - pose proof (tradeComparator_swap _ _ Hy) as Hy'.
    pose proof (ranks_before_trans Rca Rab) as Rcb.
    apply (@tradeComparator_sign c b (- y) Hc Hb Hy') in Rcb. lia.
Qed.

Lemma tradeComparator_defined (a b : Trade) :
  currencyEquals (currency (inputAmount a)) (currency (inputAmount b)) = true ->
  currencyEquals (currency (outputAmount a)) (currency (outputAmount b)) = true ->
  exists c, tradeComparator a b = Ok c.
Proof.
  intros Hi Ho. unfold tradeComparator, inputOutputComparator, invariant.
  rewrite Hi, Ho. cbn [bind].
  repeat match goal with
         | |- context [if ?c then _ else _] => destruct c; cbn [bind negb Z.eqb]
         end; eexists; reflexivity.
Qed.

(** X4. The comparators fail exactly on a mismatch of assets, and test the
    input assets first: each fails with [INPUT_CURRENCY] if and only if
    the input assets differ, with [OUTPUT_CURRENCY] if and only if the
    input assets match and the output assets differ, and with nothing
    else; [tradeComparator] fails exactly when [inputOutputComparator]
    does, with the same failure.  A failure does not depend on the order
    of the two trades, and trades that can be compared with a common
    trade can be compared with each other. *)
Theorem comparators_failure_order (a b c : Trade) :
  (forall e,
      inputOutputComparator (inputAmount a) (outputAmount a)
                            (inputAmount b) (outputAmount b) = Err e
      <-> (currencyEquals (currency (inputAmount a)) (currency (inputAmount b)) = false
           /\ e = InvariantError "INPUT_CURRENCY")
          \/ (currencyEquals (currency (inputAmount a)) (currency (inputAmount b)) = true
              /\ currencyEquals (currency (outputAmount a)) (currency (outputAmount b))
                 = false
              /\ e = InvariantError "OUTPUT_CURRENCY"))
  /\
  (forall e,
      tradeComparator a b = Err e
      <-> inputOutputComparator (inputAmount a) (outputAmount a)
                                (inputAmount b) (outputAmount b) = Err e)
  /\
  (forall e, tradeComparator a b = Err e -> tradeComparator b a = Err e)
  /\
  ((exists x, tradeComparator a b = Ok x) ->
   (exists y, tradeComparator b c = Ok y) ->
   exists z, tradeComparator a c = Ok z).
Proof.
  assert (Hio : forall u v e,
             inputOutputComparator (inputAmount u) (outputAmount u)
                                   (inputAmount v) (outputAmount v) = Err e
             <-> (currencyEquals (currency (inputAmount u)) (currency (inputAmount v))
                  = false /\ e = InvariantError "INPUT_CURRENCY")
                 \/ (currencyEquals (currency (inputAmount u)) (currency (inputAmount v))
                     = true
                     /\ currencyEquals (currency (outputAmount u))
                                       (currency (outputAmount v)) = false
                     /\ e = InvariantError "OUTPUT_CURRENCY")).
  { intros u v e. unfold inputOutputComparator, invariant.
    destruct (currencyEquals (currency (inputAmount u)) (currency (inputAmount v)));
      cbn [bind].
    - destruct (currencyEquals (currency (outputAmount u)) (currency (outputAmount v)));
        cbn [bind].
      + repeat match goal with
               | |- context [if ?t then _ else _] => destruct t
               end; split; try discriminate; intros [[? _]|(_ & ? & _)]; discriminate.
      + split.
        * intros H; inversion H. right. auto.
        * intros [[? _]|(_ & _ & ->)]; [discriminate|reflexivity].
    - split.
      + intros H; inversion H. left. auto.
      + intros [[_ ->]|(? & _)]; [reflexivity|discriminate]. }
  assert (Htc : forall u v e,
             tradeComparator u v = Err e
             <-> inputOutputComparator (inputAmount u) (outputAmount u)
                                       (inputAmount v) (outputAmount v) = Err e).
  { intros u v e. unfold tradeComparator.
    destruct (inputOutputComparator (inputAmount u) (outputAmount u)
                (inputAmount v) (outputAmount v)) as [x|e']; cbn [bind].
    - repeat match goal with
             | |- context [if ?t then _ else _] => destruct t
             end; split; discriminate.
    - reflexivity. }
  split; [apply Hio|]. split; [apply Htc|]. split.
  - intros e He. apply Htc. apply Htc in He. apply Hio. apply Hio in He.
    rewrite (currencyEquals_sym (currency (inputAmount b))),
            (currencyEquals_sym (currency (outputAmount b))).
    exact He.
  - intros [x Hx] [y Hy]. unfold tradeComparator in Hx, Hy.
    destruct (inputOutputComparator (inputAmount a) (outputAmount a)
                (inputAmount b) (outputAmount b)) as [x0|e] eqn:Hab;
      cbn [bind] in Hx; [|discriminate].
    destruct (inputOutputComparator (inputAmount b) (outputAmount b)
                (inputAmount c) (outputAmount c)) as [y0|e] eqn:Hbc;
      cbn [bind] in Hy; [|discriminate].
    destruct (inputOutputComparator_success _ _ _ _ Hab) as [Hi1 Ho1].
    destruct (inputOutputComparator_success _ _ _ _ Hbc) as [Hi2 Ho2].
    apply tradeComparator_defined; eapply currencyEquals_trans; eassumption.
Qed.

(** X5. [inputOutputComparator] returns -1, 0 or 1, and 0 exactly when
    both amounts are equal in value; [tradeComparator] returns 0 exactly
    when, besides, the price impacts are equal by cross-multiplication and
    the paths have the same length. *)
Theorem comparators_tie (a b : Trade) (c : Z) :
  (inputOutputComparator (inputAmount a) (outputAmount a)
                         (inputAmount b) (outputAmount b) = Ok c ->
   (c = -1 \/ c = 0 \/ c = 1)
   /\ (c = 0 <->
       (amount_value (outputAmount a) == amount_value (outputAmount b))%Q
       /\ (amount_value (inputAmount a) == amount_value (inputAmount b))%Q))
  /\
  (tradeComparator a b = Ok c ->
   (c = 0 <->
    (amount_value (outputAmount a) == amount_value (outputAmount b))%Q
    /\ (amount_value (inputAmount a) == amount_value (inputAmount b))%Q
    /\ frac_eq (priceImpact a) (priceImpact b)
    /\ hops a = hops b)).
Proof.
  assert (Hrange : forall io,
             inputOutputComparator (inputAmount a) (outputAmount a)
               (inputAmount b) (outputAmount b) = Ok io ->
             io = -1 \/ io = 0 \/ io = 1).
  { intros io. unfold inputOutputComparator, invariant.
    repeat match goal with
           | |- context [if ?t then _ else _] => destruct t; cbn [bind]
           end; intros H; inversion H; auto. }
  assert (Hzero : forall io,
             inputOutputComparator (inputAmount a) (outputAmount a)
               (inputAmount b) (outputAmount b) = Ok io ->
             (io = 0 <->
              (amount_value (outputAmount a) == amount_value (outputAmount b))%Q
              /\ (amount_value (inputAmount a) == amount_value (inputAmount b))%Q)).
  { intros io Hio.
    destruct (inputOutputComparator_success _ _ _ _ Hio) as [Hi Ho].
    destruct (inputOutputComparator_ok _ _ _ _ Hi Ho) as (io' & Hio' & H0 & _).
    rewrite Hio in Hio'. inversion Hio'; subst io'.
    rewrite !amount_equalTo_value in H0. exact H0. }
  split.
  - intros Hio. split; [apply Hrange; exact Hio|apply Hzero; exact Hio].
  - unfold tradeComparator.
    destruct (inputOutputComparator (inputAmount a) (outputAmount a)
                (inputAmount b) (outputAmount b)) as [io|e] eqn:Hio; [|discriminate].
    cbn [bind]. specialize (Hzero io eq_refl).
    unfold Fraction.lessThan, Fraction.greaterThan, frac_eq, hops.
    rewrite Z.gtb_ltb.
    set (x := Fraction.numerator (priceImpact a) * Fraction.denominator (priceImpact b)).
    set (y := Fraction.numerator (priceImpact b) * Fraction.denominator (priceImpact a)).
    destruct (Z.eqb_spec io 0) as [E|N]; cbn [negb].
    + destruct (Z.ltb_spec x y) as [L|L]; [|destruct (Z.ltb_spec y x) as [G|G]];
        intros Hres; inversion Hres; subst c;
        (split; [intros Hc0; try lia|intros (_ & _ & Hx & Hh); try lia]).
      repeat split; try lia; apply Hzero; exact E.
    + intros Hres; inversion Hres; subst c. split; [intros; contradiction|].
      intros (Ho & Hi & _). apply Hzero. split; assumption.
Qed.

(* ================================================================== *)
(** * Further properties of the slippage bounds *)

Lemma raw_with_raw (a : CurrencyAmount) (x : Z) : raw (with_raw a x) = x.
Proof. destruct a; reflexivity. Qed.

Lemma with_raw_same (a : CurrencyAmount) : with_raw a (raw a) = a.
Proof. destruct a as [[tk r]|c r]; reflexivity. Qed.

Lemma slippageAdjustedAmountOut_value (r : Z) (tol : Percent) :
  Fraction.quotient
    (Fraction.multiply
       (Fraction.invert (Fraction.add (Fraction.of_int ONE) tol))
       (Fraction.of_int r))
  = Z.quot (Fraction.denominator tol * r)
           (Fraction.denominator tol + Fraction.numerator tol).
Proof.
  unfold Fraction.quotient, Fraction.multiply, Fraction.invert, Fraction.add,
    Fraction.of_int, ONE; cbn [Fraction.numerator Fraction.denominator].
  f_equal; lia.
Qed.

Lemma slippageAdjustedAmountIn_value (r : Z) (tol : Percent) :
  Fraction.quotient
    (Fraction.multiply (Fraction.add (Fraction.of_int ONE) tol) (Fraction.of_int r))
  = Z.quot ((Fraction.denominator tol + Fraction.numerator tol) * r)
           (Fraction.denominator tol).
Proof.
  unfold Fraction.quotient, Fraction.multiply, Fraction.add,
    Fraction.of_int, ONE; cbn [Fraction.numerator Fraction.denominator].
  f_equal; lia.
Qed.

Lemma tolerance_accepted (tol : Percent) :
  0 <= Fraction.numerator tol ->
  invariant (negb (Fraction.lessThan tol (Fraction.of_int ZERO))) "SLIPPAGE_TOLERANCE"
  = Ok tt.
Proof.
  intros H. rewrite lessThan_ZERO.
  destruct (Z.ltb_spec (Fraction.numerator tol) 0); [lia|reflexivity].
Qed.

(** X6. On an [EXACT_INPUT] trade with a non-negative output, for a
    tolerance [n/d] with [d > 0] and [n >= 0], [minimumAmountOut] returns
    the greatest integer [m] with [m * (1 + n/d) <= outputAmount]; it lies
    between 0 and the output. *)
Theorem minimumAmountOut_greatest (t : Trade) (tol : Percent) :
  tradeType t = EXACT_INPUT ->
  0 <= raw (outputAmount t) ->
  0 < Fraction.denominator tol -> 0 <= Fraction.numerator tol ->
  exists a,
    minimumAmountOut t tol = Ok a
    /\ 0 <= raw a <= raw (outputAmount t)
    /\ raw a * (Fraction.denominator tol + Fraction.numerator tol)
       <= raw (outputAmount t) * Fraction.denominator tol
       < (raw a + 1) * (Fraction.denominator tol + Fraction.numerator tol).
Proof.
  intros Htt Hraw Hd Hn. unfold minimumAmountOut.
  rewrite (tolerance_accepted _ Hn), Htt. cbn [bind].
  eexists. split; [reflexivity|].
  rewrite raw_with_raw, slippageAdjustedAmountOut_value.
  set (d := Fraction.denominator tol) in *. set (n := Fraction.numerator tol) in *.
  set (r := raw (outputAmount t)) in *.
  rewrite Z.quot_div_nonneg by nia.
  pose proof (Z.mul_div_le (d * r) (d + n) ltac:(lia)) as Hlo.
  pose proof (Z.mul_succ_div_gt (d * r) (d + n) ltac:(lia)) as Hhi.
  assert (H0 : 0 <= d * r / (d + n)) by (apply Z.div_pos; nia).
  assert (Hle : d * r / (d + n) <= r).
  { apply Z.div_le_upper_bound; [lia|nia]. }
  repeat split; try assumption; nia.
Qed.

(** X7. On an [EXACT_OUTPUT] trade with a non-negative input, for a
    tolerance [n/d] with [d > 0] and [n >= 0], [maximumAmountIn] returns
    the greatest integer [m] with [m <= inputAmount * (1 + n/d)]: the
    product rounded down, never below the input itself. *)
Theorem maximumAmountIn_greatest (t : Trade) (tol : Percent) :
  tradeType t = EXACT_OUTPUT ->
  0 <= raw (inputAmount t) ->
  0 < Fraction.denominator tol -> 0 <= Fraction.numerator tol ->
  exists a,
    maximumAmountIn t tol = Ok a
    /\ raw (inputAmount t) <= raw a
    /\ raw a * Fraction.denominator tol
       <= raw (inputAmount t) * (Fraction.denominator tol + Fraction.numerator tol)
       < (raw a + 1) * Fraction.denominator tol.
Proof.
  intros Htt Hraw Hd Hn. unfold maximumAmountIn.
  rewrite (tolerance_accepted _ Hn), Htt. cbn [bind].
  eexists. split; [reflexivity|].
  rewrite raw_with_raw, slippageAdjustedAmountIn_value.
  set (d := Fraction.denominator tol) in *. set (n := Fraction.numerator tol) in *.
  set (r := raw (inputAmount t)) in *.
  rewrite Z.quot_div_nonneg by nia.
  pose proof (Z.mul_div_le ((d + n) * r) d ltac:(lia)) as Hlo.
  pose proof (Z.mul_succ_div_gt ((d + n) * r) d ltac:(lia)) as Hhi.
  assert (Hge : r <= (d + n) * r / d).
  { apply Z.div_le_lower_bound; [lia|nia]. }
  repeat split; try assumption; nia.
Qed.

(** X8. On an [EXACT_OUTPUT] trade with a non-negative input,
    [maximumAmountIn] does not decrease when the tolerance grows: for
    [0 <= t1 <= t2] with positive denominators the raw value for [t1] is at
    most the raw value for [t2]. *)
Theorem maximumAmountIn_monotone (t : Trade) (t1 t2 : Percent) :
  tradeType t = EXACT_OUTPUT ->
  0 <= raw (inputAmount t) ->
  0 < Fraction.denominator t1 -> 0 < Fraction.denominator t2 ->
  0 <= Fraction.numerator t1 ->
  Fraction.numerator t1 * Fraction.denominator t2
  <= Fraction.numerator t2 * Fraction.denominator t1 ->
  exists a1 a2,
    maximumAmountIn t t1 = Ok a1 /\ maximumAmountIn t t2 = Ok a2
    /\ raw a1 <= raw a2.
Proof.
  intros Htt Hraw Hd1 Hd2 Hn1 Hle.
  assert (Hn2 : 0 <= Fraction.numerator t2) by nia.
  unfold maximumAmountIn.
  rewrite (tolerance_accepted _ Hn1), (tolerance_accepted _ Hn2), Htt. cbn [bind].
  do 2 eexists. split; [reflexivity|]. split; [reflexivity|].
  rewrite !raw_with_raw, !slippageAdjustedAmountIn_value.
  set (d1 := Fraction.denominator t1) in *. set (n1 := Fraction.numerator t1) in *.
  set (d2 := Fraction.denominator t2) in *. set (n2 := Fraction.numerator t2) in *.
  set (r := raw (inputAmount t)) in *.
  rewrite !Z.quot_div_nonneg by nia.
  apply Z.div_le_lower_bound; [lia|].
  set (q := (d1 + n1) * r / d1).
  assert (Hq0 : 0 <= q) by (apply Z.div_pos; nia).
  assert (Hq : d1 * q <= (d1 + n1) * r) by (apply Z.mul_div_le; lia).
  apply (Z.mul_le_mono_pos_l _ _ d1); [lia|].
  nia.
Qed.

(** X9. With a tolerance of zero, written over any non-zero denominator,
    both bounds return the amount of the trade itself, whatever the trade
    type. *)
Theorem zero_tolerance_exact (t : Trade) (tol : Percent) :
  Fraction.numerator tol = 0 -> Fraction.denominator tol <> 0 ->
  minimumAmountOut t tol = Ok (outputAmount t)
  /\ maximumAmountIn t tol = Ok (inputAmount t).
Proof.
  intros Hn Hd. unfold minimumAmountOut, maximumAmountIn.
  rewrite tolerance_accepted by lia. cbn [bind].
  rewrite slippageAdjustedAmountOut_value, slippageAdjustedAmountIn_value, Hn.
  rewrite !Z.add_0_r. rewrite !(Z.mul_comm (Fraction.denominator tol)).
  rewrite !Z.quot_mul by exact Hd. rewrite !with_raw_same.
  destruct (tradeType t); split; reflexivity.
Qed.

(* ================================================================== *)
(** * Further properties of the price impact and of the constructor *)

Lemma toQ_le_1 (n d : Z) : 0 < d -> ((Fraction.toQ (Fraction.mk n d) <= 1)%Q <-> n <= d).
Proof.
  intros Hd. destruct d as [|d|d]; try lia.
  rewrite toQ_pos_den. unfold Qle; cbn [Qnum Qden]. lia.
Qed.

Lemma toQ_lt_1 (n d : Z) : 0 < d -> ((Fraction.toQ (Fraction.mk n d) < 1)%Q <-> n < d).
Proof.
  intros Hd. destruct d as [|d|d]; try lia.
  rewrite toQ_pos_den. unfold Qlt; cbn [Qnum Qden]. lia.
Qed.

Lemma toQ_ge_0 (n d : Z) : 0 < d -> ((0 <= Fraction.toQ (Fraction.mk n d))%Q <-> 0 <= n).
Proof.
  intros Hd. destruct d as [|d|d]; try lia.
  rewrite toQ_pos_den. unfold Qle; cbn [Qnum Qden]. lia.
Qed.

Lemma toQ_eq_0 (n d : Z) : 0 < d -> ((Fraction.toQ (Fraction.mk n d) == 0)%Q <-> n = 0).
Proof.
  intros Hd. destruct d as [|d|d]; try lia.
  rewrite toQ_pos_den. unfold Qeq; cbn [Qnum Qden]. lia.
Qed.

Lemma computePriceImpact_range (mid : Price) (inputAmount outputAmount : TokenAmount) :
  fraction_positive (price_raw mid) -> 0 < ta_raw inputAmount ->
  let impact := Fraction.toQ (computePriceImpact mid inputAmount outputAmount) in
  let p := Fraction.numerator (price_raw mid) in
  let q := Fraction.denominator (price_raw mid) in
  (0 <= ta_raw outputAmount -> (impact <= 1)%Q)
  /\ (0 < ta_raw outputAmount -> (impact < 1)%Q)
  /\ ((0 <= impact)%Q <-> ta_raw outputAmount * q <= p * ta_raw inputAmount)
  /\ ((impact == 0)%Q <-> ta_raw outputAmount * q = p * ta_raw inputAmount).
Proof.
  intros [Hp Hq] Ha. cbv zeta.
  set (p := Fraction.numerator (price_raw mid)) in *.
  set (q := Fraction.denominator (price_raw mid)) in *.
  set (a := ta_raw inputAmount) in *. set (b := ta_raw outputAmount).
  assert (E : computePriceImpact mid inputAmount outputAmount
              = Fraction.mk ((p * a * 1 - b * (q * 1)) * (q * 1)) (q * 1 * 1 * (p * a)))
    by reflexivity.
  rewrite E.
  assert (HD : 0 < q * 1 * 1 * (p * a)) by nia.
  rewrite (toQ_le_1 _ HD), (toQ_lt_1 _ HD), (toQ_ge_0 _ HD), (toQ_eq_0 _ HD).
  repeat split; intros; nia.
Qed.

(** X10. For a positive mid price [p/q] and a positive input,
    [computePriceImpact] is at most 100 % when the output is not negative
    and below 100 % when it is positive; it is not negative exactly when
    the output is at most the quote [p/q * input], and zero exactly when
    the output is the quote. *)
Theorem computePriceImpact_bounds (mid : Price) (inputAmount outputAmount : TokenAmount) :
  fraction_positive (price_raw mid) -> 0 < ta_raw inputAmount ->
  let impact := Fraction.toQ (computePriceImpact mid inputAmount outputAmount) in
  let p := Fraction.numerator (price_raw mid) in
  let q := Fraction.denominator (price_raw mid) in
  (0 <= ta_raw outputAmount -> (impact <= 1)%Q)
  /\ (0 < ta_raw outputAmount -> (impact < 1)%Q)
  /\ ((0 <= impact)%Q <-> ta_raw outputAmount * q <= p * ta_raw inputAmount)
  /\ ((impact == 0)%Q <-> ta_raw outputAmount * q = p * ta_raw inputAmount).
Proof. exact (@computePriceImpact_range mid inputAmount outputAmount). Qed.

Lemma amounts_backward_last ps a ams nps :
  amounts_backward ps a = Ok (ams, nps) -> last ams a = a /\ ams <> [].
Proof.
  revert ams nps. induction ps as [|p ps IH]; intros ams nps; cbn [amounts_backward].
  - intros H; inversion H; subst. split; [reflexivity|discriminate].
  - destruct (amounts_backward ps a) as [[am ns]|e] eqn:Hw; cbn [bind]; [|discriminate].
    destruct (getInputAmount p (hd a am)) as [[i np]|e]; cbn [bind]; [|discriminate].
    intros H; inversion H; subst.
    destruct (IH _ _ eq_refl) as [Hl Hne]. split; [|discriminate].
    destruct am as [|x am]; [congruence|]. exact Hl.
Qed.

Section ConstructorMore.
Variable WETH : ChainId -> Token.

(** X11. A constructed trade keeps its route and its trade type, and its
    exact side is the amount it was given, wrapped: the input amount of an
    [EXACT_INPUT] trade and the output amount of an [EXACT_OUTPUT] trade
    have the raw value of that amount.  Its execution price is the raw
    output over the raw input, from the input of the route to its
    output. *)
Theorem newTrade_exact_side (r : Route) (amount : CurrencyAmount) (tt : TradeType)
    (t : Trade) :
  newTrade WETH r amount tt = Ok t ->
  route t = r /\ tradeType t = tt
  /\ (exists w,
        wrappedAmount WETH amount (chainId (endpoint r tt)) = Ok w
        /\ ta_raw w = raw amount
        /\ match tt with
           | EXACT_INPUT => inputAmount t = OfToken w
           | EXACT_OUTPUT => outputAmount t = OfToken w
           end)
  /\ executionPrice t
     = newPrice (Tok (input r)) (Tok (output r))
                (raw (inputAmount t)) (raw (outputAmount t)).
Proof.
  assert (Hw : forall c a0, wrappedAmount WETH amount c = Ok a0 -> ta_raw a0 = raw amount).
  { intros c a0. destruct amount as [ta|cu x]; cbn [wrappedAmount raw].
    - intros H; inversion H; reflexivity.
    - destruct (is_ETHER cu); intros H; inversion H; reflexivity. }
  unfold newTrade. intros H. destruct tt; cbn [endpoint].
  - destruct (invariant _ "INPUT"); cbn [bind] in H; [|discriminate].
    destruct (wrappedAmount WETH amount (chainId (input r))) as [a0|e] eqn:Ea;
      cbn [bind] in H; [|discriminate].
    destruct (amounts_forward (pairs r) a0) as [[ams nps]|e] eqn:Ew;
      cbn [bind] in H; [|discriminate].
    destruct (newRoute nps (input r)); cbn [bind] in H; [|discriminate].
    inversion H; subst. cbn.
    destruct (amounts_forward_head _ _ Ew) as [tl ->]. cbn [hd].
    repeat split. exists a0. repeat split. eapply Hw; eassumption.
  - destruct (invariant _ "OUTPUT"); cbn [bind] in H; [|discriminate].
    destruct (wrappedAmount WETH amount (chainId (output r))) as [a0|e] eqn:Ea;
      cbn [bind] in H; [|discriminate].
    destruct (amounts_backward (pairs r) a0) as [[ams nps]|e] eqn:Ew;
      cbn [bind] in H; [|discriminate].
    destruct (newRoute nps (input r)); cbn [bind] in H; [|discriminate].
    inversion H; subst. cbn.
    destruct (amounts_backward_last _ _ Ew) as [Hl _]. rewrite Hl.
    repeat split. exists a0. repeat split. eapply Hw; eassumption.
Qed.
End ConstructorMore.

Lemma getOutputAmount_ok_positive p a o np :
  getOutputAmount p a = Ok (o, np) -> reserves_nonneg p -> 0 <= ta_raw a ->
  0 < ta_raw a /\ 0 < ta_raw o.
Proof.
  intros H [Hn0 Hn1] Ha.
  destruct (@getOutputAmount_ok_nonzero _ _ _ _ H) as [[H0 H1] Hnz].
  split; [lia|].
  revert H. unfold getOutputAmount, invariant, ZERO.
  destruct (involvesToken p (token a)); cbn [bind]; [|discriminate].
  destruct (_ || _); [discriminate|].
  cbn [ta_raw].
  match goal with |- context [Z.quot ?n ?d =? 0] =>
    destruct (Z.eqb_spec (Z.quot n d) 0) as [|Hq]; [discriminate|];
    assert (Hq0 : 0 <= Z.quot n d)
      by (apply Z.quot_pos; destruct (Token_equals (token a) (token0 p)); nia)
  end.
  intros Hres; inversion Hres; subst. cbn [ta_raw]. lia.
Qed.

Lemma amounts_forward_positive ps :
  forall a ams nps,
    amounts_forward ps a = Ok (ams, nps) ->
    Forall reserves_nonneg ps -> 0 <= ta_raw a ->
    0 <= ta_raw (last ams a)
    /\ (ps <> [] -> 0 < ta_raw a /\ 0 < ta_raw (last ams a)).
Proof.
  induction ps as [|p ps IH]; intros a ams nps; cbn [amounts_forward].
  - intros H _ Ha; inversion H; subst. cbn [last]. split; [exact Ha|congruence].
  - destruct (getOutputAmount p a) as [[o np]|e] eqn:Hs; cbn [bind]; [|discriminate].
    destruct (amounts_forward ps o) as [[am ns]|e] eqn:Hw; cbn [bind]; [|discriminate].
    intros H Hnn Ha; inversion H; subst. inversion Hnn; subst.
    destruct (@getOutputAmount_ok_positive _ _ _ _ Hs ltac:(assumption) Ha) as [Hpa Hpo].
    destruct (IH _ _ _ Hw ltac:(assumption) ltac:(lia)) as [Hl Hl'].
    destruct (@amounts_forward_head _ _ _ _ Hw) as [tl ->].
    assert (Hlast : last (a :: o :: tl) a = last (o :: tl) a) by reflexivity.
    rewrite Hlast, (last_nonempty_default o tl a o).
    destruct ps as [|p' ps].
    + cbn [amounts_forward] in Hw. inversion Hw; subst. cbn [last].
      split; [lia|intros _; split; assumption].
    + destruct (Hl' ltac:(discriminate)) as [_ Hpos].
      split; [lia|intros _; split; assumption].
Qed.

Lemma hop_price_positive p cur :
  reserves_nonzero p -> reserves_nonneg p ->
  fraction_positive (price_raw (hop_price p cur)).
Proof.
  intros [H0 H1] [N0 N1]. unfold hop_price, fraction_positive.
  destruct (Token_equals cur (token0 p)); cbn; split; lia.
Qed.

Lemma hop_prices_positive ps :
  forall pth, Forall reserves_nonzero ps -> Forall reserves_nonneg ps ->
    Forall (fun pr => fraction_positive (price_raw pr)) (hop_prices ps pth).
Proof.
  induction ps as [|p ps IH]; intros [|cur pth] H H'; cbn [hop_prices];
    try constructor; inversion H; inversion H'; subst;
    [apply hop_price_positive; assumption|apply IH; assumption].
Qed.

Lemma fold_price_multiply_positive prs :
  forall pr,
    fraction_positive (price_raw pr) ->
    Forall (fun x => fraction_positive (price_raw x)) prs ->
    fraction_positive (price_raw (fold_left price_multiply prs pr)).
Proof.
  induction prs as [|x prs IH]; intros pr Hpr Hall; cbn [fold_left]; [exact Hpr|].
  inversion Hall; subst. apply IH; [|assumption].
  destruct Hpr as [Hn Hd]. match goal with H : fraction_positive (price_raw x) |- _ =>
    destruct H as [Hxn Hxd] end.
  unfold price_multiply, Fraction.multiply, fraction_positive; cbn. split; nia.
Qed.

Lemma midPrice_positive ps inp r :
  newRoute ps inp = Ok r ->
  Forall reserves_nonzero ps -> Forall reserves_nonneg ps ->
  fraction_positive (price_raw (midPrice r)).
Proof.
  unfold newRoute. intros H Hall Hnn.
  destruct ps as [|first rest]; [discriminate|].
  destruct (route_path (first :: rest) inp) as [pth|e]; cbn [bind] in H; [|discriminate].
  inversion H; subst. cbn [midPrice]. inversion Hall; inversion Hnn; subst.
  apply fold_price_multiply_positive.
  - apply hop_price_positive; assumption.
  - apply hop_prices_positive; assumption.
Qed.

Section ConstructedImpact.
Variable WETH : ChainId -> Token.

(** X12. A trade constructed over a route of pairs with non-negative
    reserves, for a non-negative amount, has a positive input and a
    non-negative output, and its price impact is at most 100 %: below
    100 % when the output is positive, as it is for every [EXACT_INPUT]
    trade. *)
Theorem constructed_impact_below_one (ps : list Pair) (inp : Token) (r : Route)
    (amount : CurrencyAmount) (tt : TradeType) (t : Trade) :
  newRoute ps inp = Ok r -> Forall reserves_nonneg ps -> 0 <= raw amount ->
  newTrade WETH r amount tt = Ok t ->
  0 < raw (inputAmount t) /\ 0 <= raw (outputAmount t)
  /\ (impact_value t <= 1)%Q
  /\ (0 < raw (outputAmount t) -> (impact_value t < 1)%Q)
  /\ (tt = EXACT_INPUT -> 0 < raw (outputAmount t)).
Proof.
  intros Hroute Hnn Hamount H.
  assert (Hw : forall c a0, wrappedAmount WETH amount c = Ok a0 -> ta_raw a0 = raw amount).
  { intros c a0. destruct amount as [ta|cu x]; cbn [wrappedAmount raw].
    - intros E; inversion E; reflexivity.
    - destruct (is_ETHER cu); intros E; inversion E; reflexivity. }
  pose proof (@newRoute_pairs _ _ _ Hroute) as Hps.
  pose proof (@newRoute_nonempty _ _ _ Hroute) as Hne.
  assert (Hfacts : exists ia oa,
             inputAmount t = OfToken ia /\ outputAmount t = OfToken oa
             /\ priceImpact t = computePriceImpact (midPrice r) ia oa
             /\ Forall reserves_nonzero ps
             /\ 0 < ta_raw ia /\ 0 <= ta_raw oa
             /\ (tt = EXACT_INPUT -> 0 < ta_raw oa)).
  { unfold newTrade in H. destruct tt.
    - destruct (invariant _ "INPUT"); cbn [bind] in H; [|discriminate].
      destruct (wrappedAmount WETH amount (chainId (input r))) as [a0|e] eqn:Ea;
        cbn [bind] in H; [|discriminate].
      destruct (amounts_forward (pairs r) a0) as [[ams nps]|e] eqn:Ew;
        cbn [bind] in H; [|discriminate].
      destruct (newRoute nps (input r)); cbn [bind] in H; [|discriminate].
      inversion H; subst t. cbn [inputAmount outputAmount priceImpact].
      rewrite Hps in Ew.
      destruct (@amounts_forward_nonzero _ _ _ _ Ew) as [Hall _].
      assert (Ha0 : 0 <= ta_raw a0) by (rewrite (Hw _ _ Ea); exact Hamount).
      destruct (@amounts_forward_positive _ _ _ _ Ew Hnn Ha0) as [_ Hpos].
      destruct (Hpos Hne) as [Hin Hout].
      destruct (@amounts_forward_head _ _ _ _ Ew) as [tl ->]. cbn [hd].
      do 2 eexists. repeat split; try assumption; try lia.
    - destruct (invariant _ "OUTPUT"); cbn [bind] in H; [|discriminate].
      destruct (wrappedAmount WETH amount (chainId (output r))) as [a0|e] eqn:Ea;
        cbn [bind] in H; [|discriminate].
      destruct (amounts_backward (pairs r) a0) as [[ams nps]|e] eqn:Ew;
        cbn [bind] in H; [|discriminate].
      destruct (newRoute nps (input r)); cbn [bind] in H; [|discriminate].
      inversion H; subst t. cbn [inputAmount outputAmount priceImpact].
      rewrite Hps in Ew.
      assert (Ha0 : 0 <= ta_raw a0) by (rewrite (Hw _ _ Ea); exact Hamount).
      destruct (@amounts_backward_positive _ _ _ _ Ew) as [Hall Hpos].
      destruct (Hpos Hnn Ha0) as [_ Hin]. specialize (Hin Hne).
      destruct (@amounts_backward_last _ _ _ _ Ew) as [Hl _]. rewrite Hl.
      do 2 eexists. repeat split; try assumption; try lia. discriminate. }
  destruct Hfacts as (ia & oa & Hi & Ho & Hp & Hall & Hin & Hout & Hexact).
  pose proof (@midPrice_positive _ _ _ Hroute Hall Hnn) as Hmid.
  destruct (@computePriceImpact_range (midPrice r) ia oa Hmid Hin)
    as (Hle & Hlt & _).
  unfold impact_value. rewrite Hi, Ho, Hp. cbn [raw].
  repeat split; auto.
Qed.
End ConstructedImpact.

(* ================================================================== *)
(** * Further properties of the search *)

(** ** A rule for searches that do not fail *)

Section SearchSucceeds.
Variable swap : Pair -> TokenAmount -> result (TokenAmount * Pair).
Variable caught : error -> bool.
Variable extend : list Pair -> Pair -> list Pair.
Variable build : list Pair -> result Trade.
Variable target : Token.
Variable m : Z.
Variable Inv : list Trade -> Prop.
Variable Level : list Pair -> TokenAmount -> Z -> list Pair -> Prop.

Hypothesis extend_nonempty : forall cur p, extend cur p <> [].

Hypothesis swap_caught : forall p amount e,
  candidate p amount = true -> swap p amount = Err e -> caught e = true.

Hypothesis Level_next : forall before p after amount amount' np mh cur,
  Level (before ++ p :: after) amount mh cur ->
  candidate p amount = true -> swap p amount = Ok (amount', np) -> 1 < mh ->
  Level (before ++ after) amount' (mh - 1) (extend cur p).

Hypothesis leaf_succeeds : forall before p after amount amount' np mh cur bt,
  Level (before ++ p :: after) amount mh cur -> 0 < mh ->
  candidate p amount = true -> swap p amount = Ok (amount', np) ->
  Token_equals (token amount') target = true ->
  Inv bt ->
  exists bt',
    (let* t := build (extend cur p) in
     sortedInsert tradeComparator bt t m) = Ok bt'
    /\ Inv bt'.

Lemma loopSearch_succeeds (rec : recursion) ps amount mh cur :
  Level ps amount mh cur -> 0 < mh ->
  (forall before p after amount' np bt,
      ps = before ++ p :: after -> candidate p amount = true ->
      swap p amount = Ok (amount', np) -> 1 < mh -> (1 < List.length ps)%nat ->
      Inv bt ->
      exists bt', rec (before ++ after) amount' (extend cur p) bt = Some (Ok bt')
                  /\ Inv bt') ->
  forall rest before bt,
    ps = before ++ rest -> Inv bt ->
    exists bt',
      loopSearch swap caught extend build target m rec amount mh cur before rest bt
      = Some (Ok bt')
      /\ Inv bt'.
Proof.
  intros HL Hmh Hrec. induction rest as [|p after IH]; intros before bt Hps Hbt.
  - exists bt. split; [reflexivity|exact Hbt].
  - assert (Hnext : ps = (before ++ [p]) ++ after)
      by (rewrite <- app_assoc; exact Hps).
    cbn [loopSearch].
    destruct (negb (Token_equals (token0 p) (token amount))
              && negb (Token_equals (token1 p) (token amount))) eqn:Hrel;
      [apply IH; assumption|].
    destruct (reserve_is_zero (reserve0 p) || reserve_is_zero (reserve1 p)) eqn:Hz;
      [apply IH; assumption|].
    assert (Hc : candidate p amount = true)
      by (unfold candidate; rewrite Hrel, Hz; reflexivity).
    destruct (swap p amount) as [[amount' np]|e] eqn:Hs.
    2: { rewrite (swap_caught Hc Hs). apply IH; assumption. }
    destruct (Token_equals (token amount') target) eqn:Ht.
    { pose proof HL as HL'. rewrite Hps in HL'.
      destruct (@leaf_succeeds before p after amount amount' np mh cur bt
                  HL' Hmh Hc Hs Ht Hbt)
        as (bt' & Hleaf & Hbt').
      rewrite Hleaf. apply IH; assumption. }
    destruct (Z.gtb_spec mh 1) as [Hgo|]; cbn [andb]; [|apply IH; assumption].
    destruct (Z.gtb_spec (Z.of_nat (List.length (before ++ p :: after))) 1) as [Hlen|];
      [|apply IH; assumption].
    assert (Hlen' : (1 < List.length ps)%nat) by (rewrite Hps; lia).
    destruct (Hrec before p after amount' np bt Hps Hc Hs Hgo Hlen' Hbt)
      as (bt' & Hr & Hbt').
    rewrite Hr. apply IH; assumption.
Qed.

Lemma search_rec_succeeds fuel :
  forall ps amount mh cur same bt,
    (List.length ps <= fuel)%nat ->
    ps <> [] -> 0 < mh -> same = true \/ cur <> [] ->
    Level ps amount mh cur -> Inv bt ->
    exists bt',
      search_rec swap caught extend build target m fuel ps amount mh cur same bt
      = Some (Ok bt')
      /\ Inv bt'.
Proof.
  induction fuel as [|fuel IH]; intros ps amount mh cur same bt Hfuel Hne Hmh Hsame HL Hbt.
  - destruct ps; [congruence|cbn in Hfuel; lia].
  - cbn [search_rec]. unfold invariant.
    destruct (Z.gtb_spec (Z.of_nat (List.length ps)) 0) as [_|Hlen];
      [|destruct ps; [congruence|cbn in Hlen; lia]].
    destruct (Z.gtb_spec mh 0) as [_|]; [|lia].
    assert (Hinv : same || (Z.of_nat (List.length cur) >? 0) = true).
    { destruct Hsame as [->|Hcur]; [reflexivity|].
      destruct cur; [congruence|]. cbn [List.length].
      destruct (Z.gtb_spec (Z.of_nat (S (List.length cur))) 0); [|lia].
      apply Bool.orb_true_r. }
    rewrite Hinv. cbn [bind].
    apply loopSearch_succeeds with (ps := ps); try assumption; try reflexivity.
    intros before p after amount' np bt0 Hps Hc Hs Hgo Hlen Hbt0.
    subst ps. apply IH.
    + rewrite length_app in *. cbn [List.length] in *. lia.
    + rewrite length_app in Hlen. cbn [List.length] in Hlen.
      destruct before, after; cbn in *; try discriminate; lia.
    + lia.
    + right. apply extend_nonempty.
    + eapply Level_next; eassumption.
    + exact Hbt0.
Qed.
End SearchSucceeds.

(** ** Tokens along a walk *)

Lemma Token_equals_true (a b : Token) :
  Token_equals a b = true <-> chainId a = chainId b /\ address a = address b.
Proof.
  unfold Token_equals. rewrite Bool.andb_true_iff, Z.eqb_eq, String.eqb_eq.
  reflexivity.
Qed.

Lemma Token_equals_false (a b : Token) :
  Token_equals a b = false <-> ~ (chainId a = chainId b /\ address a = address b).
Proof.
  rewrite <- Token_equals_true. destruct (Token_equals a b); intuition congruence.
Qed.

Ltac tokens :=
  repeat match goal with
         | H : Token_equals _ _ = true |- _ =>
             apply Token_equals_true in H; destruct H
         | H : Token_equals _ _ = false |- _ =>
             apply Token_equals_false in H
         end;
  try match goal with
      | |- Token_equals _ _ = true => apply Token_equals_true; split
      | |- Token_equals _ _ = false => apply Token_equals_false; intros [? ?]
      end;
  try congruence;
  try (exfalso;
       match goal with
       | H : ~ (_ /\ _) |- _ => apply H; split; congruence
       end).

Lemma getOutputAmount_tokens p a o np :
  getOutputAmount p a = Ok (o, np) ->
  Token_equals (token a) (token0 p) || Token_equals (token a) (token1 p) = true
  /\ token o = (if Token_equals (token a) (token0 p) then token1 p else token0 p)
  /\ same_tokens p np.
Proof.
  unfold getOutputAmount, invariant, involvesToken, same_tokens, token0, token1.
  destruct (Token_equals (token a) (token (reserve0 p))
            || Token_equals (token a) (token (reserve1 p))); cbn [bind]; [|discriminate].
  destruct (_ || _); [discriminate|].
  destruct (_ =? ZERO); [discriminate|].
  intros H; inversion H; subst.
  destruct (Token_equals (token a) (token (reserve0 p))); cbn; auto.
Qed.

Lemma getInputAmount_tokens p a i np :
  getInputAmount p a = Ok (i, np) ->
  Token_equals (token a) (token0 p) || Token_equals (token a) (token1 p) = true
  /\ token i = (if Token_equals (token a) (token0 p) then token1 p else token0 p)
  /\ same_tokens p np.
Proof.
  unfold getInputAmount, invariant, involvesToken, same_tokens, token0, token1.
  destruct (Token_equals (token a) (token (reserve0 p))
            || Token_equals (token a) (token (reserve1 p))); cbn [bind]; [|discriminate].
  destruct (_ || _); [discriminate|].
  intros H; inversion H; subst.
  destruct (Token_equals (token a) (token (reserve0 p))); cbn; auto.
Qed.

Lemma route_path_same_tokens ps :
  forall qs c, Forall2 same_tokens ps qs -> route_path qs c = route_path ps c.
Proof.
  induction ps as [|p ps IH]; intros qs c H; inversion H as [|? q ? qs' [H0 H1] Hrest];
    subst; [reflexivity|].
  cbn [route_path]. rewrite H0, H1.
  destruct (invariant _ "PATH"); cbn [bind]; [|reflexivity].
  rewrite (IH qs' _ Hrest). reflexivity.
Qed.

Lemma amounts_forward_same_tokens ps :
  forall a ams nps, amounts_forward ps a = Ok (ams, nps) -> Forall2 same_tokens ps nps.
Proof.
  induction ps as [|p ps IH]; intros a ams nps; cbn [amounts_forward].
  - intros H; inversion H; constructor.
  - destruct (getOutputAmount p a) as [[o np]|e] eqn:Hs; cbn [bind]; [|discriminate].
    destruct (amounts_forward ps o) as [[am ns]|e] eqn:Hw; cbn [bind]; [|discriminate].
    intros H; inversion H; subst. constructor.
    + apply (getOutputAmount_tokens _ _ Hs).
    + eapply IH; eassumption.
Qed.

Lemma amounts_backward_same_tokens ps :
  forall a ams nps, amounts_backward ps a = Ok (ams, nps) -> Forall2 same_tokens ps nps.
Proof.
  induction ps as [|p ps IH]; intros a ams nps; cbn [amounts_backward].
  - intros H; inversion H; constructor.
  - destruct (amounts_backward ps a) as [[am ns]|e] eqn:Hw; cbn [bind]; [|discriminate].
    destruct (getInputAmount p (hd a am)) as [[i np]|e] eqn:Hs; cbn [bind]; [|discriminate].
    intros H; inversion H; subst. constructor.
    + apply (getInputAmount_tokens _ _ Hs).
    + eapply IH; eassumption.
Qed.

Lemma last_cons_cons (A : Type) (x y : A) (l : list A) (d : A) :
  last (x :: y :: l) d = last (y :: l) d.
Proof. reflexivity. Qed.

Lemma route_path_head ps c pth : route_path ps c = Ok pth -> exists tl, pth = c :: tl.
Proof.
  destruct ps as [|p ps]; cbn [route_path].
  - intros H; inversion H; eauto.
  - destruct (invariant _ "PATH"); cbn [bind]; [|discriminate].
    match goal with |- context [route_path ps ?x] => destruct (route_path ps x) end;
      cbn [bind]; [|discriminate].
    intros H; inversion H; eauto.
Qed.

(** The tokens of the amounts of a forward walk are the tokens of the
    path of the route over the same pairs. *)
Lemma forward_path ps :
  forall a c ams nps,
    amounts_forward ps a = Ok (ams, nps) ->
    Token_equals c (token a) = true ->
    exists pth, route_path ps c = Ok pth
                /\ Token_equals (last pth c) (token (last ams a)) = true.
Proof.
  induction ps as [|p ps IH]; intros a c ams nps; cbn [amounts_forward route_path].
  - intros H Hc; inversion H; subst. exists [c]. split; [reflexivity|exact Hc].
  - destruct (getOutputAmount p a) as [[o np]|e] eqn:Hs; cbn [bind]; [|discriminate].
    destruct (amounts_forward ps o) as [[am ns]|e] eqn:Hw; cbn [bind]; [|discriminate].
    intros H Hc; inversion H; subst.
    destruct (getOutputAmount_tokens _ _ Hs) as (Hinv & Ho & _).
    assert (E0 : Token_equals c (token0 p) = Token_equals (token a) (token0 p)).
    { destruct (Token_equals (token a) (token0 p)) eqn:E; tokens. }
    assert (E1 : Token_equals c (token1 p) = Token_equals (token a) (token1 p)).
    { destruct (Token_equals (token a) (token1 p)) eqn:E; tokens. }
    rewrite E0, E1, Hinv. unfold invariant. cbn [bind]. rewrite <- Ho.
    destruct (IH o (token o) am ns Hw (Token_equals_refl _)) as (tl & Hp & Hl).
    rewrite Hp. cbn [bind]. exists (c :: tl). split; [reflexivity|].
    destruct (route_path_head _ _ Hp) as [tl' ->].
    destruct (amounts_forward_head _ _ Hw) as [am' ->].
    rewrite !last_cons_cons.
    rewrite (last_nonempty_default (token o) tl' c (token o)).
    rewrite (last_nonempty_default o am' a o). exact Hl.
Qed.

(** The same for a backward walk, from the token of its first amount. *)
Lemma backward_path ps :
  forall a c ams nps,
    amounts_backward ps a = Ok (ams, nps) ->
    Token_equals c (token (hd a ams)) = true ->
    exists pth, route_path ps c = Ok pth
                /\ Token_equals (last pth c) (token a) = true.
Proof.
  induction ps as [|p ps IH]; intros a c ams nps; cbn [amounts_backward route_path].
  - intros H Hc; inversion H; subst. exists [c]. split; [reflexivity|exact Hc].
  - destruct (amounts_backward ps a) as [[am ns]|e] eqn:Hw; cbn [bind]; [|discriminate].
    destruct (getInputAmount p (hd a am)) as [[i np]|e] eqn:Hs; cbn [bind]; [|discriminate].
    intros H Hc; inversion H; subst. cbn [hd] in Hc.
    destruct (getInputAmount_tokens _ _ Hs) as (Hinv & Hi & _).
    set (x := token (hd a am)) in *.
    assert (Hpath : Token_equals c (token0 p) || Token_equals c (token1 p) = true).
    { rewrite Hi in Hc. apply Bool.orb_true_iff.
      destruct (Token_equals x (token0 p)); [right|left]; exact Hc. }
    rewrite Hpath. unfold invariant. cbn [bind].
    assert (Hout : Token_equals
                     (if Token_equals c (token0 p) then token1 p else token0 p) x = true).
    { rewrite Hi in Hc. apply Bool.orb_true_iff in Hinv.
      destruct (Token_equals c (token0 p)) eqn:E0, (Token_equals x (token0 p)) eqn:Ex0;
        destruct Hinv as [Hx|Hx]; tokens. }
    destruct (IH a _ am ns Hw Hout) as (tl & Hp & Hl).
    rewrite Hp. cbn [bind]. exists (c :: tl). split; [reflexivity|].
    destruct (route_path_head _ _ Hp) as [tl' Htl]. rewrite Htl in *.
    rewrite last_cons_cons.
    rewrite (last_nonempty_default _ tl' c
               (if Token_equals c (token0 p) then token1 p else token0 p)).
    exact Hl.
Qed.

(** Conversely, when the path of the route ends in the token of the last
    amount, the first amount of a backward walk is of the token the path
    starts from. *)
Lemma backward_path_input ps :
  forall a c ams nps pth,
    amounts_backward ps a = Ok (ams, nps) ->
    route_path ps c = Ok pth ->
    Token_equals (last pth c) (token a) = true ->
    Token_equals (token (hd a ams)) c = true.
Proof.
  induction ps as [|p ps IH]; intros a c ams nps pth; cbn [amounts_backward route_path].
  - intros H Hp Hl; inversion H; inversion Hp; subst. cbn in *. tokens.
  - destruct (amounts_backward ps a) as [[am ns]|e] eqn:Hw; cbn [bind]; [|discriminate].
    destruct (getInputAmount p (hd a am)) as [[i np]|e] eqn:Hs; cbn [bind]; [|discriminate].
    intros H; inversion H; subst. clear H. unfold invariant.
    destruct (Token_equals c (token0 p) || Token_equals c (token1 p)) eqn:Hpath;
      cbn [bind]; [|discriminate].
    match goal with |- context [route_path ps ?o] =>
      set (out := o); destruct (route_path ps out) as [tl|e] eqn:Hp end;
      cbn [bind]; [|discriminate].
    intros H Hl; inversion H; subst. clear H.
    destruct (route_path_head _ _ Hp) as [tl' Htl]. rewrite Htl in *.
    rewrite last_cons_cons in Hl.
    rewrite (last_nonempty_default out tl' c out) in Hl.
    pose proof (IH a out am ns _ Hw Hp Hl) as Hx.
    destruct (getInputAmount_tokens _ _ Hs) as (_ & Hi & _).
    cbn [hd]. rewrite Hi. subst out.
    apply Bool.orb_true_iff in Hpath.
    destruct (Token_equals c (token0 p)) eqn:E0,
             (Token_equals (token (hd a am)) (token0 p)) eqn:Ex0;
      destruct Hpath as [Hc|Hc]; tokens.
Qed.

Lemma newRoute_succeeds ps inp pth :
  ps <> [] -> route_path ps inp = Ok pth ->
  exists r, newRoute ps inp = Ok r
            /\ pairs r = ps /\ path r = pth /\ input r = inp
            /\ output r = last pth inp.
Proof.
  intros Hne Hp. unfold newRoute. destruct ps as [|first rest]; [congruence|].
  rewrite Hp. cbn [bind]. eexists. split; [reflexivity|]. cbn. auto.
Qed.

(* ================================================================== *)
(** * Further properties of the constructor *)

Lemma newRoute_inv ps inp r :
  newRoute ps inp = Ok r ->
  pairs r = ps /\ input r = inp /\ route_path ps inp = Ok (path r)
  /\ output r = last (path r) inp.
Proof.
  unfold newRoute. destruct ps as [|first rest]; [discriminate|].
  destruct (route_path (first :: rest) inp) as [pth|e]; cbn [bind]; [|discriminate].
  intros H; inversion H; subst. cbn. auto.
Qed.

Lemma Forall2_nonempty (A B : Type) (R : A -> B -> Prop) l l' :
  Forall2 R l l' -> l <> [] -> l' <> [].
Proof. destruct 1; [congruence|discriminate]. Qed.

Lemma insert_ranked_defined (cmp : Trade -> Trade -> result Z) l t :
  (forall x, In x l -> exists c, cmp x t = Ok c) ->
  exists l', insert_ranked cmp l t = Ok l'.
Proof.
  induction l as [|x l IH]; intros H; cbn [insert_ranked]; [eauto|].
  destruct (H x (or_introl eq_refl)) as [c ->]. cbn [bind].
  destruct (c <=? 0); [|eauto].
  destruct IH as [r ->]; [intros y Hy; apply H; right; exact Hy|].
  cbn [bind]. eauto.
Qed.

Lemma sortedInsert_defined (cmp : Trade -> Trade -> result Z) l t m :
  (forall x, In x l -> exists c, cmp x t = Ok c) ->
  exists l', sortedInsert cmp l t m = Ok l'.
Proof.
  intros H. unfold sortedInsert.
  destruct (insert_ranked_defined cmp l t H) as [r ->]. cbn [bind].
  destruct (_ >? _); eauto.
Qed.

Section ConstructorTokens.
Variable WETH : ChainId -> Token.

Lemma wrapped_matches (amount : CurrencyAmount) (e : Token) (w : TokenAmount) :
  currencyEquals (currency amount) (Tok e)
  || (is_ETHER (currency amount) && Token_equals e (WETH (chainId e))) = true ->
  wrappedAmount WETH amount (chainId e) = Ok w ->
  Token_equals (token w) e = true.
Proof.
  destruct amount as [ta|c x]; cbn [currency wrappedAmount currencyEquals is_ETHER].
  - rewrite Bool.orb_false_r. intros H Hw; inversion Hw; subst. exact H.
  - destruct c as [|tk]; cbn [is_ETHER currencyEquals andb orb]; [|discriminate].
    intros H Hw; inversion Hw; subst. cbn [token].
    rewrite Token_equals_sym. exact H.
Qed.

(** The parts of a successful construction. *)
Lemma newTrade_parts (r : Route) (amount : CurrencyAmount) (tt : TradeType) (t : Trade) :
  newTrade WETH r amount tt = Ok t ->
  exists a0 ams nps,
    Token_equals (token a0) (endpoint r tt) = true
    /\ match tt with
       | EXACT_INPUT => amounts_forward (pairs r) a0 = Ok (ams, nps)
       | EXACT_OUTPUT => amounts_backward (pairs r) a0 = Ok (ams, nps)
       end
    /\ inputAmount t = OfToken (hd a0 ams)
    /\ outputAmount t = OfToken (last ams a0).
Proof.
  unfold newTrade, invariant. intros H. destruct tt; cbn [endpoint].
  - destruct (_ || _) eqn:Hg; cbn [bind] in H; [|discriminate].
    destruct (wrappedAmount WETH amount (chainId (input r))) as [a0|e] eqn:Ea;
      cbn [bind] in H; [|discriminate].
    destruct (amounts_forward (pairs r) a0) as [[ams nps]|e] eqn:Ew;
      cbn [bind] in H; [|discriminate].
    destruct (newRoute nps (input r)); cbn [bind] in H; [|discriminate].
    inversion H; subst. exists a0, ams, nps. cbn.
    repeat split; eauto using wrapped_matches.
  - destruct (_ || _) eqn:Hg; cbn [bind] in H; [|discriminate].
    destruct (wrappedAmount WETH amount (chainId (output r))) as [a0|e] eqn:Ea;
      cbn [bind] in H; [|discriminate].
    destruct (amounts_backward (pairs r) a0) as [[ams nps]|e] eqn:Ew;
      cbn [bind] in H; [|discriminate].
    destruct (newRoute nps (input r)); cbn [bind] in H; [|discriminate].
    inversion H; subst. exists a0, ams, nps. cbn.
    repeat split; eauto using wrapped_matches.
Qed.

(** A construction over a route succeeds as soon as the swaps of its walk
    do: the route of the pairs after the trade is always a route. *)
Lemma newTrade_succeeds_walk (ps : list Pair) (inp : Token) (r : Route)
    (a : TokenAmount) (tt : TradeType) (ams : list TokenAmount) (nps : list Pair) :
  newRoute ps inp = Ok r ->
  Token_equals (token a) (endpoint r tt) = true ->
  match tt with
  | EXACT_INPUT => amounts_forward ps a = Ok (ams, nps)
  | EXACT_OUTPUT => amounts_backward ps a = Ok (ams, nps)
  end ->
  exists t, newTrade WETH r (OfToken a) tt = Ok t
            /\ route t = r /\ tradeType t = tt
            /\ inputAmount t = OfToken (hd a ams)
            /\ outputAmount t = OfToken (last ams a).
Proof.
  intros Hr Hm Hw.
  destruct (newRoute_inv _ _ Hr) as (Hps & Hin & Hpath & _).
  assert (Hne : ps <> []) by (eapply newRoute_nonempty; eassumption).
  assert (Hnext : Forall2 same_tokens ps nps).
  { destruct tt; [eapply amounts_forward_same_tokens|eapply amounts_backward_same_tokens];
      eassumption. }
  destruct (@newRoute_succeeds nps inp (path r)) as (nr & Hnr & _).
  { eapply Forall2_nonempty; eassumption. }
  { rewrite (@route_path_same_tokens ps nps inp Hnext). exact Hpath. }
  unfold newTrade, invariant.
  destruct tt; cbn [endpoint] in Hm;
    cbn [currency currencyEquals wrappedAmount]; rewrite Hm; cbn [orb bind];
    rewrite Hps, Hw; cbn [bind]; rewrite Hin, Hnr; cbn [bind];
    eexists; (split; [reflexivity|]); cbn; auto.
Qed.
End ConstructorTokens.

(* ================================================================== *)
(** * The searches return *)

Section SearchesReturn.
Variable WETH : ChainId -> Token.

Lemma found_exact_in_comparable orig tok (x t : Trade) :
  found_exact_in orig tok x -> found_exact_in orig tok t ->
  exists c, tradeComparator x t = Ok c.
Proof.
  intros (_ & Hix & ox & Hox & Hx) (_ & Hit & ot & Hot & Ht).
  apply tradeComparator_defined; rewrite ?Hix, ?Hit, ?Hox, ?Hot;
    cbn [currency currencyEquals].
  - apply Token_equals_refl.
  - tokens.
Qed.

Lemma found_exact_out_comparable tokenIn orig (x t : Trade) :
  found_exact_out tokenIn orig x -> found_exact_out tokenIn orig t ->
  exists c, tradeComparator x t = Ok c.
Proof.
  intros (_ & Hox & ix & Hix & Hx) (_ & Hot & it & Hit & Ht).
  apply tradeComparator_defined; rewrite ?Hix, ?Hit, ?Hox, ?Hot;
    cbn [currency currencyEquals].
  - tokens.
  - apply Token_equals_refl.
Qed.

(** Inserting a trade that is comparable with the trades held. *)
Lemma sortedInsert_found (P : Trade -> Prop) bt t m :
  (forall x, P x -> exists c, tradeComparator x t = Ok c) ->
  P t ->
  ranked tradeComparator bt /\ Forall P bt ->
  exists bt', sortedInsert tradeComparator bt t m = Ok bt'
              /\ ranked tradeComparator bt' /\ Forall P bt'.
Proof.
  intros Hcmp Ht [Hr Hall].
  destruct (@sortedInsert_defined tradeComparator bt t m) as [bt' Hi].
  { intros x Hx. apply Hcmp. rewrite Forall_forall in Hall. auto. }
  exists bt'. split; [exact Hi|]. split.
  - eapply sortedInsert_ranked; [exact tradeComparator_swap|eassumption..].
  - rewrite Forall_forall in *. intros x Hx.
    destruct (@sortedInsert_In tradeComparator bt t m bt' x Hi Hx) as [->|Hin]; auto.
Qed.

Lemma buildExactIn_succeeds orig (amount amount' : TokenAmount) (p np : Pair)
      (ps : list Pair) (mh : Z) (cur : list Pair) :
  levelExactIn orig ps amount mh cur ->
  getOutputAmount p amount = Ok (amount', np) ->
  exists t, buildExactIn WETH orig (cur ++ [p]) = Ok t
            /\ tradeType t = EXACT_INPUT
            /\ inputAmount t = OfToken orig
            /\ outputAmount t = OfToken amount'.
Proof.
  intros (ams & nps & Hw & Hlast) Hs.
  rewrite <- Hlast in Hs.
  pose proof (amounts_forward_snoc _ _ _ Hw Hs) as Hw'.
  destruct (@forward_path (cur ++ [p]) orig (token orig) _ _ Hw' (Token_equals_refl _))
    as (pth & Hpth & _).
  destruct (@newRoute_succeeds (cur ++ [p]) (token orig) pth) as (r & Hr & _ & _ & Hin & _);
    [destruct cur; discriminate|exact Hpth|].
  destruct (@newTrade_succeeds_walk WETH (cur ++ [p]) (token orig) r orig EXACT_INPUT
              (ams ++ [amount']) (nps ++ [np]) Hr)
    as (t & Hnew & _ & Htt & Hti & Hto).
  { cbn [endpoint]. rewrite Hin. apply Token_equals_refl. }
  { exact Hw'. }
  exists t. unfold buildExactIn. rewrite Hr. cbn [bind].
  split; [exact Hnew|]. split; [exact Htt|]. split.
  - rewrite Hti. destruct (amounts_forward_head _ _ Hw') as [tl ->]. reflexivity.
  - rewrite Hto, last_last. reflexivity.
Qed.

Lemma buildExactOut_succeeds tokenIn orig (amount amount' : TokenAmount) (p np : Pair)
      (ps : list Pair) (mh : Z) (cur : list Pair) :
  levelExactOut orig ps amount mh cur ->
  getInputAmount p amount = Ok (amount', np) ->
  Token_equals (token amount') tokenIn = true ->
  exists t, buildExactOut WETH tokenIn orig (p :: cur) = Ok t
            /\ tradeType t = EXACT_OUTPUT
            /\ inputAmount t = OfToken amount'
            /\ outputAmount t = OfToken orig.
Proof.
  intros (ams & nps & Hw & Hhd) Hs Ht.
  assert (Hw' : amounts_backward (p :: cur) orig = Ok (amount' :: ams, np :: nps)).
  { cbn [amounts_backward]. rewrite Hw. cbn [bind]. rewrite Hhd, Hs. reflexivity. }
  destruct (@backward_path (p :: cur) orig tokenIn _ _ Hw') as (pth & Hpth & Hend).
  { cbn [hd]. rewrite Token_equals_sym. exact Ht. }
  destruct (@newRoute_succeeds (p :: cur) tokenIn pth) as (r & Hr & _ & _ & Hin & Hout);
    [discriminate|exact Hpth|].
  destruct (@newTrade_succeeds_walk WETH (p :: cur) tokenIn r orig EXACT_OUTPUT
              (amount' :: ams) (np :: nps) Hr)
    as (t & Hnew & _ & Htt & Hti & Hto).
  { cbn [endpoint]. rewrite Hout, Token_equals_sym. exact Hend. }
  { exact Hw'. }
  exists t. unfold buildExactOut. rewrite Hr. cbn [bind].
  split; [exact Hnew|]. split; [exact Htt|]. split; [exact Hti|].
  rewrite Hto. destruct (amounts_backward_last _ _ Hw') as [-> _]. reflexivity.
Qed.

Lemma leafExactIn_succeeds orig tok m (before : list Pair) (p : Pair)
      (after : list Pair) (amount amount' : TokenAmount) (np : Pair) (mh : Z)
      (cur : list Pair) (bt : list Trade) :
  levelExactIn orig (before ++ p :: after) amount mh cur -> 0 < mh ->
  candidate p amount = true -> getOutputAmount p amount = Ok (amount', np) ->
  Token_equals (token amount') tok = true ->
  ranked tradeComparator bt /\ Forall (found_exact_in orig tok) bt ->
  exists bt',
    (let* t := buildExactIn WETH orig (cur ++ [p]) in
     sortedInsert tradeComparator bt t m) = Ok bt'
    /\ ranked tradeComparator bt' /\ Forall (found_exact_in orig tok) bt'.
Proof.
  intros HL _ _ Hs Ht Hbt.
  destruct (@buildExactIn_succeeds orig amount amount' p np _ mh cur HL Hs)
    as (t & -> & Htt & Hti & Hto).
  cbn [bind].
  assert (Hfound : found_exact_in orig tok t).
  { split; [exact Htt|]. split; [exact Hti|]. exists amount'. auto. }
  apply sortedInsert_found; auto.
  intros x Hx. eapply found_exact_in_comparable; eassumption.
Qed.

Lemma leafExactOut_succeeds tokenIn orig m (before : list Pair) (p : Pair)
      (after : list Pair) (amount amount' : TokenAmount) (np : Pair) (mh : Z)
      (cur : list Pair) (bt : list Trade) :
  levelExactOut orig (before ++ p :: after) amount mh cur -> 0 < mh ->
  candidate p amount = true -> getInputAmount p amount = Ok (amount', np) ->
  Token_equals (token amount') tokenIn = true ->
  ranked tradeComparator bt /\ Forall (found_exact_out tokenIn orig) bt ->
  exists bt',
    (let* t := buildExactOut WETH tokenIn orig (p :: cur) in
     sortedInsert tradeComparator bt t m) = Ok bt'
    /\ ranked tradeComparator bt' /\ Forall (found_exact_out tokenIn orig) bt'.
Proof.
  intros HL _ _ Hs Ht Hbt.
  destruct (@buildExactOut_succeeds tokenIn orig amount amount' p np _ mh cur HL Hs Ht)
    as (t & -> & Htt & Hti & Hto).
  cbn [bind].
  assert (Hfound : found_exact_out tokenIn orig t).
  { split; [exact Htt|]. split; [exact Hto|]. exists amount'. auto. }
  apply sortedInsert_found; auto.
  intros x Hx. eapply found_exact_out_comparable; eassumption.
Qed.

Lemma searchExactIn_succeeds tok m orig fuel ps amount mh cur same bt :
  (List.length ps <= fuel)%nat -> ps <> [] -> 0 < mh ->
  same = true \/ cur <> [] ->
  levelExactIn orig ps amount mh cur ->
  ranked tradeComparator bt /\ Forall (found_exact_in orig tok) bt ->
  exists bt',
    searchExactIn WETH tok m orig fuel ps amount mh cur same bt = Some (Ok bt')
    /\ ranked tradeComparator bt' /\ Forall (found_exact_in orig tok) bt'.
Proof.
  intros Hfuel Hne Hmh Hsame HL Hbt. unfold searchExactIn.
  apply (@search_rec_succeeds getOutputAmount isInsufficientInputAmountError
           (fun c p => c ++ [p]) (buildExactIn WETH orig) tok m
           (fun l => ranked tradeComparator l /\ Forall (found_exact_in orig tok) l)
           (levelExactIn orig)); try assumption.
  - intros c p. destruct c; discriminate.
  - intros p a e Hc He. rewrite (getOutputAmount_candidate _ _ Hc He). reflexivity.
  - intros before p after a a' np mh0 cur0 (ams & nps & Hw & Hlast) _ Hs _.
    rewrite <- Hlast in Hs.
    exists (ams ++ [a']), (nps ++ [np]). split.
    + eapply amounts_forward_snoc; eassumption.
    + apply last_last.
  - intros. eapply leafExactIn_succeeds; eassumption.
Qed.

Lemma searchExactOut_succeeds tokenIn m orig fuel ps amount mh cur same bt :
  (List.length ps <= fuel)%nat -> ps <> [] -> 0 < mh ->
  same = true \/ cur <> [] ->
  levelExactOut orig ps amount mh cur ->
  ranked tradeComparator bt /\ Forall (found_exact_out tokenIn orig) bt ->
  exists bt',
    searchExactOut WETH tokenIn m orig fuel ps amount mh cur same bt = Some (Ok bt')
    /\ ranked tradeComparator bt' /\ Forall (found_exact_out tokenIn orig) bt'.
Proof.
  intros Hfuel Hne Hmh Hsame HL Hbt. unfold searchExactOut.
  apply (@search_rec_succeeds getInputAmount isInsufficientReservesError
           (fun c p => p :: c) (buildExactOut WETH tokenIn orig) tokenIn m
           (fun l => ranked tradeComparator l /\ Forall (found_exact_out tokenIn orig) l)
           (levelExactOut orig)); try assumption.
  - intros c p. discriminate.
  - intros p a e Hc He.
    destruct (getInputAmount_failure _ _ He) as [->| ->]; [|reflexivity].
    exfalso. revert He. unfold getInputAmount, invariant.
    rewrite (candidate_involves _ _ Hc). cbn [bind].
    destruct (_ || _); discriminate.
  - intros before p after a a' np mh0 cur0 (ams & nps & Hw & Hhd) _ Hs _.
    exists (a' :: ams), (np :: nps). split; [|reflexivity].
    cbn [amounts_backward]. rewrite Hw. cbn [bind]. rewrite Hhd, Hs. reflexivity.
  - intros. eapply leafExactOut_succeeds; eassumption.
Qed.

Lemma bestTradeExactIn_succeeds ps amount tok options :
  ps <> [] -> 0 < maxHops options ->
  exists l, bestTradeExactIn WETH ps amount tok options = Some (Ok l)
            /\ ranked tradeComparator l /\ Forall (found_exact_in amount tok) l.
Proof.
  intros Hne Hmh. unfold bestTradeExactIn. rewrite bestTradeExactIn_rec_search.
  apply searchExactIn_succeeds; auto.
  - exists [amount], []. split; reflexivity.
  - split; constructor.
Qed.

Lemma bestTradeExactOut_succeeds ps tokenIn amount options :
  ps <> [] -> 0 < maxHops options ->
  exists l, bestTradeExactOut WETH ps tokenIn amount options = Some (Ok l)
            /\ ranked tradeComparator l /\ Forall (found_exact_out tokenIn amount) l.
Proof.
  intros Hne Hmh. unfold bestTradeExactOut. rewrite bestTradeExactOut_rec_search.
  apply searchExactOut_succeeds; auto.
  - exists [amount], []. split; reflexivity.
  - split; constructor.
Qed.
Lemma bestTradeExactIn_validation ps amount tok options :
  (ps = [] ->
   bestTradeExactIn WETH ps amount tok options = Some (Err (InvariantError "PAIRS")))
  /\ (ps <> [] -> maxHops options <= 0 ->
      bestTradeExactIn WETH ps amount tok options
      = Some (Err (InvariantError "MAX_HOPS"))).
Proof.
  split.
  - intros ->. reflexivity.
  - intros Hne Hmh. destruct ps as [|p ps]; [congruence|].
    unfold bestTradeExactIn. cbn [List.length bestTradeExactIn_rec].
    unfold invariant.
    destruct (Z.gtb_spec (Z.of_nat (S (List.length ps))) 0); [|lia].
    destruct (Z.gtb_spec (maxHops options) 0); [lia|]. reflexivity.
Qed.

Lemma bestTradeExactOut_validation ps tokenIn amount options :
  (ps = [] ->
   bestTradeExactOut WETH ps tokenIn amount options
   = Some (Err (InvariantError "PAIRS")))
  /\ (ps <> [] -> maxHops options <= 0 ->
      bestTradeExactOut WETH ps tokenIn amount options
      = Some (Err (InvariantError "MAX_HOPS"))).
Proof.
  split.
  - intros ->. reflexivity.
  - intros Hne Hmh. destruct ps as [|p ps]; [congruence|].
    unfold bestTradeExactOut. cbn [List.length bestTradeExactOut_rec].
    unfold invariant.
    destruct (Z.gtb_spec (Z.of_nat (S (List.length ps))) 0); [|lia].
    destruct (Z.gtb_spec (maxHops options) 0); [lia|]. reflexivity.
Qed.

Lemma bestTradeExactIn_valid ps amount tok options l :
  bestTradeExactIn WETH ps amount tok options = Some (Ok l) ->
  ps <> [] /\ 0 < maxHops options.
Proof.
  intros Hrun.
  destruct (bestTradeExactIn_validation ps amount tok options) as [He Hm].
  destruct ps as [|p ps]; [rewrite He in Hrun by reflexivity; discriminate|].
  split; [discriminate|].
  destruct (Z.ltb_spec 0 (maxHops options)) as [Hmh|Hmh]; [exact Hmh|].
  rewrite Hm in Hrun by (discriminate || exact Hmh). discriminate.
Qed.

Lemma bestTradeExactOut_valid ps tokenIn amount options l :
  bestTradeExactOut WETH ps tokenIn amount options = Some (Ok l) ->
  ps <> [] /\ 0 < maxHops options.
Proof.
  intros Hrun.
  destruct (bestTradeExactOut_validation ps tokenIn amount options) as [He Hm].
  destruct ps as [|p ps]; [rewrite He in Hrun by reflexivity; discriminate|].
  split; [discriminate|].
  destruct (Z.ltb_spec 0 (maxHops options)) as [Hmh|Hmh]; [exact Hmh|].
  rewrite Hm in Hrun by (discriminate || exact Hmh). discriminate.
Qed.
End SearchesReturn.

Section ConstructorOutcome.
Variable WETH : ChainId -> Token.

(** X13. The amounts of a trade constructed over a route are amounts of
    the tokens at the two ends of the route: the input amount of the input
    of the route and the output amount of its output, whichever side was
    given and whether or not the given amount was the native asset. *)
Theorem newTrade_amount_tokens (ps : list Pair) (inp : Token) (r : Route)
    (amount : CurrencyAmount) (tt : TradeType) (t : Trade) :
  newRoute ps inp = Ok r ->
  newTrade WETH r amount tt = Ok t ->
  exists ia oa,
    inputAmount t = OfToken ia /\ outputAmount t = OfToken oa
    /\ Token_equals (token ia) (input r) = true
    /\ Token_equals (token oa) (output r) = true.
Proof.
  intros Hr Ht.
  destruct (newRoute_inv _ _ Hr) as (Hps & Hin & Hpath & Hout).
  destruct (newTrade_parts _ _ _ _ Ht) as (a0 & ams & nps & Hm & Hw & Hia & Hoa).
  exists (hd a0 ams), (last ams a0). split; [exact Hia|]. split; [exact Hoa|].
  rewrite Hps in Hw. destruct tt; cbn [endpoint] in Hm.
  - destruct (@forward_path ps a0 inp ams nps Hw) as (pth & Hp & Hl).
    { rewrite <- Hin, Token_equals_sym. exact Hm. }
    rewrite Hpath in Hp. inversion Hp; subst pth.
    destruct (amounts_forward_head _ _ Hw) as [tl ->]. cbn [hd].
    split; [exact Hm|]. rewrite Hout, Token_equals_sym. exact Hl.
  - destruct (amounts_backward_last _ _ Hw) as [-> _].
    split; [|exact Hm]. rewrite Hin.
    eapply backward_path_input; [exact Hw|exact Hpath|].
    rewrite <- Hout, Token_equals_sym. exact Hm.
Qed.

(** X14. Over a route, for a token amount of the endpoint the trade type
    fixes, the constructor is decided by the swaps of its walk alone: it
    fails with the failure of the first swap that fails, liquidity
    failures included, and otherwise it returns a trade whose input and
    output amounts are the first and the last amount of the walk; building
    the route of the pairs after the trade never fails. *)
Theorem newTrade_outcome (ps : list Pair) (inp : Token) (r : Route)
    (a : TokenAmount) (tt : TradeType) :
  newRoute ps inp = Ok r ->
  Token_equals (token a) (endpoint r tt) = true ->
  match walk tt ps a with
  | Ok (ams, nps) =>
      exists t, newTrade WETH r (OfToken a) tt = Ok t
                /\ inputAmount t = OfToken (hd a ams)
                /\ outputAmount t = OfToken (last ams a)
  | Err e => newTrade WETH r (OfToken a) tt = Err e
  end.
Proof.
  intros Hr Hm. destruct (walk tt ps a) as [[ams nps]|e] eqn:Hw.
  - destruct (@newTrade_succeeds_walk WETH ps inp r a tt ams nps Hr Hm)
      as (t & Ht & _ & _ & Hi & Ho).
    { destruct tt; exact Hw. }
    exists t. auto.
  - destruct (newRoute_inv _ _ Hr) as (Hps & _).
    unfold newTrade, invariant.
    destruct tt; cbn [endpoint] in Hm; cbn [walk] in Hw;
      cbn [currency currencyEquals wrappedAmount]; rewrite Hm; cbn [orb bind];
      rewrite Hps, Hw; reflexivity.
Qed.
End ConstructorOutcome.

Section SearchOutcome.
Variable WETH : ChainId -> Token.

(** X15. [bestTradeExactIn] called with its four public arguments and a
    positive [maxNumResults] fails only on its own two validations, on
    empty [pairs] before a non-positive [maxHops]; otherwise it returns a
    list, and every trade of the list is an [EXACT_INPUT] trade that
    spends exactly [amountIn] and yields an amount of [tokenOut]. *)
Theorem bestTradeExactIn_outcome (ps : list Pair) (amountIn : TokenAmount)
    (tokenOut : Token) (options : BestTradeOptions) :
  0 < maxNumResults options ->
  match bestTradeExactIn WETH ps amountIn tokenOut options with
  | Some (Ok l) =>
      ps <> [] /\ 0 < maxHops options
      /\ Forall (found_exact_in amountIn tokenOut) l
  | Some (Err e) =>
      (ps = [] /\ e = InvariantError "PAIRS")
      \/ (ps <> [] /\ maxHops options <= 0 /\ e = InvariantError "MAX_HOPS")
  | None => False
  end.
Proof.
  intros _.
  destruct (@bestTradeExactIn_validation WETH ps amountIn tokenOut options) as [He Hm].
  destruct ps as [|p ps]; [rewrite He by reflexivity; left; split; reflexivity|].
  destruct (Z.ltb_spec 0 (maxHops options)) as [Hmh|Hmh].
  - destruct (@bestTradeExactIn_succeeds WETH (p :: ps) amountIn tokenOut options)
      as (l & -> & _ & Hl); [discriminate|exact Hmh|].
    split; [discriminate|]. split; assumption.
  - rewrite Hm by (discriminate || exact Hmh).
    right. split; [discriminate|]. split; [exact Hmh|reflexivity].
Qed.

(** X16. [bestTradeExactOut] called with its four public arguments and a
    positive [maxNumResults] fails only on its own two validations, on
    empty [pairs] before a non-positive [maxHops]; otherwise it returns a
    list, and every trade of the list is an [EXACT_OUTPUT] trade that
    yields exactly [amountOut] and spends an amount of [tokenIn]. *)
Theorem bestTradeExactOut_outcome (ps : list Pair) (tokenIn : Token)
    (amountOut : TokenAmount) (options : BestTradeOptions) :
  0 < maxNumResults options ->
  match bestTradeExactOut WETH ps tokenIn amountOut options with
  | Some (Ok l) =>
      ps <> [] /\ 0 < maxHops options
      /\ Forall (found_exact_out tokenIn amountOut) l
  | Some (Err e) =>
      (ps = [] /\ e = InvariantError "PAIRS")
      \/ (ps <> [] /\ maxHops options <= 0 /\ e = InvariantError "MAX_HOPS")
  | None => False
  end.
Proof.
  intros _.
  destruct (@bestTradeExactOut_validation WETH ps tokenIn amountOut options) as [He Hm].
  destruct ps as [|p ps]; [rewrite He by reflexivity; left; split; reflexivity|].
  destruct (Z.ltb_spec 0 (maxHops options)) as [Hmh|Hmh].
  - destruct (@bestTradeExactOut_succeeds WETH (p :: ps) tokenIn amountOut options)
      as (l & -> & _ & Hl); [discriminate|exact Hmh|].
    split; [discriminate|]. split; assumption.
  - rewrite Hm by (discriminate || exact Hmh).
    right. split; [discriminate|]. split; [exact Hmh|reflexivity].
Qed.
End SearchOutcome.

(** ** The order of the results *)

Lemma tradeComparator_amounts (a b : Trade) (c : Z) :
  tradeComparator a b = Ok c -> c <= 0 ->
  (amount_value (outputAmount b) < amount_value (outputAmount a))%Q
  \/ ((amount_value (outputAmount a) == amount_value (outputAmount b))%Q
      /\ (amount_value (inputAmount a) <= amount_value (inputAmount b))%Q).
Proof.
  unfold tradeComparator. intros H Hc.
  destruct (inputOutputComparator (inputAmount a) (outputAmount a)
              (inputAmount b) (outputAmount b)) as [c0|e] eqn:Hio;
    cbn [bind] in H; [|discriminate].
  destruct (inputOutputComparator_success _ _ _ _ Hio) as [Hi Ho].
  destruct (inputOutputComparator_ok _ _ _ _ Hi Ho) as (c1 & Hio' & Hz & Hneg & _).
  rewrite Hio in Hio'. inversion Hio'; subst c1. clear Hio'.
  rewrite !amount_lessThan_value, !amount_equalTo_value in *.
  destruct (Z.eqb_spec c0 0) as [E|N]; cbn [negb] in H.
  - apply Hz in E. destruct E as [Eo Ei]. right. split; [exact Eo|].
    rewrite Ei. apply Qle_refl.
  - inversion H; subst c.
    assert (Hlt : c0 < 0) by lia. apply Hneg in Hlt.
    destruct Hlt as [Hlt|[Eo Hlt]]; [left; exact Hlt|].
    right. split; [exact Eo|]. apply Qlt_le_weak. exact Hlt.
Qed.

Lemma ranked_output_descending l :
  ranked tradeComparator l -> StronglySorted output_descending l.
Proof.
  intros Hr. apply Sorted_StronglySorted.
  { intros x y z Hxy Hyz. unfold output_descending in *. eapply Qle_trans; eassumption. }
  induction Hr as [| t | a b l c Hc Hle Hr IH]; repeat constructor; try assumption.
  - inversion IH; assumption.
  - inversion IH; assumption.
  - unfold output_descending.
    destruct (tradeComparator_amounts _ _ Hc Hle) as [Hlt|[Heq _]].
    + apply Qlt_le_weak. exact Hlt.
    + rewrite Heq. apply Qle_refl.
Qed.

Lemma ranked_input_ascending orig l :
  ranked tradeComparator l ->
  Forall (fun t => outputAmount t = OfToken orig) l ->
  StronglySorted input_ascending l.
Proof.
  intros Hr Hall. apply Sorted_StronglySorted.
  { intros x y z Hxy Hyz. unfold input_ascending in *. eapply Qle_trans; eassumption. }
  induction Hr as [| t | a b l c Hc Hle Hr IH]; repeat constructor.
  - inversion Hall as [|? ? _ Hall']; subst.
    specialize (IH Hall'). inversion IH; assumption.
  - inversion Hall as [|? ? _ Hall']; subst.
    specialize (IH Hall'). inversion IH; assumption.
  - unfold input_ascending.
    inversion Hall as [|? ? Ha Hall']; subst. inversion Hall' as [|? ? Hb _]; subst.
    destruct (tradeComparator_amounts _ _ Hc Hle) as [Hlt|[_ Hin]]; [|exact Hin].
    rewrite Ha, Hb in Hlt. exfalso. eapply Qlt_irrefl; exact Hlt.
Qed.

Section ResultOrder.
Variable WETH : ChainId -> Token.

(** X17. The list a search returns is in order: in the list of
    [bestTradeExactIn] every trade yields at least as much as every trade
    after it, so the first yields the most; in the list of
    [bestTradeExactOut], whose trades all yield [amountOut], every trade
    spends at most as much as every trade after it, so the first spends
    the least. *)
Theorem best_trades_ordered (ps : list Pair) (amount : TokenAmount) (tok : Token)
    (options : BestTradeOptions) :
  (forall l, bestTradeExactIn WETH ps amount tok options = Some (Ok l) ->
             StronglySorted output_descending l)
  /\
  (forall l, bestTradeExactOut WETH ps tok amount options = Some (Ok l) ->
             StronglySorted input_ascending l
             /\ Forall (fun t => outputAmount t = OfToken amount) l).
Proof.
  split; intros l Hrun.
  - destruct (@bestTradeExactIn_valid WETH _ _ _ _ _ Hrun) as [Hne Hmh].
    destruct (@bestTradeExactIn_succeeds WETH ps amount tok options Hne Hmh)
      as (l' & Hl' & Hr & _).
    rewrite Hrun in Hl'. inversion Hl'; subst l'.
    apply ranked_output_descending. exact Hr.
  - destruct (@bestTradeExactOut_valid WETH _ _ _ _ _ Hrun) as [Hne Hmh].
    destruct (@bestTradeExactOut_succeeds WETH ps tok amount options Hne Hmh)
      as (l' & Hl' & Hr & Hf).
    rewrite Hrun in Hl'. inversion Hl'; subst l'.
    assert (Hall : Forall (fun t => outputAmount t = OfToken amount) l).
    { eapply Forall_impl; [|exact Hf]. intros t (_ & Ho & _). exact Ho. }
    split; [|exact Hall].
    eapply ranked_input_ascending; eassumption.
Qed.
End ResultOrder.

(* ================================================================== *)
(** * What the searches find *)

Lemma io_before_refl (a : Trade) : io_before a a.
Proof. right. split; [reflexivity|apply Qle_refl]. Qed.

Lemma io_before_trans (a b c : Trade) : io_before a b -> io_before b c -> io_before a c.
Proof.
  unfold io_before.
  set (oa := amount_value (outputAmount a)). set (ob := amount_value (outputAmount b)).
  set (oc := amount_value (outputAmount c)). set (ia := amount_value (inputAmount a)).
  set (ib := amount_value (inputAmount b)). set (ic := amount_value (inputAmount c)).
  intros [H1|[H1 H1']] [H2|[H2 H2']].
  - left. lra.
  - left. lra.
  - left. lra.
  - right. split; lra.
Qed.

Lemma insert_ranked_head (cmp : Trade -> Trade -> result Z) bt t l :
  insert_ranked cmp bt t = Ok l ->
  match bt with
  | [] => l = [t]
  | x :: _ =>
      exists c, cmp x t = Ok c
                /\ ((c <= 0 /\ exists y tl, l = x :: y :: tl)
                    \/ (0 < c /\ l = t :: bt))
  end.
Proof.
  destruct bt as [|x bt]; cbn [insert_ranked].
  - intros H; inversion H; reflexivity.
  - destruct (cmp x t) as [c|e]; cbn [bind]; [|discriminate].
    intros H. exists c. split; [reflexivity|].
    destruct (Z.leb_spec c 0) as [Hle|Hgt].
    + destruct (insert_ranked cmp bt t) as [r|e] eqn:Hr; cbn [bind] in H; [|discriminate].
      inversion H; subst. left. split; [exact Hle|].
      pose proof (@insert_ranked_length cmp bt t r Hr) as Hlen.
      destruct r as [|y tl]; [discriminate|]. eauto.
    + inversion H; subst. right. split; [exact Hgt|reflexivity].
Qed.

(** The first entry after an insertion: the entry inserted or the first
    entry before. *)
Lemma sortedInsert_head bt t m bt' :
  0 < m \/ bt <> [] ->
  sortedInsert tradeComparator bt t m = Ok bt' ->
  exists h tl, bt' = h :: tl
    /\ match bt with
       | [] => h = t
       | x :: _ =>
           exists c, tradeComparator x t = Ok c
                     /\ ((c <= 0 /\ h = x) \/ (0 < c /\ h = t))
       end.
Proof.
  intros Hm. unfold sortedInsert.
  destruct (insert_ranked tradeComparator bt t) as [l|e] eqn:Hi; cbn [bind]; [|discriminate].
  pose proof (insert_ranked_head _ _ _ Hi) as Hh.
  destruct bt as [|x bt].
  - subst l. destruct Hm as [Hm|Hm]; [|congruence]. cbn [List.length].
    destruct (Z.gtb_spec (Z.of_nat 1) m); [lia|].
    intros Hres; inversion Hres; subst. eauto.
  - destruct Hh as (c & Hc & [(Hle & y & tl & ->)|(Hgt & ->)]).
    + destruct (_ >? _); intros H; inversion H; subst.
      * cbn [removelast].
        eexists x, _. split; [reflexivity|]. exists c. auto.
      * eexists x, _. split; [reflexivity|]. exists c. auto.
    + destruct (_ >? _); intros H; inversion H; subst.
      * cbn [removelast].
        eexists t, _. split; [reflexivity|]. exists c. auto.
      * eexists t, _. split; [reflexivity|]. exists c. auto.
Qed.

Lemma sortedInsert_keeps_head (t0 : Trade) bt t m bt' :
  head_before t0 bt ->
  sortedInsert tradeComparator bt t m = Ok bt' ->
  head_before t0 bt'.
Proof.
  intros (x & tl & -> & Hx) Hi.
  destruct (@sortedInsert_head (x :: tl) t m bt') as (h & tl' & -> & c & Hc & Hcase);
    [right; discriminate|exact Hi|].
  exists h, tl'. split; [reflexivity|].
  destruct Hcase as [[_ ->]|[Hgt ->]]; [exact Hx|].
  apply io_before_trans with x; [|exact Hx].
  apply tradeComparator_swap in Hc.
  destruct (tradeComparator_amounts _ _ Hc) as [H|H]; [lia|left; exact H|right; exact H].
Qed.

Lemma sortedInsert_makes_head (t0 : Trade) bt m bt' :
  0 < m ->
  sortedInsert tradeComparator bt t0 m = Ok bt' ->
  head_before t0 bt'.
Proof.
  intros Hm Hi.
  destruct (@sortedInsert_head bt t0 m bt') as (h & tl' & -> & Hcase);
    [left; exact Hm|exact Hi|].
  exists h, tl'. split; [reflexivity|].
  destruct bt as [|x bt]; [subst; apply io_before_refl|].
  destruct Hcase as (c & Hc & [[Hle ->]|[_ ->]]); [|apply io_before_refl].
  destruct (tradeComparator_amounts _ _ Hc Hle) as [H|H]; [left|right]; exact H.
Qed.

Section SearchFinds.
Variable swap : Pair -> TokenAmount -> result (TokenAmount * Pair).
Variable caught : error -> bool.
Variable extend : list Pair -> Pair -> list Pair.
Variable build : list Pair -> result Trade.
Variable target : Token.
Variable m : Z.
Variable Inv : list Trade -> Prop.
Variable Level : list Pair -> TokenAmount -> Z -> list Pair -> Prop.

Hypothesis extend_nonempty : forall cur p, extend cur p <> [].

Hypothesis swap_caught : forall p amount e,
  candidate p amount = true -> swap p amount = Err e -> caught e = true.

Hypothesis Level_next : forall before p after amount amount' np mh cur,
  Level (before ++ p :: after) amount mh cur ->
  candidate p amount = true -> swap p amount = Ok (amount', np) -> 1 < mh ->
  Level (before ++ after) amount' (mh - 1) (extend cur p).

Hypothesis leaf_succeeds : forall before p after amount amount' np mh cur bt,
  Level (before ++ p :: after) amount mh cur -> 0 < mh ->
  candidate p amount = true -> swap p amount = Ok (amount', np) ->
  Token_equals (token amount') target = true ->
  Inv bt ->
  exists bt',
    (let* t := build (extend cur p) in
     sortedInsert tradeComparator bt t m) = Ok bt'
    /\ Inv bt'.

Hypothesis m_positive : 0 < m.

(** The pair [p0] swaps the amount of the outermost call straight into
    the target, and [t0] is the trade over it. *)
Variable p0 : Pair.
Variable amount0 amount0' : TokenAmount.
Variable np0 : Pair.
Variable cur0 : list Pair.
Variable t0 : Trade.
Hypothesis candidate0 : candidate p0 amount0 = true.
Hypothesis swap0 : swap p0 amount0 = Ok (amount0', np0).
Hypothesis target0 : Token_equals (token amount0') target = true.
Hypothesis build0 : build (extend cur0 p0) = Ok t0.

Let Good (bt : list Trade) : Prop := Inv bt /\ head_before t0 bt.

Lemma leaf_keeps_good before p after amount amount' np mh cur bt :
  Level (before ++ p :: after) amount mh cur -> 0 < mh ->
  candidate p amount = true -> swap p amount = Ok (amount', np) ->
  Token_equals (token amount') target = true ->
  Good bt ->
  exists bt',
    (let* t := build (extend cur p) in
     sortedInsert tradeComparator bt t m) = Ok bt'
    /\ Good bt'.
Proof.
  intros HL Hmh Hc Hs Ht [Hbt Hgood].
  destruct (@leaf_succeeds before p after amount amount' np mh cur bt
              HL Hmh Hc Hs Ht Hbt) as (bt' & Hleaf & Hbt').
  exists bt'. split; [exact Hleaf|]. split; [exact Hbt'|].
  destruct (build (extend cur p)) as [t|e]; cbn [bind] in Hleaf; [|discriminate].
  eapply sortedInsert_keeps_head; eassumption.
Qed.

Lemma loopSearch_finds (rec : recursion) ps mh :
  Level ps amount0 mh cur0 -> 0 < mh ->
  (forall before p after amount' np bt,
      ps = before ++ p :: after -> candidate p amount0 = true ->
      swap p amount0 = Ok (amount', np) -> 1 < mh -> (1 < List.length ps)%nat ->
      Inv bt ->
      exists bt', rec (before ++ after) amount' (extend cur0 p) bt = Some (Ok bt')
                  /\ Inv bt' /\ (head_before t0 bt -> head_before t0 bt')) ->
  forall rest before bt,
    ps = before ++ rest -> Inv bt -> head_before t0 bt \/ In p0 rest ->
    exists bt',
      loopSearch swap caught extend build target m rec amount0 mh cur0 before rest bt
      = Some (Ok bt')
      /\ Good bt'.
Proof.
  intros HL Hmh Hrec. induction rest as [|p after IH]; intros before bt Hps Hbt Hor.
  - exists bt. split; [reflexivity|]. split; [exact Hbt|].
    destruct Hor as [H|[]]; exact H.
  - assert (Hnext : ps = (before ++ [p]) ++ after)
      by (rewrite <- app_assoc; exact Hps).
    assert (Hsame : forall bt1, Inv bt1 ->
              (head_before t0 bt -> head_before t0 bt1) ->
              p <> p0 \/ head_before t0 bt1 ->
              head_before t0 bt1 \/ In p0 after).
    { intros bt1 _ Hkeep Hp. destruct Hor as [H|[->|H]]; auto.
      destruct Hp as [Hp|Hp]; [congruence|auto]. }
    assert (Hskip : candidate p amount0 = false -> head_before t0 bt \/ In p0 after).
    { intros Hc. apply Hsame; auto. left. intros ->. congruence. }
    cbn [loopSearch].
    destruct (negb (Token_equals (token0 p) (token amount0))
              && negb (Token_equals (token1 p) (token amount0))) eqn:Hrel.
    { apply IH; auto. apply Hskip. unfold candidate. rewrite Hrel. reflexivity. }
    destruct (reserve_is_zero (reserve0 p) || reserve_is_zero (reserve1 p)) eqn:Hz.
    { apply IH; auto. apply Hskip. unfold candidate. rewrite Hrel, Hz. reflexivity. }
    assert (Hc : candidate p amount0 = true)
      by (unfold candidate; rewrite Hrel, Hz; reflexivity).
    destruct (swap p amount0) as [[amount' np]|e] eqn:Hs.
    2: { rewrite (swap_caught Hc Hs). apply IH; auto.
         apply Hsame; auto. left. intros ->. congruence. }
    pose proof HL as HL'. rewrite Hps in HL'.
    destruct (Token_equals (token amount') target) eqn:Ht.
    { destruct (@leaf_succeeds before p after amount0 amount' np mh cur0 bt
                  HL' Hmh Hc Hs Ht Hbt) as (bt' & Hleaf & Hbt').
      rewrite Hleaf. apply IH; auto.
      destruct (build (extend cur0 p)) as [t|e] eqn:Hb; cbn [bind] in Hleaf;
        [|discriminate].
      destruct Hor as [H|[->|H]]; auto.
      - left. eapply sortedInsert_keeps_head; eassumption.
      - left. rewrite build0 in Hb. inversion Hb; subst t.
        exact (@sortedInsert_makes_head t0 bt m bt' m_positive Hleaf). }
    assert (Hnot : p <> p0).
    { intros ->. rewrite swap0 in Hs. inversion Hs; subst. congruence. }
    destruct (Z.gtb_spec mh 1) as [Hgo|]; cbn [andb];
      [|apply IH; auto].
    destruct (Z.gtb_spec (Z.of_nat (List.length (before ++ p :: after))) 1) as [Hlen|];
      [|apply IH; auto].
    assert (Hlen' : (1 < List.length ps)%nat) by (rewrite Hps; lia).
    destruct (Hrec before p after amount' np bt Hps Hc Hs Hgo Hlen' Hbt)
      as (bt' & Hr & Hbt' & Hkeep).
    rewrite Hr. apply IH; auto.
Qed.

Lemma search_rec_finds fuel ps mh same :
  (List.length ps <= fuel)%nat ->
  In p0 ps -> 0 < mh -> same = true \/ cur0 <> [] ->
  Level ps amount0 mh cur0 -> Inv [] ->
  exists bt',
    search_rec swap caught extend build target m fuel ps amount0 mh cur0 same []
    = Some (Ok bt')
    /\ Inv bt' /\ head_before t0 bt'.
Proof.
  intros Hfuel Hin Hmh Hsame HL Hnil.
  destruct fuel as [|fuel]; [destruct ps; [destruct Hin|cbn in Hfuel; lia]|].
  cbn [search_rec]. unfold invariant.
  destruct (Z.gtb_spec (Z.of_nat (List.length ps)) 0) as [_|Hlen];
    [|destruct ps; [destruct Hin|cbn in Hlen; lia]].
  destruct (Z.gtb_spec mh 0) as [_|]; [|lia].
  assert (Hinv : same || (Z.of_nat (List.length cur0) >? 0) = true).
  { destruct Hsame as [->|Hcur]; [reflexivity|].
    destruct cur0; [congruence|]. cbn [List.length].
    destruct (Z.gtb_spec (Z.of_nat (S (List.length l))) 0); [|lia].
    apply Bool.orb_true_r. }
  rewrite Hinv. cbn [bind].
  apply loopSearch_finds with (ps := ps); auto.
  intros before p after amount' np bt Hps Hc Hs Hgo Hlen Hbt.
  assert (Hcall : forall (I : list Trade -> Prop),
            (forall before p after amount amount' np mh cur bt,
                Level (before ++ p :: after) amount mh cur -> 0 < mh ->
                candidate p amount = true -> swap p amount = Ok (amount', np) ->
                Token_equals (token amount') target = true ->
                I bt ->
                exists bt',
                  (let* t := build (extend cur p) in
                   sortedInsert tradeComparator bt t m) = Ok bt'
                  /\ I bt') ->
            I bt ->
            exists bt',
              search_rec swap caught extend build target m fuel (before ++ after)
                amount' (mh - 1) (extend cur0 p) false bt = Some (Ok bt')
              /\ I bt').
  { intros I Hleaf HI.
    apply (@search_rec_succeeds swap caught extend build target m I Level
             extend_nonempty swap_caught Level_next Hleaf fuel).
    - subst ps. rewrite length_app in *. cbn [List.length] in *. lia.
    - subst ps. rewrite length_app in Hlen. cbn [List.length] in Hlen.
      destruct before, after; cbn in *; try discriminate; lia.
    - lia.
    - right. apply extend_nonempty.
    - subst ps. eapply Level_next; eassumption.
    - exact HI. }
  destruct (Hcall Inv leaf_succeeds Hbt) as (bt' & Hrun & Hbt').
  exists bt'. split; [exact Hrun|]. split; [exact Hbt'|].
  intros Hgood.
  destruct (Hcall Good leaf_keeps_good (conj Hbt Hgood)) as (bt'' & Hrun' & _ & Hg).
  rewrite Hrun in Hrun'. inversion Hrun'; subst. exact Hg.
Qed.
End SearchFinds.

Lemma getOutputAmount_ok_candidate p a o np :
  getOutputAmount p a = Ok (o, np) -> candidate p a = true.
Proof.
  unfold getOutputAmount, invariant, involvesToken, candidate.
  rewrite !reserve_is_zero_raw.
  rewrite (Token_equals_sym (token0 p)), (Token_equals_sym (token1 p)).
  destruct (Token_equals (token a) (token0 p)), (Token_equals (token a) (token1 p));
    cbn [orb negb andb bind]; try discriminate;
    destruct (_ || _); cbn [negb]; try discriminate; reflexivity.
Qed.

Lemma getInputAmount_ok_candidate p a i np :
  getInputAmount p a = Ok (i, np) -> candidate p a = true.
Proof.
  unfold getInputAmount, invariant, involvesToken, candidate.
  rewrite !reserve_is_zero_raw.
  rewrite (Token_equals_sym (token0 p)), (Token_equals_sym (token1 p)).
  destruct (Token_equals (token a) (token0 p)), (Token_equals (token a) (token1 p));
    cbn [orb negb andb bind]; try discriminate;
    destruct ((ta_raw (reserve0 p) =? ZERO) || (ta_raw (reserve1 p) =? ZERO));
    cbn [orb negb]; try discriminate; reflexivity.
Qed.

Lemma getOutputAmount_caught p a e :
  candidate p a = true -> getOutputAmount p a = Err e ->
  isInsufficientInputAmountError e = true.
Proof. intros Hc He. rewrite (getOutputAmount_candidate _ _ Hc He). reflexivity. Qed.

Lemma getInputAmount_caught p a e :
  candidate p a = true -> getInputAmount p a = Err e ->
  isInsufficientReservesError e = true.
Proof.
  intros Hc He.
  destruct (getInputAmount_failure _ _ He) as [->| ->]; [|reflexivity].
  exfalso. revert He. unfold getInputAmount, invariant.
  rewrite (candidate_involves _ _ Hc). cbn [bind].
  destruct (_ || _); discriminate.
Qed.

Lemma levelExactIn_next orig (before : list Pair) (p : Pair) (after : list Pair)
      (amount amount' : TokenAmount) (np : Pair) (mh : Z) (cur : list Pair) :
  levelExactIn orig (before ++ p :: after) amount mh cur ->
  candidate p amount = true ->
  getOutputAmount p amount = Ok (amount', np) -> 1 < mh ->
  levelExactIn orig (before ++ after) amount' (mh - 1) (cur ++ [p]).
Proof.
  intros (ams & nps & Hw & Hlast) _ Hs _.
  rewrite <- Hlast in Hs.
  exists (ams ++ [amount']), (nps ++ [np]). split.
  - eapply amounts_forward_snoc; eassumption.
  - apply last_last.
Qed.

Lemma levelExactOut_next orig (before : list Pair) (p : Pair) (after : list Pair)
      (amount amount' : TokenAmount) (np : Pair) (mh : Z) (cur : list Pair) :
  levelExactOut orig (before ++ p :: after) amount mh cur ->
  candidate p amount = true ->
  getInputAmount p amount = Ok (amount', np) -> 1 < mh ->
  levelExactOut orig (before ++ after) amount' (mh - 1) (p :: cur).
Proof.
  intros (ams & nps & Hw & Hhd) _ Hs _.
  exists (amount' :: ams), (np :: nps). split; [|reflexivity].
  cbn [amounts_backward]. rewrite Hw. cbn [bind]. rewrite Hhd, Hs. reflexivity.
Qed.

Lemma snoc_not_nil (A : Type) (l : list A) (x : A) : l ++ [x] <> [].
Proof. destruct l; discriminate. Qed.

Lemma cons_not_nil (A : Type) (l : list A) (x : A) : x :: l <> [].
Proof. discriminate. Qed.

Section DirectPair.
Variable WETH : ChainId -> Token.

(** X18. When one of the pairs swaps [amountIn] straight into [tokenOut],
    [bestTradeExactIn] with a positive [maxHops] and a positive
    [maxNumResults] returns at least one trade, and the first trade of its
    list yields at least what that pair yields. *)
Theorem bestTradeExactIn_beats_direct (ps : list Pair) (amountIn : TokenAmount)
    (tokenOut : Token) (options : BestTradeOptions)
    (p : Pair) (direct : TokenAmount) (np : Pair) :
  In p ps ->
  getOutputAmount p amountIn = Ok (direct, np) ->
  Token_equals (token direct) tokenOut = true ->
  0 < maxHops options -> 0 < maxNumResults options ->
  exists best rest,
    bestTradeExactIn WETH ps amountIn tokenOut options = Some (Ok (best :: rest))
    /\ found_exact_in amountIn tokenOut best
    /\ (amount_value (OfToken direct) <= amount_value (outputAmount best))%Q.
Proof.
  intros Hin Hs Ht Hmh Hm.
  assert (HL : forall mh, levelExactIn amountIn ps amountIn mh []).
  { intros mh. exists [amountIn], []. split; reflexivity. }
  destruct (@buildExactIn_succeeds WETH amountIn amountIn direct p np ps
              (maxHops options) [] (HL _) Hs) as (t0 & Hb & Htt & Hti & Hto).
  unfold bestTradeExactIn. rewrite bestTradeExactIn_rec_search. unfold searchExactIn.
  destruct (@search_rec_finds getOutputAmount isInsufficientInputAmountError
              (fun c q => c ++ [q]) (buildExactIn WETH amountIn) tokenOut
              (maxNumResults options)
              (fun l => ranked tradeComparator l
                        /\ Forall (found_exact_in amountIn tokenOut) l)
              (levelExactIn amountIn)
              (@snoc_not_nil Pair)
              getOutputAmount_caught (@levelExactIn_next amountIn)
              (@leafExactIn_succeeds WETH amountIn tokenOut (maxNumResults options))
              Hm p amountIn direct np [] t0
              (getOutputAmount_ok_candidate _ _ Hs) Hs Ht Hb
              (List.length ps) ps (maxHops options) true)
    as (bt & Hrun & [_ Hall] & (h & tl & -> & Hbefore)); auto.
  { split; constructor. }
  exists h, tl. split; [exact Hrun|].
  inversion Hall as [|? ? Hfound _]; subst. split; [exact Hfound|].
  destruct Hfound as (_ & Hhi & _).
  unfold io_before in Hbefore. rewrite Hto, Hti, Hhi in Hbefore.
  destruct Hbefore as [Hlt|[Heq _]].
  - apply Qlt_le_weak. exact Hlt.
  - rewrite Heq. apply Qle_refl.
Qed.

(** X19. When one of the pairs yields [amountOut] straight from
    [tokenIn], [bestTradeExactOut] with a positive [maxHops] and a
    positive [maxNumResults] returns at least one trade, and the first
    trade of its list spends at most what that pair asks. *)
Theorem bestTradeExactOut_beats_direct (ps : list Pair) (tokenIn : Token)
    (amountOut : TokenAmount) (options : BestTradeOptions)
    (p : Pair) (direct : TokenAmount) (np : Pair) :
  In p ps ->
  getInputAmount p amountOut = Ok (direct, np) ->
  Token_equals (token direct) tokenIn = true ->
  0 < maxHops options -> 0 < maxNumResults options ->
  exists best rest,
    bestTradeExactOut WETH ps tokenIn amountOut options = Some (Ok (best :: rest))
    /\ found_exact_out tokenIn amountOut best
    /\ (amount_value (inputAmount best) <= amount_value (OfToken direct))%Q.
Proof.
  intros Hin Hs Ht Hmh Hm.
  assert (HL : forall mh, levelExactOut amountOut ps amountOut mh []).
  { intros mh. exists [amountOut], []. split; reflexivity. }
  destruct (@buildExactOut_succeeds WETH tokenIn amountOut amountOut direct p np ps
              (maxHops options) [] (HL _) Hs Ht) as (t0 & Hb & Htt & Hti & Hto).
  unfold bestTradeExactOut. rewrite bestTradeExactOut_rec_search. unfold searchExactOut.
  destruct (@search_rec_finds getInputAmount isInsufficientReservesError
              (fun c q => q :: c) (buildExactOut WETH tokenIn amountOut) tokenIn
              (maxNumResults options)
              (fun l => ranked tradeComparator l
                        /\ Forall (found_exact_out tokenIn amountOut) l)
              (levelExactOut amountOut)
              (@cons_not_nil Pair)
              getInputAmount_caught (@levelExactOut_next amountOut)
              (@leafExactOut_succeeds WETH tokenIn amountOut (maxNumResults options))
              Hm p amountOut direct np [] t0
              (getInputAmount_ok_candidate _ _ Hs) Hs Ht Hb
              (List.length ps) ps (maxHops options) true)
    as (bt & Hrun & [_ Hall] & (h & tl & -> & Hbefore)); auto.
  { split; constructor. }
  exists h, tl. split; [exact Hrun|].
  inversion Hall as [|? ? Hfound _]; subst. split; [exact Hfound|].
  destruct Hfound as (_ & Hho & _).
  unfold io_before in Hbefore. rewrite Hto, Hti, Hho in Hbefore.
  destruct Hbefore as [Hlt|[_ Hle]]; [|exact Hle].
  exfalso. eapply Qlt_irrefl; exact Hlt.
Qed.
End DirectPair.

(* ================================================================== *)
(** * The array of results *)

Section ResultArray.
Variable WETH : ChainId -> Token.

(** X20. Called with all seven arguments on a store, a search that ends
    with a list returns the very array it was given as [bestTrades]: the
    trades found are inserted into that array in place, which then holds
    the list the search computes from what the array held, and every
    array of pairs of the store is left as it was. *)
Theorem bestTrades_updated_in_place (fuel : nat) (ps cur : list Pair)
    (amount orig : TokenAmount) (tok : Token) (m mh : Z) (same : bool)
    (bt l : list Trade) (h : Store.t) (pairsRef curRef btRef : Store.ref) :
  Store.readPairs h pairsRef = Some ps ->
  Store.readPairs h curRef = Some cur ->
  Store.readTrades h btRef = Some bt ->
  (bestTradeExactIn_rec WETH fuel ps amount tok m mh cur orig same bt = Some (Ok l) ->
   exists h',
     Store.search getOutputAmount isInsufficientInputAmountError
       (fun currentPairs p => currentPairs ++ [p]) (buildExactIn WETH orig) tok m
       fuel pairsRef amount mh curRef same btRef h = Some (h', Ok btRef)
     /\ Store.readTrades h' btRef = Some l
     /\ forall a x, Store.readPairs h a = Some x -> Store.readPairs h' a = Some x)
  /\
  (bestTradeExactOut_rec WETH fuel ps tok amount m mh cur orig same bt = Some (Ok l) ->
   exists h',
     Store.search getInputAmount isInsufficientReservesError
       (fun currentPairs p => p :: currentPairs) (buildExactOut WETH tok orig) tok m
       fuel pairsRef amount mh curRef same btRef h = Some (h', Ok btRef)
     /\ Store.readTrades h' btRef = Some l
     /\ forall a x, Store.readPairs h a = Some x -> Store.readPairs h' a = Some x).
Proof.
  intros Hp Hc Hb. split; intros Hrun.
  - rewrite bestTradeExactIn_rec_search in Hrun. unfold searchExactIn in Hrun.
    pose proof (@search_agrees getOutputAmount isInsufficientInputAmountError
                  (fun c p => c ++ [p]) (buildExactIn WETH orig) tok m fuel
                  ps amount mh cur same bt h pairsRef curRef btRef Hp Hc Hb) as H.
    rewrite Hrun in H. destruct H as (h' & Hs & He & Hr).
    exists h'. split; [exact Hs|]. split; [apply Hr; reflexivity|].
    intros a x Ha. eapply extends_readPairs; eassumption.
  - rewrite bestTradeExactOut_rec_search in Hrun. unfold searchExactOut in Hrun.
    pose proof (@search_agrees getInputAmount isInsufficientReservesError
                  (fun c p => p :: c) (buildExactOut WETH tok orig) tok m fuel
                  ps amount mh cur same bt h pairsRef curRef btRef Hp Hc Hb) as H.
    rewrite Hrun in H. destruct H as (h' & Hs & He & Hr).
    exists h'. split; [exact Hs|]. split; [apply Hr; reflexivity|].
    intros a x Ha. eapply extends_readPairs; eassumption.
Qed.
End ResultArray.

(* ================================================================== *)
(** * The further theorems at the sample data *)

Module MoreWitness.
Import Sample MoreSample.

Local Open Scope Q_scope.
Local Open Scope Z_scope.

Ltac evaluated := vm_compute; first [reflexivity | discriminate].

Lemma comparators_antisymmetric_witness :
  tradeComparator tradeAC tradeABC = Ok (-1)
  /\ tradeComparator tradeABC tradeAC = Ok 1.
Proof.
  split; [evaluated|].
  apply (proj2 (@comparators_antisymmetric tradeAC tradeABC (-1))). evaluated.
Defined.

Lemma tradeComparator_transitive_witness :
  tradeComparator tradeAC tradeABC = Ok (-1)
  /\ tradeComparator tradeABC tradeACout = Ok (-1)
  /\ exists z, tradeComparator tradeAC tradeACout = Ok z /\ z < 0.
Proof.
  split; [evaluated|]. split; [evaluated|].
  destruct (@tradeComparator_transitive tradeAC tradeABC tradeACout (-1) (-1))
    as (z & Hz & _ & Hlt); try evaluated.
  exists z. split; [exact Hz|]. apply Hlt. left. reflexivity.
Defined.

Lemma comparators_failure_order_witness :
  tradeComparator tradeAB tradeAC = Err (InvariantError "OUTPUT_CURRENCY")
  /\ tradeComparator tradeAC tradeAB = Err (InvariantError "OUTPUT_CURRENCY")
  /\ tradeComparator tradeBC tradeAC = Err (InvariantError "INPUT_CURRENCY").
Proof.
  destruct (@comparators_failure_order tradeAB tradeAC tradeACexact)
    as (Hio & Htc & Hswap & _).
  destruct (@comparators_failure_order tradeBC tradeAC tradeACexact)
    as (Hio' & Htc' & _).
  assert (H : tradeComparator tradeAB tradeAC = Err (InvariantError "OUTPUT_CURRENCY")).
  { apply Htc, Hio. right. repeat split; evaluated. }
  split; [exact H|]. split; [exact (Hswap _ H)|].
  apply Htc', Hio'. left. split; evaluated.
Defined.

Lemma comparators_tie_witness :
  tradeAC <> tradeACexact
  /\ tradeComparator tradeAC tradeACexact = Ok 0
  /\ frac_eq (priceImpact tradeAC) (priceImpact tradeACexact)
  /\ hops tradeAC = hops tradeACexact
  /\ inputOutputComparator (inputAmount tradeAC) (outputAmount tradeAC)
                           (inputAmount tradeABC) (outputAmount tradeABC) = Ok (-1)
  /\ ~ ((amount_value (outputAmount tradeAC) == amount_value (outputAmount tradeABC))%Q
        /\ (amount_value (inputAmount tradeAC)
            == amount_value (inputAmount tradeABC))%Q).
Proof.
  assert (Htie : tradeComparator tradeAC tradeACexact = Ok 0) by evaluated.
  assert (Hio : inputOutputComparator (inputAmount tradeAC) (outputAmount tradeAC)
                  (inputAmount tradeABC) (outputAmount tradeABC) = Ok (-1))
    by evaluated.
  split; [evaluated|]. split; [exact Htie|].
  destruct (proj1 (proj2 (@comparators_tie tradeAC tradeACexact 0) Htie) eq_refl)
    as (_ & _ & Himpact & Hhops).
  split; [exact Himpact|]. split; [exact Hhops|]. split; [exact Hio|].
  intros Heq.
  apply (proj2 (proj1 (@comparators_tie tradeAC tradeABC (-1)) Hio)) in Heq.
  discriminate Heq.
Defined.

Lemma minimumAmountOut_greatest_witness :
  tradeType tradeAC = EXACT_INPUT
  /\ exists a,
       minimumAmountOut tradeAC fivePercent = Ok a
       /\ 0 <= raw a <= raw (outputAmount tradeAC)
       /\ raw a * (100 + 5) <= raw (outputAmount tradeAC) * 100 < (raw a + 1) * (100 + 5).
Proof.
  split; [reflexivity|].
  apply (@minimumAmountOut_greatest tradeAC fivePercent); evaluated.
Defined.

Lemma maximumAmountIn_greatest_witness :
  tradeType tradeACout = EXACT_OUTPUT
  /\ exists a,
       maximumAmountIn tradeACout fivePercent = Ok a
       /\ raw (inputAmount tradeACout) <= raw a
       /\ raw a * 100 <= raw (inputAmount tradeACout) * (100 + 5) < (raw a + 1) * 100.
Proof.
  split; [reflexivity|].
  apply (@maximumAmountIn_greatest tradeACout fivePercent); evaluated.
Defined.

Lemma maximumAmountIn_monotone_witness :
  1 * 100 <= 5 * 100
  /\ exists a1 a2,
       maximumAmountIn tradeACout onePercent = Ok a1
       /\ maximumAmountIn tradeACout fivePercent = Ok a2
       /\ raw a1 <= raw a2.
Proof.
  split; [lia|].
  apply (@maximumAmountIn_monotone tradeACout onePercent fivePercent); evaluated.
Defined.

Lemma zero_tolerance_exact_witness :
  Fraction.numerator zeroPercent = 0
  /\ minimumAmountOut tradeAC zeroPercent = Ok (outputAmount tradeAC)
  /\ maximumAmountIn tradeAC zeroPercent = Ok (inputAmount tradeAC).
Proof.
  split; [reflexivity|].
  apply (@zero_tolerance_exact tradeAC zeroPercent); evaluated.
Defined.

Lemma computePriceImpact_bounds_witness :
  fraction_positive (price_raw (midPrice routeAC))
  /\ (Fraction.toQ (computePriceImpact (midPrice routeAC) hundredA ninetyNineC) < 1)%Q.
Proof.
  assert (Hp : fraction_positive (price_raw (midPrice routeAC)))
    by (split; evaluated).
  split; [exact Hp|].
  apply (proj1 (proj2 (@computePriceImpact_bounds (midPrice routeAC) hundredA ninetyNineC
                         Hp eq_refl))).
  evaluated.
Defined.

Lemma newTrade_exact_side_witness :
  newTrade weth routeAC (OfToken hundredA) EXACT_INPUT = Ok tradeAC
  /\ inputAmount tradeAC = OfToken hundredA.
Proof.
  split; [evaluated|].
  destruct (@newTrade_exact_side weth routeAC (OfToken hundredA) EXACT_INPUT tradeAC)
    as (_ & _ & (w & Hw & _ & Hi) & _); [evaluated|].
  cbn [wrappedAmount] in Hw. inversion Hw; subst w. exact Hi.
Defined.

Lemma constructed_impact_below_one_witness :
  newRoute [pAC] tA = Ok routeAC
  /\ (impact_value tradeAC < 1)%Q.
Proof.
  split; [evaluated|].
  destruct (@constructed_impact_below_one weth [pAC] tA routeAC (OfToken hundredA)
              EXACT_INPUT tradeAC) as (_ & _ & _ & Hlt & Hpos).
  - evaluated.
  - repeat constructor; evaluated.
  - evaluated.
  - evaluated.
  - apply Hlt, Hpos. reflexivity.
Defined.

Lemma newTrade_amount_tokens_witness :
  newRoute [pAC] tA = Ok routeAC
  /\ exists ia oa,
       inputAmount tradeACout = OfToken ia /\ outputAmount tradeACout = OfToken oa
       /\ Token_equals (token ia) tA = true
       /\ Token_equals (token oa) tC = true.
Proof.
  split; [evaluated|].
  apply (@newTrade_amount_tokens weth [pAC] tA routeAC (OfToken fiftyC) EXACT_OUTPUT
           tradeACout); evaluated.
Defined.

Lemma newTrade_outcome_witness :
  Token_equals (token fiftyC) (endpoint routeAC EXACT_OUTPUT) = true
  /\ match walk EXACT_OUTPUT [pAC] fiftyC with
     | Ok (ams, nps) =>
         exists t, newTrade weth routeAC (OfToken fiftyC) EXACT_OUTPUT = Ok t
                   /\ inputAmount t = OfToken (hd fiftyC ams)
                   /\ outputAmount t = OfToken (last ams fiftyC)
     | Err e => newTrade weth routeAC (OfToken fiftyC) EXACT_OUTPUT = Err e
     end.
Proof.
  split; [evaluated|].
  apply (@newTrade_outcome weth [pAC] tA routeAC fiftyC EXACT_OUTPUT); evaluated.
Defined.

Lemma bestTradeExactIn_outcome_witness :
  0 < maxNumResults defaultOptions
  /\ match bestTradeExactIn weth all hundredA tC defaultOptions with
     | Some (Ok l) =>
         all <> [] /\ 0 < maxHops defaultOptions
         /\ Forall (found_exact_in hundredA tC) l
     | Some (Err e) =>
         (all = [] /\ e = InvariantError "PAIRS")
         \/ (all <> [] /\ maxHops defaultOptions <= 0
             /\ e = InvariantError "MAX_HOPS")
     | None => False
     end.
Proof.
  split; [reflexivity|].
  apply (@bestTradeExactIn_outcome weth all hundredA tC defaultOptions). reflexivity.
Defined.

Lemma bestTradeExactOut_outcome_witness :
  0 < maxNumResults defaultOptions
  /\ match bestTradeExactOut weth all tA fiftyC defaultOptions with
     | Some (Ok l) =>
         all <> [] /\ 0 < maxHops defaultOptions
         /\ Forall (found_exact_out tA fiftyC) l
     | Some (Err e) =>
         (all = [] /\ e = InvariantError "PAIRS")
         \/ (all <> [] /\ maxHops defaultOptions <= 0
             /\ e = InvariantError "MAX_HOPS")
     | None => False
     end.
Proof.
  split; [reflexivity|].
  apply (@bestTradeExactOut_outcome weth all tA fiftyC defaultOptions). reflexivity.
Defined.

Lemma best_trades_ordered_witness :
  exists l, bestTradeExactIn weth all hundredA tC defaultOptions = Some (Ok l)
            /\ StronglySorted output_descending l.
Proof.
  destruct (bestTradeExactIn weth all hundredA tC defaultOptions) as [[l|e]|] eqn:Hrun;
    [|exfalso; revert Hrun; evaluated..].
  exists l. split; [reflexivity|].
  apply (proj1 (@best_trades_ordered weth all hundredA tC defaultOptions)). exact Hrun.
Defined.

Lemma bestTradeExactIn_beats_direct_witness :
  getOutputAmount pAC hundredA = Ok (fst directAC, snd directAC)
  /\ exists best rest,
       bestTradeExactIn weth all hundredA tC defaultOptions = Some (Ok (best :: rest))
       /\ found_exact_in hundredA tC best
       /\ (amount_value (OfToken (fst directAC)) <= amount_value (outputAmount best))%Q.
Proof.
  split; [evaluated|].
  apply (@bestTradeExactIn_beats_direct weth all hundredA tC defaultOptions
           pAC (fst directAC) (snd directAC)); try evaluated.
  right. right. left. reflexivity.
Defined.

Lemma bestTradeExactOut_beats_direct_witness :
  getInputAmount pAC fiftyC = Ok (fst directCA, snd directCA)
  /\ exists best rest,
       bestTradeExactOut weth all tA fiftyC defaultOptions = Some (Ok (best :: rest))
       /\ found_exact_out tA fiftyC best
       /\ (amount_value (inputAmount best) <= amount_value (OfToken (fst directCA)))%Q.
Proof.
  split; [evaluated|].
  apply (@bestTradeExactOut_beats_direct weth all tA fiftyC defaultOptions
           pAC (fst directCA) (snd directCA)); try evaluated.
  right. right. left. reflexivity.
Defined.

Lemma bestTrades_updated_in_place_witness :
  Store.readTrades arrays 0%nat = Some []
  /\ exists l h',
       bestTradeExactIn weth all hundredA tC defaultOptions = Some (Ok l)
       /\ Store.search getOutputAmount isInsufficientInputAmountError
            (fun currentPairs p => currentPairs ++ [p]) (buildExactIn weth hundredA)
            tC 3 3 0%nat hundredA 3 1%nat true 0%nat arrays = Some (h', Ok 0%nat)
       /\ Store.readTrades h' 0%nat = Some l.
Proof.
  split; [reflexivity|].
  destruct (bestTradeExactIn weth all hundredA tC defaultOptions) as [[l|e]|] eqn:Hrun;
    [|exfalso; revert Hrun; evaluated..].
  exists l.
  destruct (proj1 (@bestTrades_updated_in_place weth 3 all [] hundredA hundredA tC 3 3
                     true [] l arrays 0%nat 1%nat 0%nat eq_refl eq_refl eq_refl) Hrun)
    as (h' & Hs & Hr & _).
  exists h'. auto.
Defined.
End MoreWitness.
